(** * lib_strings: growable, null-terminated strings with header-adjacent metadata

    A shallow embedding of the string library (the [char *] variant with the
    [struct meta] header stored right before the characters), together with
    the parts of its two sibling variants that behave differently, and the
    properties of the buffer-management core.

    Integers follow the LP64 data model of the Linux targets the library is
    built for: [size_t] is 64 bits wide, [unsigned int] and [int] are 32 bits
    wide.  Every [size_t] expression of the source is reduced with [to_size],
    every conversion to [unsigned int] with [to_uint]. *)

From Stdlib Require Import ZArith List Lia.
From Stdlib Require Import Strings.Byte Strings.String.
From stdpp Require Import base option list gmap.

Local Open Scope Z_scope.

(** ** Machine integers and error codes *)

Definition SIZE_MAX : Z := 2 ^ 64 - 1.
Definition UINT_MAX : Z := 2 ^ 32 - 1.
Definition INT_MAX : Z := 2 ^ 31 - 1.

(** Conversion to [size_t] and to [unsigned int]: reduction modulo the width. *)
Definition to_size (z : Z) : Z := z mod 2 ^ 64.
Definition to_uint (z : Z) : Z := z mod 2 ^ 32.

Definition ENOMEM : Z := 12.
Definition EINVAL : Z := 22.
Definition ERANGE : Z := 34.

(** [sizeof (struct meta)]: two [size_t] fields. *)
Definition META_SIZE : Z := 16.

(** ** Character storage

    The characters that follow a header are a [list byte]; an access is in
    bounds when it stays inside the list.  Each primitive answers [None] where
    the C program would read or write outside the object. *)

Definition NUL : byte := x00.

Definition size_of (d : list byte) : Z := Z.of_nat (length d).

Definition in_range (d : list byte) (off n : Z) : bool :=
  (0 <=? off) && (0 <=? n) && (off + n <=? size_of d).

Definition overwrite (d : list byte) (off : Z) (bs : list byte) : list byte :=
  take (Z.to_nat off) d ++ bs ++ drop (Z.to_nat off + length bs)%nat d.

(** [d[i] = c] *)
Definition store (d : list byte) (i : Z) (c : byte) : option (list byte) :=
  if in_range d i 1 then Some (overwrite d i [c]) else None.

(** [memmove (d + dst, d + src, n)]: the source range is read as a whole
    before the destination range is written, so the ranges may overlap. *)
Definition memmove (d : list byte) (dst src n : Z) : option (list byte) :=
  if in_range d src n && in_range d dst n
  then Some (overwrite d dst (take (Z.to_nat n) (drop (Z.to_nat src) d)))
  else None.

(** What [strncpy] writes: the characters of [src] up to its first NUL, then
    NUL bytes up to [n] characters in all.  [None] when [n] characters are
    asked for and [src] ends before a NUL is met (a read past the array). *)
Fixpoint strncpy_bytes (src : list byte) (n : nat) {struct n} : option (list byte) :=
  match n with
  | O => Some []
  | S n' =>
      match src with
      | [] => None
      | c :: src' =>
          if Byte.eqb c NUL then Some (replicate (S n') NUL)
          else option_map (cons c) (strncpy_bytes src' n')
      end
  end.

(** [strncpy (d + dst, src, n)] for a source array outside the string. *)
Definition strncpy (d : list byte) (dst : Z) (src : list byte) (n : Z)
  : option (list byte) :=
  if in_range d dst n then
    match strncpy_bytes src (Z.to_nat n) with
    | Some bs => Some (overwrite d dst bs)
    | None => None
    end
  else None.

(** ** Strings in memory

    A string is one allocation: [struct meta] followed by the characters.
    [chars] is the whole character storage the allocation holds, whatever the
    [capacity] field says. *)

Record block : Type := Block {
  meta_len : Z;
  meta_capacity : Z;
  chars : list byte
}.

(** One answer of the allocator: failure, or success with the content of the
    fresh bytes and, for [realloc], whether the object moved. *)
Inductive alloc_reply : Type :=
| AllocFail
| AllocOk (moved : bool) (junk : list byte).

(** The heap maps the address held in a [string] to its block; [replies] are
    the answers of the coming [malloc] and [realloc] calls (success in place
    once the list is used up). *)
Record state : Type := State {
  heap : gmap positive block;
  replies : list alloc_reply
}.

(** The result of a call: undefined behaviour, or a return value and the
    memory after the call. *)
Inductive outcome (A : Type) : Type :=
| Fault
| Done (r : A) (st : state).
Arguments Fault {A}.
Arguments Done {A} r st.

(** Calls thread the memory and stop at the first fault. *)
Definition M (A : Type) : Type := state -> outcome A.

Definition ret {A : Type} (x : A) : M A := fun st => Done x st.

Definition fault {A : Type} : M A := fun _ => Fault.

Definition bind {A B : Type} (m : M A) (k : A -> M B) : M B :=
  fun st => match m st with
            | Fault => Fault
            | Done x st1 => k x st1
            end.

Notation "'let!' x ':=' m 'in' k" := (bind m (fun x => k))
  (at level 10, x pattern, m at level 100, k at level 200).

Definition fresh_addr (h : gmap positive block) : positive :=
  Pos.succ (map_fold (fun k _ r => Pos.max k r) 1%positive h).

Definition next_reply (st : state) : alloc_reply * state :=
  match replies st with
  | [] => (AllocOk false [], st)
  | r :: rs => (r, State (heap st) rs)
  end.

(** Storage of [n] bytes that keeps the first bytes of [d]; bytes beyond [d]
    come from [junk], then NUL. *)
Definition realloc_bytes (d : list byte) (n : nat) (junk : list byte) : list byte :=
  take n (d ++ junk ++ replicate n NUL).

(** [malloc (total)] for a string: the address of a new block whose character
    storage is what follows the header.  The two header fields are written by
    every caller before they are read; they start at 0 here.  An allocation
    too small for the header faults, since the header is written next. *)
Definition malloc (total : Z) : M (option positive) :=
  fun st =>
    match next_reply st with
    | (AllocFail, st1) => Done None st1
    | (AllocOk _ junk, st1) =>
        if total <? META_SIZE then Fault
        else
          let p := fresh_addr (heap st1) in
          let b := Block 0 0 (realloc_bytes [] (Z.to_nat (total - META_SIZE)) junk) in
          Done (Some p) (State (<[p := b]> (heap st1)) (replies st1))
    end.

(** [realloc (meta, total)]: on failure the old object stays as it is; on
    success the header and the characters are kept up to the new size and the
    object may have moved to a fresh address.  A request of 0 bytes is
    implementation-defined in C11, the standard the library is built with;
    the C library of the Linux targets (glibc) then frees the object and
    returns a null pointer, without asking for memory. *)
Definition realloc (p : positive) (total : Z) : M (option positive) :=
  fun st =>
    match heap st !! p with
    | None => Fault
    | Some b =>
        if total =? 0 then Done None (State (delete p (heap st)) (replies st))
        else
          match next_reply st with
          | (AllocFail, st1) => Done None st1
          | (AllocOk moved junk, st1) =>
              if total <? META_SIZE then Fault
              else
                let p' := if moved then fresh_addr (heap st1) else p in
                let b' := Block (meta_len b) (meta_capacity b)
                            (realloc_bytes (chars b) (Z.to_nat (total - META_SIZE)) junk) in
                Done (Some p')
                     (State (<[p' := b']> (delete p (heap st1))) (replies st1))
          end
    end.

(** [free (meta)] *)
Definition free (p : positive) : M unit :=
  fun st =>
    match heap st !! p with
    | None => Fault
    | Some _ => Done tt (State (delete p (heap st)) (replies st))
    end.

(** [string_to_meta (str)]: the header of a live string. *)
Definition get_meta (p : positive) : M block :=
  fun st =>
    match heap st !! p with
    | None => Fault
    | Some b => Done b st
    end.

Definition set_block (p : positive) (b : block) : M unit :=
  fun st => Done tt (State (<[p := b]> (heap st)) (replies st)).

(** [meta->len = v] *)
Definition put_len (p : positive) (v : Z) : M unit :=
  let! b := get_meta p in
  set_block p (Block v (meta_capacity b) (chars b)).

(** [meta->capacity = v] *)
Definition put_capacity (p : positive) (v : Z) : M unit :=
  let! b := get_meta p in
  set_block p (Block (meta_len b) v (chars b)).

(** A write into the characters of [p]; a write out of bounds faults. *)
Definition modify_chars (p : positive) (f : list byte -> option (list byte))
  : M unit :=
  let! b := get_meta p in
  match f (chars b) with
  | None => fault
  | Some d => set_block p (Block (meta_len b) (meta_capacity b) d)
  end.

(** [src + start] for a source array: [None] outside the array. *)
Definition advance (src : list byte) (start : Z) : option (list byte) :=
  if (0 <=? start) && (start <=? size_of src)
  then Some (drop (Z.to_nat start) src) else None.

(** [strlen (src)] for a source array: the number of bytes before its first
    NUL; [None] when the array holds no NUL (the scan runs past its end). *)
Fixpoint strlen (src : list byte) : option Z :=
  match src with
  | [] => None
  | c :: src' =>
      if Byte.eqb c NUL then Some 0 else option_map Z.succ (strlen src')
  end.

(** A [const char *] source in general: an array outside the strings of the
    heap, or the characters of the string at [s] (the source is then a
    [const_string]). *)
Inductive char_ptr : Type :=
| Outside (arr : list byte)
| Inside (s : positive).

(** The number of bytes [strncpy] reads from [src] when asked for [n]
    characters: it stops after the first NUL. *)
Definition strncpy_reads (src : list byte) (n : Z) : Z :=
  match strlen src with
  | Some k => Z.min n (k + 1)
  | None => n
  end.

(** [strncpy (dest + dst, src, n)] for such a source.  A source string that
    is no longer live faults (the pointer dangles); when the source is the
    destination string itself, the bytes read, from its start, must not
    overlap the bytes written. *)
Definition strncpy_at (dest : positive) (dst : Z) (src : char_ptr) (n : Z)
  : M unit :=
  match src with
  | Outside arr => modify_chars dest (fun d => strncpy d dst arr n)
  | Inside s =>
      let! b := get_meta s in
      if Pos.eqb s dest then
        modify_chars dest (fun d =>
          if (0 <? n) && (dst <? strncpy_reads d n) then None
          else strncpy d dst d n)
      else modify_chars dest (fun d => strncpy d dst (chars b) n)
  end.

(** ** Static functions *)

Definition set_string_capacity (str : positive) (capacity : Z)
  : M (Z * positive) :=
  let! r := realloc str (to_size (META_SIZE + capacity)) in
  match r with
  | None => ret (- ENOMEM, str)
  | Some meta =>
      let! _ := put_capacity meta capacity in
      ret (0, meta)
  end.

Definition set_string_length (str : positive) (len : Z) : M (Z * positive) :=
  let! meta := get_meta str in
  let! (res, str) :=
    (if meta_capacity meta <? to_size (len + 1)
     then set_string_capacity str (to_size (len * 2 + 1))
     else ret (0, str)) in
  if res <? 0 then ret (res, str)
  else
    let! _ := put_len str len in
    ret (0, str).

Definition sub_string (src : list byte) (start len : Z) : M (option positive) :=
  let! r := malloc (to_size (META_SIZE + len + 1)) in
  match r with
  | None => ret None
  | Some str =>
      let! _ := put_len str len in
      let! _ := put_capacity str (to_size (len + 1)) in
      match advance src start with
      | None => fault
      | Some from =>
          let! _ := modify_chars str (fun d => strncpy d 0 from len) in
          let! _ := modify_chars str (fun d => store d len NUL) in
          ret (Some str)
      end
  end.

Definition copy_string (dest : positive) (src : list byte) (len : Z)
  : M (Z * positive) :=
  let! (res, dest) := set_string_length dest len in
  if res <? 0 then ret (res, dest)
  else
    let! _ := modify_chars dest (fun d => strncpy d 0 src len) in
    let! _ := modify_chars dest (fun d => store d len NUL) in
    ret (0, dest).

Definition append_string (dest : positive) (src : list byte) (len : Z)
  : M (Z * positive) :=
  let! meta := get_meta dest in
  let cur_len := meta_len meta in
  let! (res, dest) := set_string_length dest (to_size (cur_len + len)) in
  if res <? 0 then ret (res, dest)
  else
    let! _ := modify_chars dest (fun d => strncpy d cur_len src len) in
    let! _ := modify_chars dest (fun d => store d (to_size (cur_len + len)) NUL) in
    ret (0, dest).

Definition prepend_string (dest : positive) (src : list byte) (len : Z)
  : M (Z * positive) :=
  let! meta := get_meta dest in
  let cur_len := meta_len meta in
  let! (res, dest) := set_string_length dest (to_size (cur_len + len)) in
  if res <? 0 then ret (res, dest)
  else
    let! _ := modify_chars dest (fun d => memmove d len 0 cur_len) in
    let! _ := modify_chars dest (fun d => strncpy d 0 src len) in
    let! _ := modify_chars dest (fun d => store d (to_size (cur_len + len)) NUL) in
    ret (0, dest).

(** The same three functions when the source may be a string of the heap;
    on an array they are the functions above. *)

Definition copy_string_at (dest : positive) (src : char_ptr) (len : Z)
  : M (Z * positive) :=
  let! (res, dest) := set_string_length dest len in
  if res <? 0 then ret (res, dest)
  else
    let! _ := strncpy_at dest 0 src len in
    let! _ := modify_chars dest (fun d => store d len NUL) in
    ret (0, dest).

Definition append_string_at (dest : positive) (src : char_ptr) (len : Z)
  : M (Z * positive) :=
  let! meta := get_meta dest in
  let cur_len := meta_len meta in
  let! (res, dest) := set_string_length dest (to_size (cur_len + len)) in
  if res <? 0 then ret (res, dest)
  else
    let! _ := strncpy_at dest cur_len src len in
    let! _ := modify_chars dest (fun d => store d (to_size (cur_len + len)) NUL) in
    ret (0, dest).

Definition prepend_string_at (dest : positive) (src : char_ptr) (len : Z)
  : M (Z * positive) :=
  let! meta := get_meta dest in
  let cur_len := meta_len meta in
  let! (res, dest) := set_string_length dest (to_size (cur_len + len)) in
  if res <? 0 then ret (res, dest)
  else
    let! _ := modify_chars dest (fun d => memmove d len 0 cur_len) in
    let! _ := strncpy_at dest 0 src len in
    let! _ := modify_chars dest (fun d => store d (to_size (cur_len + len)) NUL) in
    ret (0, dest).

(** ** API

    A [string] is the address of a live block or NULL ([None]).  A
    [string *] argument is NULL ([NullRef]) or points to a variable holding a
    string ([Ref]); the functions that may move the string hand back the
    variable as they leave it.  A [const char *] source array is given by the
    bytes that can be read from it (NULL is [None]); it lies outside the
    strings of the heap.  The functions that take the source as a string or
    as a string literal ([string_copy], [string_copy_c] and the like) read its
    length and call the same static functions. *)

Inductive string_ref : Type :=
| NullRef
| Ref (s : option positive).

(** *** Creation functions *)

Definition string_empty : M (option positive) :=
  let! r := malloc (to_size (META_SIZE + 1)) in
  match r with
  | None => ret None
  | Some str =>
      let! _ := put_len str 0 in
      let! _ := put_capacity str 1 in
      let! _ := modify_chars str (fun d => store d 0 NUL) in
      ret (Some str)
  end.

Definition string_dup (src : option positive) : M (option positive) :=
  match src with
  | None => ret None
  | Some s =>
      let! meta := get_meta s in
      sub_string (chars meta) 0 (meta_len meta)
  end.

Definition string_dup_v (src : option (list byte)) (len : Z)
  : M (option positive) :=
  match src with
  | None => ret None
  | Some arr => sub_string arr 0 (to_size len)
  end.

Definition string_sub_v (src : option (list byte)) (start len : Z)
  : M (option positive) :=
  match src with
  | None => ret None
  | Some arr => sub_string arr (to_uint start) (to_size len)
  end.

(** *** Modification functions *)

Definition string_destroy (str : option positive) : M unit :=
  match str with
  | None => ret tt
  | Some s => free s
  end.

Definition string_clear (str : option positive) : M Z :=
  match str with
  | None => ret (- EINVAL)
  | Some s =>
      let! _ := put_len s 0 in
      let! _ := modify_chars s (fun d => store d 0 NUL) in
      ret 0
  end.

Definition string_copy_v (dest : string_ref) (src : option (list byte)) (len : Z)
  : M (Z * string_ref) :=
  match dest, src with
  | Ref (Some d), Some arr =>
      let! (res, d) := copy_string d arr (to_size len) in
      ret (res, Ref (Some d))
  | _, _ => ret (- EINVAL, dest)
  end.

Definition string_append_v (dest : string_ref) (src : option (list byte)) (len : Z)
  : M (Z * string_ref) :=
  match dest, src with
  | Ref (Some d), Some arr =>
      let! (res, d) := append_string d arr (to_size len) in
      ret (res, Ref (Some d))
  | _, _ => ret (- EINVAL, dest)
  end.

Definition string_prepend_v (dest : string_ref) (src : option (list byte)) (len : Z)
  : M (Z * string_ref) :=
  match dest, src with
  | Ref (Some d), Some arr =>
      let! (res, d) := prepend_string d arr (to_size len) in
      ret (res, Ref (Some d))
  | _, _ => ret (- EINVAL, dest)
  end.

Definition string_cut (str : string_ref) (start len : Z) : M (Z * string_ref) :=
  match str with
  | Ref (Some s) =>
      let start := to_uint start in
      let len := to_size len in
      let! meta := get_meta s in
      if meta_len meta <? to_size (start + len) then ret (- ERANGE, str)
      else
        let! _ := modify_chars s (fun d => memmove d 0 start len) in
        let! _ := modify_chars s (fun d => store d len NUL) in
        let! _ := put_len s len in
        ret (0, str)
  | _ => ret (- EINVAL, str)
  end.

(** What a format and its arguments produce: an encoding error, or the bytes
    of the full output. *)
Inductive formatted : Type :=
| FmtError
| FmtOutput (out : list byte).

(** [vsnprintf (str, size, format, args)]: writes at most [size - 1] bytes of
    the output and a NUL, and returns the length of the full output; a
    negative value on an encoding error or when that length does not fit an
    [int] (the characters are then taken as untouched).  A NULL format is
    undefined behaviour. *)
Definition vsnprintf (str : positive) (size : Z) (format : option formatted)
  : M Z :=
  match format with
  | None => fault
  | Some FmtError => ret (-1)
  | Some (FmtOutput out) =>
      if INT_MAX <? size_of out then ret (-1)
      else if size =? 0 then ret (size_of out)
      else
        let w := take (Z.to_nat (size - 1)) out ++ [NUL] in
        let! _ := modify_chars str (fun d =>
                    if in_range d 0 (size_of w) then Some (overwrite d 0 w)
                    else None) in
        ret (size_of out)
  end.

Definition string_printf (str : option positive) (format : option formatted)
  : M Z :=
  match str with
  | None => ret (- EINVAL)
  | Some s =>
      let! meta := get_meta s in
      let! res := vsnprintf s (meta_capacity meta) format in
      let! _ := put_len s (if to_size res <? meta_capacity meta then to_size res
                           else to_size (meta_capacity meta - 1)) in
      ret res
  end.

(** *** Utility functions *)

(** Conversion to [ssize_t]. *)
Definition to_ssize (z : Z) : Z := (z + 2 ^ 63) mod 2 ^ 64 - 2 ^ 63.

Definition string_len (str : option positive) : M Z :=
  match str with
  | None => ret (- EINVAL)
  | Some s =>
      let! meta := get_meta s in
      ret (to_ssize (meta_len meta))
  end.

Definition string_capacity (str : option positive) : M Z :=
  match str with
  | None => ret (- EINVAL)
  | Some s =>
      let! meta := get_meta s in
      ret (to_ssize (meta_capacity meta))
  end.

Definition string_reserve (str : string_ref) (size : Z) : M (Z * string_ref) :=
  match str with
  | Ref (Some s) =>
      let size := to_size size in
      let! meta := get_meta s in
      if size <=? meta_capacity meta then ret (0, str)
      else
        let! (res, s) := set_string_capacity s size in
        ret (res, Ref (Some s))
  | _ => ret (- EINVAL, str)
  end.

Definition string_fit (str : string_ref) : M (Z * string_ref) :=
  match str with
  | Ref (Some s) =>
      let! meta := get_meta s in
      let! (res, s) := set_string_capacity s (to_size (meta_len meta + 1)) in
      ret (res, Ref (Some s))
  | _ => ret (- EINVAL, str)
  end.

(** *** The functions on strings and string literals *)

Definition string_dup_c (src : option (list byte)) : M (option positive) :=
  match src with
  | None => ret None
  | Some arr =>
      match strlen arr with
      | None => fault
      | Some len => sub_string arr 0 len
      end
  end.

Definition string_copy (dest : string_ref) (src : option positive)
  : M (Z * string_ref) :=
  match dest, src with
  | Ref (Some d), Some s =>
      let! meta := get_meta s in
      let! (res, d) := copy_string_at d (Inside s) (meta_len meta) in
      ret (res, Ref (Some d))
  | _, _ => ret (- EINVAL, dest)
  end.

Definition string_copy_c (dest : string_ref) (src : option (list byte))
  : M (Z * string_ref) :=
  match dest, src with
  | Ref (Some d), Some arr =>
      match strlen arr with
      | None => fault
      | Some len =>
          let! (res, d) := copy_string d arr len in
          ret (res, Ref (Some d))
      end
  | _, _ => ret (- EINVAL, dest)
  end.

Definition string_append (dest : string_ref) (src : option positive)
  : M (Z * string_ref) :=
  match dest, src with
  | Ref (Some d), Some s =>
      let! meta := get_meta s in
      let! (res, d) := append_string_at d (Inside s) (meta_len meta) in
      ret (res, Ref (Some d))
  | _, _ => ret (- EINVAL, dest)
  end.

Definition string_append_c (dest : string_ref) (src : option (list byte))
  : M (Z * string_ref) :=
  match dest, src with
  | Ref (Some d), Some arr =>
      match strlen arr with
      | None => fault
      | Some len =>
          let! (res, d) := append_string d arr len in
          ret (res, Ref (Some d))
      end
  | _, _ => ret (- EINVAL, dest)
  end.

Definition string_prepend (dest : string_ref) (src : option positive)
  : M (Z * string_ref) :=
  match dest, src with
  | Ref (Some d), Some s =>
      let! meta := get_meta s in
      let! (res, d) := prepend_string_at d (Inside s) (meta_len meta) in
      ret (res, Ref (Some d))
  | _, _ => ret (- EINVAL, dest)
  end.

Definition string_prepend_c (dest : string_ref) (src : option (list byte))
  : M (Z * string_ref) :=
  match dest, src with
  | Ref (Some d), Some arr =>
      match strlen arr with
      | None => fault
      | Some len =>
          let! (res, d) := prepend_string d arr len in
          ret (res, Ref (Some d))
      end
  | _, _ => ret (- EINVAL, dest)
  end.

(** ** The first variant of the library (src/libstrings.c)

    It shares [set_string_capacity], [set_string_length], [string_destroy],
    [string_len], [string_capacity], [string_reserve] and [string_fit] with
    the variant above; its [string_copy_v] and [string_cat_v] are
    [copy_string] and [append_string] written out in place, and so are its
    creation functions: [string_empty] records another capacity. *)
Module Legacy.

Definition string_empty : M (option positive) :=
  let! r := malloc (to_size (META_SIZE + 1)) in
  match r with
  | None => ret None
  | Some str =>
      let! _ := put_len str 0 in
      let! _ := put_capacity str 0 in
      let! _ := modify_chars str (fun d => store d 0 NUL) in
      ret (Some str)
  end.

Definition string_sub_v (src : option (list byte)) (start len : Z)
  : M (option positive) :=
  match src with
  | None => ret None
  | Some arr =>
      let start := to_uint start in
      let len := to_size len in
      let! r := malloc (to_size (META_SIZE + len + 1)) in
      match r with
      | None => ret None
      | Some str =>
          let! _ := put_len str len in
          let! _ := put_capacity str (to_size (len + 1)) in
          match advance arr start with
          | None => fault
          | Some from =>
              let! _ := modify_chars str (fun d => strncpy d 0 from len) in
              let! _ := modify_chars str (fun d => store d len NUL) in
              ret (Some str)
          end
      end
  end.

Definition string_dup (src : option positive) : M (option positive) :=
  match src with
  | None => ret None
  | Some s =>
      let! meta := get_meta s in
      string_sub_v (Some (chars meta)) 0 (meta_len meta)
  end.

Definition string_dup_c (src : option (list byte)) : M (option positive) :=
  match src with
  | None => ret None
  | Some arr =>
      match strlen arr with
      | None => fault
      | Some len => string_sub_v (Some arr) 0 len
      end
  end.

Definition string_dup_v (src : option (list byte)) (len : Z)
  : M (option positive) :=
  match src with
  | None => ret None
  | Some arr => string_sub_v (Some arr) 0 len
  end.

Definition string_copy_v (dest : string_ref) (src : option char_ptr) (len : Z)
  : M (Z * string_ref) :=
  match dest, src with
  | Ref (Some d), Some from =>
      let len := to_size len in
      let! (res, d) := set_string_length d len in
      if res <? 0 then ret (res, Ref (Some d))
      else
        let! _ := strncpy_at d 0 from len in
        let! _ := modify_chars d (fun c => store c len NUL) in
        ret (0, Ref (Some d))
  | _, _ => ret (- EINVAL, dest)
  end.

Definition string_copy (dest : string_ref) (src : option positive)
  : M (Z * string_ref) :=
  match dest, src with
  | Ref (Some _), Some s =>
      let! meta := get_meta s in
      string_copy_v dest (Some (Inside s)) (meta_len meta)
  | _, _ => ret (- EINVAL, dest)
  end.

Definition string_copy_c (dest : string_ref) (src : option (list byte))
  : M (Z * string_ref) :=
  match dest, src with
  | Ref (Some _), Some arr =>
      match strlen arr with
      | None => fault
      | Some len => string_copy_v dest (Some (Outside arr)) len
      end
  | _, _ => ret (- EINVAL, dest)
  end.

Definition string_cat_v (dest : string_ref) (src : option char_ptr) (len : Z)
  : M (Z * string_ref) :=
  match dest, src with
  | Ref (Some d), Some from =>
      let len := to_size len in
      let! meta := get_meta d in
      let cur_len := meta_len meta in
      let! (res, d) := set_string_length d (to_size (cur_len + len)) in
      if res <? 0 then ret (res, Ref (Some d))
      else
        let! _ := strncpy_at d cur_len from len in
        let! _ := modify_chars d (fun c => store c (to_size (cur_len + len)) NUL) in
        ret (0, Ref (Some d))
  | _, _ => ret (- EINVAL, dest)
  end.

Definition string_cat (dest : string_ref) (src : option positive)
  : M (Z * string_ref) :=
  match dest, src with
  | Ref (Some _), Some s =>
      let! meta := get_meta s in
      string_cat_v dest (Some (Inside s)) (meta_len meta)
  | _, _ => ret (- EINVAL, dest)
  end.

Definition string_cat_c (dest : string_ref) (src : option (list byte))
  : M (Z * string_ref) :=
  match dest, src with
  | Ref (Some _), Some arr =>
      match strlen arr with
      | None => fault
      | Some len => string_cat_v dest (Some (Outside arr)) len
      end
  | _, _ => ret (- EINVAL, dest)
  end.

End Legacy.

(** ** The variant with a [struct string] handle

    Here a string is a [struct string] holding the pointer [value] to the
    characters, with [struct meta] stored right before the struct; the
    characters are an allocation of their own.  A block of the heap stands for
    the header, the struct and the characters [value] points to, at the
    address of the struct, which never moves.  The functions that take a
    string as source ([string_copy], [string_append], [string_prepend]) are
    not embedded: they pass [src->value], and a block does not say where the
    characters are, so a source that is the destination cannot be followed
    through [realloc]. *)
Module Boxed.

(** [malloc (sizeof (struct meta) + sizeof (struct string))] *)
Definition malloc_header : M (option positive) :=
  fun st =>
    match next_reply st with
    | (AllocFail, st1) => Done None st1
    | (AllocOk _ _, st1) =>
        let p := fresh_addr (heap st1) in
        Done (Some p) (State (<[p := Block 0 0 []]> (heap st1)) (replies st1))
    end.

(** [str->value = calloc (n, sizeof (char))]: zero-filled characters; whether
    the allocation succeeded. *)
Definition calloc_value (str : positive) (n : Z) : M bool :=
  fun st =>
    match heap st !! str with
    | None => Fault
    | Some b =>
        match next_reply st with
        | (AllocFail, st1) => Done false st1
        | (AllocOk _ _, st1) =>
            let b' := Block (meta_len b) (meta_capacity b)
                        (replicate (Z.to_nat n) NUL) in
            Done true (State (<[str := b']> (heap st1)) (replies st1))
        end
    end.

Definition create_string (len : Z) : M (option positive) :=
  let! m := malloc_header in
  match m with
  | None => ret None
  | Some str =>
      let! ok := calloc_value str (to_size (len + 1)) in
      if ok then
        let! _ := put_len str len in
        let! _ := put_capacity str (to_size (len + 1)) in
        ret (Some str)
      else
        let! _ := free str in
        ret None
  end.

Definition sub_string (src : list byte) (start len : Z) : M (option positive) :=
  let! r := create_string len in
  match r with
  | None => ret None
  | Some str =>
      match advance src start with
      | None => fault
      | Some from =>
          let! _ := modify_chars str (fun d => strncpy d 0 from len) in
          ret (Some str)
      end
  end.

Definition string_empty : M (option positive) := create_string 0.

Definition string_dup (src : option positive) : M (option positive) :=
  match src with
  | None => ret None
  | Some s =>
      let! meta := get_meta s in
      sub_string (chars meta) 0 (meta_len meta)
  end.

Definition string_cut (str : option positive) (start len : Z) : M Z :=
  match str with
  | None => ret (- EINVAL)
  | Some s =>
      let start := to_uint start in
      let len := to_size len in
      let! meta := get_meta s in
      if meta_len meta <? to_size (start + len) then ret (- ERANGE)
      else
        let! _ := modify_chars s (fun d => memmove d 0 start len) in
        let! _ := modify_chars s (fun d => store d len NUL) in
        let! _ := put_len s len in
        ret 0
  end.

(** [realloc (str->value, n)]: whether it succeeded.  The characters are kept
    up to the new size, and the [struct string] itself stays where it is,
    wherever the characters go.  On a request of 0 bytes the characters are
    freed and a null pointer is returned, as for [realloc] above: [value]
    dangles from then on, which the empty storage stands for. *)
Definition realloc_value (str : positive) (n : Z) : M bool :=
  fun st =>
    match heap st !! str with
    | None => Fault
    | Some b =>
        if n =? 0
        then Done false (State (<[str := Block (meta_len b) (meta_capacity b) []]>
                                  (heap st)) (replies st))
        else
          match next_reply st with
          | (AllocFail, st1) => Done false st1
          | (AllocOk _ junk, st1) =>
              let b' := Block (meta_len b) (meta_capacity b)
                          (realloc_bytes (chars b) (Z.to_nat n) junk) in
              Done true (State (<[str := b']> (heap st1)) (replies st1))
          end
    end.

Definition set_string_capacity (str : positive) (capacity : Z) : M Z :=
  let! ok := realloc_value str capacity in
  if ok then
    let! _ := put_capacity str capacity in
    ret 0
  else ret (- ENOMEM).

Definition set_string_length (str : positive) (len : Z) : M Z :=
  let! meta := get_meta str in
  let! res :=
    (if meta_capacity meta <? to_size (len + 1)
     then set_string_capacity str (to_size (len * 2 + 1))
     else ret 0) in
  if res <? 0 then ret res
  else
    let! _ := put_len str len in
    ret 0.

Definition copy_string (dest : positive) (src : list byte) (len : Z) : M Z :=
  let! res := set_string_length dest len in
  if res <? 0 then ret res
  else
    let! _ := modify_chars dest (fun d => strncpy d 0 src len) in
    let! _ := modify_chars dest (fun d => store d len NUL) in
    ret 0.

Definition append_string (dest : positive) (src : list byte) (len : Z) : M Z :=
  let! meta := get_meta dest in
  let cur_len := meta_len meta in
  let! res := set_string_length dest (to_size (cur_len + len)) in
  if res <? 0 then ret res
  else
    let! _ := modify_chars dest (fun d => strncpy d cur_len src len) in
    let! _ := modify_chars dest (fun d => store d (to_size (cur_len + len)) NUL) in
    ret 0.

Definition prepend_string (dest : positive) (src : list byte) (len : Z) : M Z :=
  let! meta := get_meta dest in
  let cur_len := meta_len meta in
  let! res := set_string_length dest (to_size (cur_len + len)) in
  if res <? 0 then ret res
  else
    let! _ := modify_chars dest (fun d => memmove d len 0 cur_len) in
    let! _ := modify_chars dest (fun d => strncpy d 0 src len) in
    let! _ := modify_chars dest (fun d => store d (to_size (cur_len + len)) NUL) in
    ret 0.

Definition string_dup_c (src : option (list byte)) : M (option positive) :=
  match src with
  | None => ret None
  | Some arr =>
      match strlen arr with
      | None => fault
      | Some len => sub_string arr 0 len
      end
  end.

Definition string_dup_v (src : option (list byte)) (len : Z)
  : M (option positive) :=
  match src with
  | None => ret None
  | Some arr => sub_string arr 0 (to_size len)
  end.

Definition string_sub_v (src : option (list byte)) (start len : Z)
  : M (option positive) :=
  match src with
  | None => ret None
  | Some arr => sub_string arr (to_uint start) (to_size len)
  end.

(** [free (str->value); free (string_to_meta (str))] *)
Definition string_destroy (str : option positive) : M unit :=
  match str with
  | None => ret tt
  | Some s => free s
  end.

Definition string_clear (str : option positive) : M Z :=
  match str with
  | None => ret (- EINVAL)
  | Some s =>
      let! _ := put_len s 0 in
      let! _ := modify_chars s (fun d => store d 0 NUL) in
      ret 0
  end.

Definition string_copy_c (dest : option positive) (src : option (list byte))
  : M Z :=
  match dest, src with
  | Some d, Some arr =>
      match strlen arr with
      | None => fault
      | Some len => copy_string d arr len
      end
  | _, _ => ret (- EINVAL)
  end.

Definition string_copy_v (dest : option positive) (src : option (list byte))
    (len : Z) : M Z :=
  match dest, src with
  | Some d, Some arr => copy_string d arr (to_size len)
  | _, _ => ret (- EINVAL)
  end.

Definition string_append_c (dest : option positive) (src : option (list byte))
  : M Z :=
  match dest, src with
  | Some d, Some arr =>
      match strlen arr with
      | None => fault
      | Some len => append_string d arr len
      end
  | _, _ => ret (- EINVAL)
  end.

Definition string_append_v (dest : option positive) (src : option (list byte))
    (len : Z) : M Z :=
  match dest, src with
  | Some d, Some arr => append_string d arr (to_size len)
  | _, _ => ret (- EINVAL)
  end.

Definition string_prepend_c (dest : option positive) (src : option (list byte))
  : M Z :=
  match dest, src with
  | Some d, Some arr =>
      match strlen arr with
      | None => fault
      | Some len => prepend_string d arr len
      end
  | _, _ => ret (- EINVAL)
  end.

Definition string_prepend_v (dest : option positive) (src : option (list byte))
    (len : Z) : M Z :=
  match dest, src with
  | Some d, Some arr => prepend_string d arr (to_size len)
  | _, _ => ret (- EINVAL)
  end.

(** Here a NULL [format] is refused before [vsnprintf] is called. *)
Definition string_printf (str : option positive) (format : option formatted)
  : M Z :=
  match str, format with
  | Some s, Some f =>
      let! meta := get_meta s in
      let! res := vsnprintf s (meta_capacity meta) (Some f) in
      let! _ := put_len s (if to_size res <? meta_capacity meta then to_size res
                           else to_size (meta_capacity meta - 1)) in
      ret res
  | _, _ => ret (- EINVAL)
  end.

Definition string_len (str : option positive) : M Z :=
  match str with
  | None => ret (- EINVAL)
  | Some s =>
      let! meta := get_meta s in
      ret (to_ssize (meta_len meta))
  end.

Definition string_capacity (str : option positive) : M Z :=
  match str with
  | None => ret (- EINVAL)
  | Some s =>
      let! meta := get_meta s in
      ret (to_ssize (meta_capacity meta))
  end.

Definition string_reserve (str : option positive) (size : Z) : M Z :=
  match str with
  | None => ret (- EINVAL)
  | Some s =>
      let size := to_size size in
      let! meta := get_meta s in
      if size <=? meta_capacity meta then ret 0
      else set_string_capacity s size
  end.

Definition string_fit (str : option positive) : M Z :=
  match str with
  | None => ret (- EINVAL)
  | Some s =>
      let! meta := get_meta s in
      set_string_capacity s (to_size (meta_len meta + 1))
  end.

(** The invariants of a string of this variant: the characters are an
    allocation of their own, without header. *)
Definition valid (b : block) : Prop :=
  0 <= meta_len b /\
  meta_len b + 1 <= meta_capacity b /\
  meta_capacity b <= size_of (chars b) /\
  size_of (chars b) <= SIZE_MAX /\
  chars b !! Z.to_nat (meta_len b) = Some NUL.

End Boxed.

(** ** Valid strings and their content *)

(** The characters of the string: the first [len] bytes of the storage. *)
Definition content (b : block) : list byte := take (Z.to_nat (meta_len b)) (chars b).

(** The two invariants of a string, [capacity >= length + 1] and
    [bytes[length] == 0], over a header that describes the allocation: the
    capacity is no more than the storage really held, and the allocation with
    its header fits the address space. *)
Definition valid (b : block) : Prop :=
  0 <= meta_len b /\
  meta_len b + 1 <= meta_capacity b /\
  meta_capacity b <= size_of (chars b) /\
  META_SIZE + size_of (chars b) <= SIZE_MAX /\
  chars b !! Z.to_nat (meta_len b) = Some NUL.

(** ** The public mutating operations, as one family *)

Inductive mutation : Type :=
| Copy (src : list byte) (len : Z)
| Append (src : list byte) (len : Z)
| Prepend (src : list byte) (len : Z)
| Cut (start len : Z)
| Clear
| Printf (format : formatted)
| Reserve (size : Z)
| Fit.

Definition target (r : string_ref) : option positive :=
  match r with
  | NullRef => None
  | Ref s => s
  end.

(** The call of the operation on the string [str]; the result is the return
    value and the string as the caller holds it afterwards. *)
Definition mutate (m : mutation) (str : positive) : M (Z * option positive) :=
  match m with
  | Copy src len =>
      let! (res, r) := string_copy_v (Ref (Some str)) (Some src) len in
      ret (res, target r)
  | Append src len =>
      let! (res, r) := string_append_v (Ref (Some str)) (Some src) len in
      ret (res, target r)
  | Prepend src len =>
      let! (res, r) := string_prepend_v (Ref (Some str)) (Some src) len in
      ret (res, target r)
  | Cut start len =>
      let! (res, r) := string_cut (Ref (Some str)) start len in
      ret (res, target r)
  | Clear =>
      let! res := string_clear (Some str) in
      ret (res, Some str)
  | Printf format =>
      let! res := string_printf (Some str) (Some format) in
      ret (res, Some str)
  | Reserve size =>
      let! (res, r) := string_reserve (Ref (Some str)) size in
      ret (res, target r)
  | Fit =>
      let! (res, r) := string_fit (Ref (Some str)) in
      ret (res, target r)
  end.

(** The same family in the variant with a [struct string]: the string stays
    at its address, so the result is the return value alone. *)
Definition mutate_boxed (m : mutation) (str : positive) : M Z :=
  match m with
  | Copy src len => Boxed.string_copy_v (Some str) (Some src) len
  | Append src len => Boxed.string_append_v (Some str) (Some src) len
  | Prepend src len => Boxed.string_prepend_v (Some str) (Some src) len
  | Cut start len => Boxed.string_cut (Some str) start len
  | Clear => Boxed.string_clear (Some str)
  | Printf format => Boxed.string_printf (Some str) (Some format)
  | Reserve size => Boxed.string_reserve (Some str) size
  | Fit => Boxed.string_fit (Some str)
  end.

(** ** Walk-through of the README *)

Definition bytes_of (s : string) : list byte := list_byte_of_string s.

Definition run {A : Type} (m : M A) (st : state) : option (A * state) :=
  match m st with
  | Fault => None
  | Done r st1 => Some (r, st1)
  end.

Definition empty_state : state := State ∅ [].

Definition readme : M (list (list byte * Z * Z)) :=
  let show (s : positive) : M (list byte * Z * Z) :=
    let! b := get_meta s in ret (content b, meta_len b, meta_capacity b) in
  let! s := string_empty in
  match s with
  | None => fault
  | Some s =>
      let! l0 := show s in
      let! (_, s1) := mutate (Copy (bytes_of "world") 5) s in
      match s1 with None => fault | Some s1 =>
      let! l1 := show s1 in
      let! (_, s2) := mutate (Append (bytes_of "!") 1) s1 in
      match s2 with None => fault | Some s2 =>
      let! l2 := show s2 in
      let! (_, s3) := mutate (Prepend (bytes_of "Hello ") 6) s2 in
      match s3 with None => fault | Some s3 =>
      let! l3 := show s3 in
      ret [l0; l1; l2; l3]
      end end end
  end.

(** ** Vocabulary of the proofs *)

(** [st'] is [st] with the string at [s] replaced by the block [b'] at [s'],
    where [s'] is [s] or an address that was free. *)
Definition replaced (st st' : state) (s s' : positive) (b' : block) : Prop :=
  (s' = s \/ heap st !! s' = None) /\
  heap st' = <[s' := b']> (delete s (heap st)).

(** What [realloc] keeps: [d'] holds [n] bytes and agrees with [d] on every
    prefix that fits both. *)
Definition resized (d d' : list byte) (n : Z) : Prop :=
  size_of d' = n /\
  forall k : nat, (k <= length d)%nat -> (k <= length d')%nat -> take k d' = take k d.

(** The header describes the allocation: the capacity is within the storage
    held, which fits the address space together with the header. *)
Definition describes (b : block) : Prop :=
  meta_capacity b <= size_of (chars b) /\ META_SIZE + size_of (chars b) <= SIZE_MAX.

(** The same for characters that are an allocation of their own. *)
Definition describes_value (b : block) : Prop :=
  meta_capacity b <= size_of (chars b) /\ size_of (chars b) <= SIZE_MAX.

(** The two [string_empty] functions differ by the capacity they record. *)
Definition empty_recording (capacity : Z) : M (option positive) :=
  let! r := malloc (to_size (META_SIZE + 1)) in
  match r with
  | None => ret None
  | Some str =>
      let! _ := put_len str 0 in
      let! _ := put_capacity str capacity in
      let! _ := modify_chars str (fun d => store d 0 NUL) in
      ret (Some str)
  end.

(** The C string held in an array: its bytes before the first NUL. *)
Fixpoint until_nul (l : list byte) : list byte :=
  match l with
  | [] => []
  | c :: l' => if Byte.eqb c NUL then [] else c :: until_nul l'
  end.

(** ** Strings used in the examples *)

(** The string ["hello"] in storage of exactly six bytes. *)
Definition hello : block := Block 5 6 (bytes_of "hello" ++ [NUL]).

Definition hello_state : state := State {[ 1%positive := hello ]} [].

(** An empty string after [string_reserve (&str, 32)]. *)
Definition reserved_32 : state := State {[ 1%positive := Block 0 32 (replicate 32 NUL) ]} [].

(** ["hello"] when the next allocation fails. *)
Definition hello_no_memory : state := State {[ 1%positive := hello ]} [AllocFail].

(** ["hello"] in storage of eleven bytes. *)
Definition hello_roomy : state :=
  State {[ 1%positive := Block 5 11 (bytes_of "hello" ++ replicate 6 NUL) ]} [].

(** The memory after ["oh"] is prepended to ["hello"] inside the storage
    already held (the source and destination ranges of the move overlap), and
    after the string is cut back. *)
Definition after_prepend : state := Eval vm_compute in
    match string_prepend_v (Ref (Some 1%positive)) (Some (bytes_of "oh")) 2 hello_roomy with
    | Done _ st => st
    | Fault => empty_state
    end.

Definition after_cut : state := Eval vm_compute in
    match string_cut (Ref (Some 1%positive)) 2 5 after_prepend with
    | Done _ st => st
    | Fault => empty_state
    end.

(** A byte-by-byte forward copy inside one array, the move that [memmove]
    is not. *)
Fixpoint forward_copy (d : list byte) (dst src : nat) (n : nat) : list byte :=
  match n with
  | O => d
  | S n' =>
      match d !! src with
      | Some c => forward_copy (<[dst := c]> d) (S dst) (S src) n'
      | None => d
      end
  end.

(** The string ["B"] in storage that has room for [n] more characters, and
    a source array of [n] characters ['A']. *)
Definition roomy_block (n : Z) : block :=
  Block 1 (n + 2) (bytes_of "B" ++ replicate (Z.to_nat (n + 1)) NUL).

Definition roomy_state (n : Z) : state := State {[ 1%positive := roomy_block n ]} [].

Definition long_prefix (n : Z) : list byte := replicate (Z.to_nat n) "A"%byte.

(** A string whose content holds a NUL byte. *)
Definition nul_inside : block := Block 3 4 ["a"%byte; NUL; "b"%byte; NUL].

(** The memory a call leaves (the empty memory after a fault). *)
Definition state_after {A : Type} (o : outcome A) : state :=
  match o with
  | Done _ st => st
  | Fault => empty_state
  end.

(** ["hello"] and ["world"] as two strings of one heap. *)
Definition world : block := Block 5 6 (bytes_of "world" ++ [NUL]).

Definition two_strings : state :=
  State {[ 1%positive := hello; 2%positive := world ]} [].

(** The operations that go through [set_string_length]. *)
Definition resizes (m : mutation) : Prop :=
  match m with
  | Copy _ _ | Append _ _ | Prepend _ _ => True
  | _ => False
  end.

(** * Properties *)

(** ** Machine arithmetic *)

Lemma to_size_range z : 0 <= to_size z <= SIZE_MAX.
Proof.
  unfold to_size, SIZE_MAX.
  pose proof (Z.mod_pos_bound z (2 ^ 64) eq_refl). lia.
Qed.

Lemma to_size_small z : 0 <= z <= SIZE_MAX -> to_size z = z.
Proof. unfold to_size, SIZE_MAX. intros. apply Z.mod_small. lia. Qed.

Lemma to_uint_range z : 0 <= to_uint z <= UINT_MAX.
Proof.
  unfold to_uint, UINT_MAX.
  pose proof (Z.mod_pos_bound z (2 ^ 32) eq_refl). lia.
Qed.

Lemma to_uint_small z : 0 <= z <= UINT_MAX -> to_uint z = z.
Proof. unfold to_uint, UINT_MAX. intros. apply Z.mod_small. lia. Qed.

(** A [size_t] sum that exceeds [SIZE_MAX] comes back smaller than its
    operands. *)
Lemma to_size_wrapped a b :
  0 <= a <= SIZE_MAX -> 0 <= b <= SIZE_MAX -> SIZE_MAX < a + b ->
  to_size (a + b) = a + b - 2 ^ 64.
Proof.
  unfold to_size, SIZE_MAX. intros.
  symmetry. apply (Z.mod_unique (a + b) (2 ^ 64) 1); lia.
Qed.

(** ** Character storage *)

Lemma in_range_spec d off n :
  in_range d off n = true <-> 0 <= off /\ 0 <= n /\ off + n <= size_of d.
Proof. unfold in_range. rewrite !andb_true_iff, !Z.leb_le. tauto. Qed.

Lemma size_of_nonneg d : 0 <= size_of d.
Proof. unfold size_of. lia. Qed.

Section Overwrite.

Variables (d bs : list byte) (off : Z).
Hypothesis fits : in_range d off (size_of bs) = true.

Lemma fits_nat : (Z.to_nat off + length bs <= length d)%nat.
Proof. apply in_range_spec in fits. unfold size_of in fits. lia. Qed.

Lemma overwrite_length : length (overwrite d off bs) = length d.
Proof.
  pose proof fits_nat as Hfit.
  unfold overwrite. rewrite !length_app, length_take, length_drop. lia.
Qed.

Lemma overwrite_size : size_of (overwrite d off bs) = size_of d.
Proof. unfold size_of. now rewrite overwrite_length. Qed.

Lemma take_overwrite_before (k : nat) :
  (k <= Z.to_nat off)%nat -> take k (overwrite d off bs) = take k d.
Proof.
  pose proof fits_nat as Hfit.
  intros Hk. unfold overwrite.
  rewrite take_app_le by (rewrite length_take; lia).
  rewrite take_take. f_equal. lia.
Qed.

Lemma take_overwrite_through :
  take (Z.to_nat off + length bs) (overwrite d off bs)
  = take (Z.to_nat off) d ++ bs.
Proof.
  pose proof fits_nat as Hfit.
  unfold overwrite. rewrite app_assoc.
  apply take_app_length'. rewrite length_app, length_take. lia.
Qed.

Lemma lookup_overwrite_inside (i : nat) :
  (i < length bs)%nat -> overwrite d off bs !! (Z.to_nat off + i)%nat = bs !! i.
Proof.
  pose proof fits_nat as Hfit.
  intros Hi. unfold overwrite.
  rewrite lookup_app_r by (rewrite length_take; lia).
  rewrite length_take.
  replace (Z.to_nat off + i - Z.to_nat off `min` length d)%nat with i by lia.
  now apply lookup_app_l.
Qed.

End Overwrite.

Lemma overwrite_at_0 d bs : overwrite d 0 bs = bs ++ drop (length bs) d.
Proof. unfold overwrite. reflexivity. Qed.

Lemma store_Some d i c d' :
  store d i c = Some d' ->
  0 <= i < size_of d /\ in_range d i (size_of [c]) = true /\ d' = overwrite d i [c].
Proof.
  unfold store. destruct (in_range d i 1) eqn:E; [|discriminate].
  intros [= <-]. pose proof E as E'. apply in_range_spec in E'.
  repeat split; try lia. exact E.
Qed.

Lemma store_size d i c d' : store d i c = Some d' -> size_of d' = size_of d.
Proof. intros (_ & F & ->)%store_Some. now apply overwrite_size. Qed.

Lemma store_lookup d i c d' :
  store d i c = Some d' -> d' !! Z.to_nat i = Some c.
Proof.
  intros (_ & F & ->)%store_Some.
  replace (Z.to_nat i) with (Z.to_nat i + 0)%nat by lia.
  now rewrite lookup_overwrite_inside by (auto; simpl; lia).
Qed.

Lemma store_take d i c d' (k : nat) :
  store d i c = Some d' -> (k <= Z.to_nat i)%nat -> take k d' = take k d.
Proof. intros (_ & F & ->)%store_Some. now apply take_overwrite_before. Qed.

Lemma memmove_Some d dst src n d' :
  memmove d dst src n = Some d' ->
  in_range d src n = true /\ in_range d dst n = true /\
  length (take (Z.to_nat n) (drop (Z.to_nat src) d)) = Z.to_nat n /\
  d' = overwrite d dst (take (Z.to_nat n) (drop (Z.to_nat src) d)).
Proof.
  unfold memmove.
  destruct (in_range d src n) eqn:Es, (in_range d dst n) eqn:Ed; try discriminate.
  intros [= <-]. repeat split.
  apply in_range_spec in Es. unfold size_of in Es.
  rewrite length_take, length_drop. lia.
Qed.

Lemma strncpy_bytes_length src n bs :
  strncpy_bytes src n = Some bs -> length bs = n.
Proof.
  revert src bs. induction n as [|n IH]; intros src bs; simpl.
  - now intros [= <-].
  - destruct src as [|c src]; [discriminate|].
    destruct (Byte.eqb c NUL).
    + intros [= <-]. simpl. now rewrite length_replicate.
    + destruct (strncpy_bytes src n) as [bs'|] eqn:E; [|discriminate].
      intros [= <-]. simpl. f_equal. eauto.
Qed.

(** A source without NUL among its first [n] characters is copied as it is. *)
Lemma strncpy_bytes_no_nul src n :
  (n <= length src)%nat -> Forall (fun c => c <> NUL) (take n src) ->
  strncpy_bytes src n = Some (take n src).
Proof.
  revert src. induction n as [|n IH]; intros src Hn Hall; [now destruct src|].
  destruct src as [|c src]; simpl in *; [lia|].
  apply Forall_cons in Hall as [Hc Hall].
  destruct (Byte.eqb c NUL) eqn:E.
  - now apply Byte.byte_dec_bl in E.
  - rewrite IH by (auto; lia). reflexivity.
Qed.

Lemma strncpy_Some d dst src n d' :
  strncpy d dst src n = Some d' ->
  exists bs, strncpy_bytes src (Z.to_nat n) = Some bs /\
             length bs = Z.to_nat n /\ 0 <= n /\
             in_range d dst (size_of bs) = true /\ d' = overwrite d dst bs.
Proof.
  unfold strncpy. destruct (in_range d dst n) eqn:E; [|discriminate].
  destruct (strncpy_bytes src (Z.to_nat n)) as [bs|] eqn:Eb; [|discriminate].
  intros [= <-]. exists bs. pose proof (strncpy_bytes_length _ _ _ Eb) as Hl.
  pose proof E as E'. apply in_range_spec in E'.
  repeat split; auto; try lia.
  unfold size_of. rewrite Hl, Z2Nat.id by lia. exact E.
Qed.

Lemma realloc_bytes_length d n junk : length (realloc_bytes d n junk) = n.
Proof.
  unfold realloc_bytes.
  rewrite length_take, !length_app, length_replicate. lia.
Qed.

Lemma realloc_bytes_size d n junk : size_of (realloc_bytes d (Z.to_nat n) junk) = Z.max 0 n.
Proof. unfold size_of. rewrite realloc_bytes_length. lia. Qed.

Lemma realloc_bytes_take d n junk (k : nat) :
  (k <= n)%nat -> (k <= length d)%nat ->
  take k (realloc_bytes d n junk) = take k d.
Proof.
  intros Hn Hd. unfold realloc_bytes.
  rewrite take_take, take_app_le by lia. f_equal. lia.
Qed.

(** ** Calls *)

Lemma bind_Done {A B : Type} (m : M A) (k : A -> M B) st r st' :
  bind m k st = Done r st' ->
  exists x st1, m st = Done x st1 /\ k x st1 = Done r st'.
Proof. unfold bind. destruct (m st) as [|x st1]; [discriminate|]. eauto. Qed.

Lemma ret_Done {A : Type} (x : A) st r st' :
  ret x st = Done r st' -> r = x /\ st' = st.
Proof. unfold ret. now intros [= <- <-]. Qed.

Lemma get_meta_Done p st b st' :
  get_meta p st = Done b st' -> st' = st /\ heap st !! p = Some b.
Proof. unfold get_meta. destruct (heap st !! p); [|discriminate]. now intros [= <- <-]. Qed.

Lemma set_block_Done p b st u st' :
  set_block p b st = Done u st' -> st' = State (<[p := b]> (heap st)) (replies st).
Proof. unfold set_block. now intros [= _ <-]. Qed.

Lemma put_len_Done p v st u st' :
  put_len p v st = Done u st' ->
  exists b, heap st !! p = Some b /\
            st' = State (<[p := Block v (meta_capacity b) (chars b)]> (heap st)) (replies st).
Proof.
  unfold put_len. intros (b & st1 & [-> Hb]%get_meta_Done & ->%set_block_Done)%bind_Done.
  eauto.
Qed.

Lemma put_capacity_Done p v st u st' :
  put_capacity p v st = Done u st' ->
  exists b, heap st !! p = Some b /\
            st' = State (<[p := Block (meta_len b) v (chars b)]> (heap st)) (replies st).
Proof.
  unfold put_capacity. intros (b & st1 & [-> Hb]%get_meta_Done & ->%set_block_Done)%bind_Done.
  eauto.
Qed.

Lemma modify_chars_Done p f st u st' :
  modify_chars p f st = Done u st' ->
  exists b d, heap st !! p = Some b /\ f (chars b) = Some d /\
              st' = State (<[p := Block (meta_len b) (meta_capacity b) d]> (heap st)) (replies st).
Proof.
  unfold modify_chars. intros (b & st1 & [-> Hb]%get_meta_Done & H)%bind_Done.
  destruct (f (chars b)) as [d|] eqn:E; [|discriminate].
  apply set_block_Done in H. exists b, d. auto.
Qed.

(** ** The allocator *)

Lemma fresh_addr_above (h : gmap positive block) p b :
  h !! p = Some b -> (p < fresh_addr h)%positive.
Proof.
  unfold fresh_addr. revert p b.
  apply (map_fold_weak_ind
           (fun r (h : gmap positive block) =>
              forall p b, h !! p = Some b -> (p < Pos.succ r)%positive)).
  - intros p b. now rewrite lookup_empty.
  - intros i x m r Hi IH p b.
    rewrite lookup_insert. destruct (decide (i = p)) as [->|Hne].
    + intros _. lia.
    + intros Hp%IH. lia.
Qed.

Lemma fresh_addr_fresh (h : gmap positive block) : h !! fresh_addr h = None.
Proof.
  destruct (h !! fresh_addr h) as [b|] eqn:E; [|reflexivity].
  apply fresh_addr_above in E. lia.
Qed.

Lemma next_reply_heap st r st1 : next_reply st = (r, st1) -> heap st1 = heap st.
Proof.
  unfold next_reply. destruct (replies st); now intros [= <- <-].
Qed.

Lemma replaced_lookup st st' s s' b' :
  replaced st st' s s' b' -> heap st' !! s' = Some b'.
Proof. intros [_ ->]. apply lookup_insert_eq. Qed.

(** The other strings of the heap stay where and as they are. *)
Lemma replaced_frame st st' s s' b' q c :
  replaced st st' s s' b' -> q <> s -> heap st !! q = Some c ->
  heap st' !! q = Some c.
Proof.
  intros [Hs ->] Hq Hc.
  rewrite lookup_insert_ne, lookup_delete_ne; auto.
  destruct Hs as [->|Hs]; congruence.
Qed.

Lemma replaced_in_place st s b b' rs :
  heap st !! s = Some b ->
  replaced st (State (<[s := b']> (heap st)) rs) s s b'.
Proof.
  intros Hb. split; [now left|]. simpl. now rewrite insert_delete_eq.
Qed.

Lemma replaced_trans st st1 st2 s s1 s2 b1 b2 :
  replaced st st1 s s1 b1 -> replaced st1 st2 s1 s2 b2 ->
  replaced st st2 s s2 b2.
Proof.
  intros [Hs1 H1] [Hs2 H2]. split.
  - destruct Hs2 as [->|Hs2]; [exact Hs1|].
    rewrite H1 in Hs2.
    destruct (decide (s2 = s1)) as [->|Hne]; [now rewrite lookup_insert_eq in Hs2|].
    rewrite lookup_insert_ne in Hs2 by auto.
    destruct (decide (s2 = s)) as [->|Hne']; [now left|].
    rewrite lookup_delete_ne in Hs2 by auto. now right.
  - rewrite H2, H1. rewrite delete_insert_eq. f_equal.
    destruct Hs1 as [->|Hs1]; [now rewrite delete_delete_eq|].
    apply delete_id. rewrite lookup_delete. now case_decide.
Qed.

Lemma resized_lookup d d' n (i : nat) :
  resized d d' n -> (i < length d)%nat -> (i < length d')%nat -> d' !! i = d !! i.
Proof.
  intros [_ H] Hd Hd'.
  rewrite <- (lookup_take_lt d' (S i)), <- (lookup_take_lt d (S i)) by lia.
  rewrite H by lia. reflexivity.
Qed.

Lemma realloc_bytes_resized d n junk :
  0 <= n -> resized d (realloc_bytes d (Z.to_nat n) junk) n.
Proof.
  intros Hn. split.
  - rewrite realloc_bytes_size. lia.
  - intros k Hk Hk'. rewrite realloc_bytes_length in Hk'.
    now apply realloc_bytes_take.
Qed.

Lemma realloc_Done p total st r st' :
  total <> 0 ->
  realloc p total st = Done r st' ->
  exists b, heap st !! p = Some b /\
    ((r = None /\ heap st' = heap st) \/
     (exists p' d', r = Some p' /\ META_SIZE <= total /\
        resized (chars b) d' (total - META_SIZE) /\
        replaced st st' p p' (Block (meta_len b) (meta_capacity b) d'))).
Proof.
  intros Hnz.
  unfold realloc. destruct (heap st !! p) as [b|] eqn:Hb; [|discriminate].
  destruct (total =? 0) eqn:Hz; [apply Z.eqb_eq in Hz; contradiction|].
  destruct (next_reply st) as [[|moved junk] st1] eqn:Hn;
    pose proof (next_reply_heap _ _ _ Hn) as Hh.
  - intros [= <- <-]. exists b. split; auto.
  - destruct (total <? META_SIZE) eqn:Ht; [discriminate|].
    apply Z.ltb_ge in Ht. intros [= <- <-]. exists b. split; auto. right.
    eexists _, _. split; [reflexivity|]. split; [exact Ht|]. split.
    + apply realloc_bytes_resized. lia.
    + split; simpl; rewrite Hh; [|reflexivity].
      destruct moved; [right; apply fresh_addr_fresh | now left].
Qed.

Lemma malloc_Done total st r st' :
  malloc total st = Done r st' ->
  (r = None /\ heap st' = heap st) \/
  (exists p d, r = Some p /\ META_SIZE <= total /\
     size_of d = total - META_SIZE /\ heap st !! p = None /\
     heap st' = <[p := Block 0 0 d]> (heap st)).
Proof.
  unfold malloc.
  destruct (next_reply st) as [[|moved junk] st1] eqn:Hn;
    pose proof (next_reply_heap _ _ _ Hn) as Hh.
  - intros [= <- <-]. now left.
  - destruct (total <? META_SIZE) eqn:Ht; [discriminate|].
    apply Z.ltb_ge in Ht. intros [= <- <-]. right.
    eexists _, _. split; [reflexivity|]. split; [exact Ht|]. simpl.
    rewrite Hh. repeat split.
    + rewrite realloc_bytes_size. lia.
    + apply fresh_addr_fresh.
Qed.

(** A request of 0 bytes releases the object. *)
Lemma realloc_zero p st b :
  heap st !! p = Some b ->
  realloc p 0 st = Done None (State (delete p (heap st)) (replies st)).
Proof. intros Hb. unfold realloc. now rewrite Hb. Qed.

(** The doubled capacity is odd, so that its request is never of 0 bytes. *)
Lemma doubled_request_nonzero len : to_size (META_SIZE + to_size (len * 2 + 1)) <> 0.
Proof.
  unfold to_size, META_SIZE.
  pose proof (Z.div_mod (len * 2 + 1) (2 ^ 64) ltac:(lia)) as H1.
  pose proof (Z.div_mod (16 + (len * 2 + 1) mod 2 ^ 64) (2 ^ 64) ltac:(lia)) as H2.
  intros H0. rewrite H0 in H2. lia.
Qed.

Lemma doubled_nonzero len : to_size (len * 2 + 1) <> 0.
Proof.
  unfold to_size.
  pose proof (Z.div_mod (len * 2 + 1) (2 ^ 64) ltac:(lia)) as H1.
  intros H0. rewrite H0 in H1. lia.
Qed.

(** A request of [META_SIZE + capacity] bytes that does not wrap around. *)
Lemma header_fits capacity :
  0 <= capacity <= SIZE_MAX -> META_SIZE <= to_size (META_SIZE + capacity) ->
  META_SIZE + capacity <= SIZE_MAX /\
  to_size (META_SIZE + capacity) - META_SIZE = capacity.
Proof.
  intros Hc Hm. destruct (Z_le_gt_dec (META_SIZE + capacity) SIZE_MAX) as [Hle|Hgt].
  - rewrite to_size_small; unfold META_SIZE in *; lia.
  - rewrite to_size_wrapped in Hm; unfold META_SIZE, SIZE_MAX in *; lia.
Qed.

(** ** Static functions *)

Lemma set_string_capacity_Done str capacity st res str' st' :
  0 <= capacity <= SIZE_MAX -> to_size (META_SIZE + capacity) <> 0 ->
  set_string_capacity str capacity st = Done (res, str') st' ->
  exists b, heap st !! str = Some b /\
    ((res = - ENOMEM /\ str' = str /\ heap st' = heap st) \/
     (res = 0 /\ META_SIZE + capacity <= SIZE_MAX /\
      exists d', resized (chars b) d' capacity /\
                 replaced st st' str str' (Block (meta_len b) capacity d'))).
Proof.
  intros Hc Hnz. unfold set_string_capacity.
  intros (r & st1 & (b & Hb & Hr)%realloc_Done & Hk)%bind_Done; [|exact Hnz].
  exists b. split; [exact Hb|].
  destruct Hr as [[-> Hh]|(p' & d' & -> & Ht & Hd & Hrep)].
  - apply ret_Done in Hk as [[= <- <-] ->]. now left.
  - apply bind_Done in Hk as (u & st2 & (b1 & Hb1 & ->)%put_capacity_Done & [[= <- <-] ->]%ret_Done).
    right. destruct (header_fits capacity Hc Ht) as [Hfit Heq].
    rewrite Heq in Hd.
    rewrite (replaced_lookup _ _ _ _ _ Hrep) in Hb1. injection Hb1 as <-. simpl.
    split; [reflexivity|]. split; [exact Hfit|]. exists d'. split; [exact Hd|].
    eapply replaced_trans; [exact Hrep|].
    apply replaced_in_place with (b := Block (meta_len b) (meta_capacity b) d').
    now apply replaced_lookup in Hrep.
Qed.

(** When [META_SIZE + capacity] wraps around to 0, the string is released and
    the call reports [-ENOMEM]. *)
Lemma set_string_capacity_zero str capacity st b :
  heap st !! str = Some b -> to_size (META_SIZE + capacity) = 0 ->
  set_string_capacity str capacity st
  = Done (- ENOMEM, str) (State (delete str (heap st)) (replies st)).
Proof.
  intros Hb Hz. unfold set_string_capacity, bind.
  now rewrite Hz, (realloc_zero _ _ _ Hb).
Qed.

Lemma set_string_length_Done str len st res str' st' :
  set_string_length str len st = Done (res, str') st' ->
  exists b, heap st !! str = Some b /\
    ((res = - ENOMEM /\ str' = str /\ heap st' = heap st /\
      meta_capacity b < to_size (len + 1)) \/
     (res = 0 /\ exists cap' d',
        replaced st st' str str' (Block len cap' d') /\
        ((to_size (len + 1) <= meta_capacity b /\
          cap' = meta_capacity b /\ d' = chars b) \/
         (meta_capacity b < to_size (len + 1) /\ cap' = to_size (len * 2 + 1) /\
          META_SIZE + cap' <= SIZE_MAX /\ resized (chars b) d' cap')))).
Proof.
  unfold set_string_length.
  intros (b & st0 & [-> Hb]%get_meta_Done & ([res1 str1] & st1 & Hgrow & Hk)%bind_Done)%bind_Done.
  exists b. split; [exact Hb|].
  destruct (meta_capacity b <? to_size (len + 1)) eqn:Hcmp.
  - apply Z.ltb_lt in Hcmp.
    apply set_string_capacity_Done in Hgrow as (b0 & Hb0 & Hcases);
      [|apply to_size_range|apply doubled_request_nonzero].
    rewrite Hb in Hb0. injection Hb0 as <-.
    destruct Hcases as [(-> & -> & Hh)|(-> & Hfit & d' & Hd & Hrep)].
    + simpl in Hk. apply ret_Done in Hk as [[= <- <-] ->]. left. auto.
    + simpl in Hk.
      apply bind_Done in Hk as (u & st2 & (b1 & Hb1 & ->)%put_len_Done & [[= <- <-] ->]%ret_Done).
      rewrite (replaced_lookup _ _ _ _ _ Hrep) in Hb1. injection Hb1 as <-. simpl.
      right. split; [reflexivity|]. exists (to_size (len * 2 + 1)), d'. split.
      * eapply replaced_trans; [exact Hrep|].
        eapply replaced_in_place, replaced_lookup, Hrep.
      * right. auto.
  - apply Z.ltb_ge in Hcmp. apply ret_Done in Hgrow as [[= -> ->] ->]. simpl in Hk.
    apply bind_Done in Hk as (u & st2 & (b1 & Hb1 & ->)%put_len_Done & [[= <- <-] ->]%ret_Done).
    rewrite Hb in Hb1. injection Hb1 as <-.
    right. split; [reflexivity|]. exists (meta_capacity b), (chars b). split.
    + now apply replaced_in_place with (b := b).
    + left. auto.
Qed.

Lemma valid_describes b : valid b -> describes b.
Proof. unfold valid, describes. tauto. Qed.

(** [set_string_length] as its callers use it: it fails and changes nothing,
    or it sets the length over storage that kept its bytes. *)
Lemma set_string_length_cases str len st res str' st' b :
  heap st !! str = Some b -> describes b ->
  set_string_length str len st = Done (res, str') st' ->
  (res = - ENOMEM /\ str' = str /\ heap st' = heap st) \/
  (res = 0 /\ exists b1,
     replaced st st' str str' b1 /\ meta_len b1 = len /\ describes b1 /\
     (forall k : nat, (k <= length (chars b))%nat -> (k <= length (chars b1))%nat ->
                      take k (chars b1) = take k (chars b)) /\
     ((to_size (len + 1) <= meta_capacity b /\ meta_capacity b1 = meta_capacity b) \/
      (meta_capacity b < to_size (len + 1) /\
       meta_capacity b1 = to_size (len * 2 + 1) /\
       size_of (chars b1) = meta_capacity b1))).
Proof.
  intros Hb [Hcap Hfit] (b0 & Hb0 & Hcases)%set_string_length_Done.
  rewrite Hb in Hb0. injection Hb0 as <-.
  destruct Hcases as [(-> & -> & Hh & _)|(-> & cap' & d' & Hrep & Hcases)];
    [left; auto|right].
  split; [reflexivity|].
  exists (Block len cap' d'). split; [exact Hrep|]. split; [reflexivity|].
  destruct Hcases as [(Hle & -> & ->)|(Hlt & -> & Hfit' & [Hsz Hkeep])]; simpl.
  - split; [now split|]. split; [auto|]. left. auto.
  - split; [unfold describes; simpl; lia|]. split; [exact Hkeep|]. right. auto.
Qed.

Lemma modify_chars_replaced p f st u st' :
  modify_chars p f st = Done u st' ->
  exists b d, heap st !! p = Some b /\ f (chars b) = Some d /\
              replaced st st' p p (Block (meta_len b) (meta_capacity b) d).
Proof.
  intros (b & d & Hb & Hf & ->)%modify_chars_Done.
  exists b, d. repeat split; auto. simpl. now rewrite insert_delete_eq.
Qed.

Lemma put_len_replaced p v st u st' :
  put_len p v st = Done u st' ->
  exists b, heap st !! p = Some b /\
            replaced st st' p p (Block v (meta_capacity b) (chars b)).
Proof.
  intros (b & Hb & ->)%put_len_Done.
  exists b. repeat split; auto. simpl. now rewrite insert_delete_eq.
Qed.

Lemma valid_intro len cap d :
  0 <= len -> d !! Z.to_nat len = Some NUL -> len + 1 <= cap ->
  cap <= size_of d -> META_SIZE + size_of d <= SIZE_MAX ->
  valid (Block len cap d).
Proof. unfold valid. simpl. tauto. Qed.

Lemma to_size_le z : 0 <= z -> to_size z <= z.
Proof. intros. unfold to_size. apply Z.mod_le; lia. Qed.

(** The capacity a successful [set_string_length] leaves covers the new
    length and its terminator, and is no less than before, as soon as the
    terminator could be written inside the storage. *)
Lemma grown_capacity b b1 len :
  0 <= len < size_of (chars b1) -> describes b1 ->
  (to_size (len + 1) <= meta_capacity b /\ meta_capacity b1 = meta_capacity b) \/
  (meta_capacity b < to_size (len + 1) /\
   meta_capacity b1 = to_size (len * 2 + 1) /\
   size_of (chars b1) = meta_capacity b1) ->
  len + 1 <= meta_capacity b1 /\ meta_capacity b <= meta_capacity b1.
Proof.
  intros Hlen [Hcap Hfit] Hcases.
  assert (to_size (len + 1) = len + 1) as Hs
    by (apply to_size_small; unfold META_SIZE in *; lia).
  rewrite Hs in Hcases. lia.
Qed.

Lemma copy_string_Done dest src len st res dest' st' b :
  heap st !! dest = Some b -> describes b ->
  copy_string dest src len st = Done (res, dest') st' ->
  (res = - ENOMEM /\ dest' = dest /\ heap st' = heap st) \/
  (res = 0 /\ exists b' bs,
     replaced st st' dest dest' b' /\ valid b' /\ meta_len b' = len /\
     meta_capacity b <= meta_capacity b' /\
     (to_size (len + 1) <= meta_capacity b -> meta_capacity b' = meta_capacity b) /\
     strncpy_bytes src (Z.to_nat len) = Some bs /\ content b' = bs).
Proof.
  intros Hb Hdesc. unfold copy_string.
  intros ([res1 d1] & st1 & Hlen & Hk)%bind_Done.
  eapply set_string_length_cases in Hlen as
      [(-> & -> & Hh)|(-> & b1 & Hrep1 & Hl1 & Hdesc1 & Hkeep & Hcap1)]; eauto.
  { apply ret_Done in Hk as [[= <- <-] ->]. now left. }
  right. simpl in Hk.
  apply bind_Done in Hk as (u2 & st2 & (b2 & d2 & Hb2 & Hcpy & Hrep2)%modify_chars_replaced & Hk).
  rewrite (replaced_lookup _ _ _ _ _ Hrep1) in Hb2. injection Hb2 as <-.
  apply bind_Done in Hk as (u3 & st3 & (b3 & d3 & Hb3 & Hst & Hrep3)%modify_chars_replaced & Hk).
  rewrite (replaced_lookup _ _ _ _ _ Hrep2) in Hb3. injection Hb3 as <-.
  apply ret_Done in Hk as [[= <- <-] ->]. simpl in *.
  apply strncpy_Some in Hcpy as (bs & Hbs & Hbl & Hn & Hin & ->).
  pose proof (overwrite_size _ _ _ Hin) as Hsz2.
  pose proof (store_size _ _ _ _ Hst) as Hsz3.
  pose proof (store_Some _ _ _ _ Hst) as (Hi & _ & _).
  destruct (grown_capacity b b1 len) as [Hc1 Hc2]; auto; [lia|].
  split; [reflexivity|]. exists (Block (meta_len b1) (meta_capacity b1) d3), bs.
  split; [eauto using replaced_trans|].
  destruct Hdesc1 as [Hd1 Hd2]. rewrite Hl1.
  split; [apply valid_intro; try lia; eauto using store_lookup|].
  split; [reflexivity|]. split; [exact Hc2|].
  split; [intros Hle; destruct Hcap1 as [[_ ?]|[? _]]; [auto|lia]|].
  split; [exact Hbs|].
  unfold content. simpl.
  rewrite (store_take _ _ _ _ (Z.to_nat len) Hst) by lia.
  replace (Z.to_nat len) with (Z.to_nat 0 + length bs)%nat by lia.
  rewrite take_overwrite_through by exact Hin. reflexivity.
Qed.

Lemma valid_bounds b :
  valid b ->
  0 <= meta_len b /\ meta_len b < size_of (chars b) /\
  (Z.to_nat (meta_len b) <= length (chars b))%nat /\
  length (content b) = Z.to_nat (meta_len b).
Proof.
  intros (H0 & H1 & H2 & H3 & H4). unfold content, size_of in *.
  rewrite length_take. lia.
Qed.

Lemma append_string_Done dest src len st res dest' st' b :
  heap st !! dest = Some b -> valid b ->
  append_string dest src len st = Done (res, dest') st' ->
  (res = - ENOMEM /\ dest' = dest /\ heap st' = heap st) \/
  (res = 0 /\ exists b' bs,
     replaced st st' dest dest' b' /\ valid b' /\
     meta_len b' = meta_len b + len /\
     meta_capacity b <= meta_capacity b' /\
     strncpy_bytes src (Z.to_nat len) = Some bs /\
     content b' = content b ++ bs).
Proof.
  intros Hb Hv. pose proof (valid_describes _ Hv) as Hdesc.
  pose proof (valid_bounds _ Hv) as (Hl0 & Hl1 & Hl2 & Hl3).
  unfold append_string.
  intros (b0 & st0 & [-> Hb0]%get_meta_Done & ([res1 d1] & st1 & Hlen & Hk)%bind_Done)%bind_Done.
  rewrite Hb in Hb0. injection Hb0 as <-.
  eapply set_string_length_cases in Hlen as
      [(-> & -> & Hh)|(-> & b1 & Hrep1 & Hl & Hdesc1 & Hkeep & Hcap1)]; eauto.
  { apply ret_Done in Hk as [[= <- <-] ->]. now left. }
  right. simpl in Hk.
  apply bind_Done in Hk as (u2 & st2 & (b2 & d2 & Hb2 & Hcpy & Hrep2)%modify_chars_replaced & Hk).
  rewrite (replaced_lookup _ _ _ _ _ Hrep1) in Hb2. injection Hb2 as <-.
  apply bind_Done in Hk as (u3 & st3 & (b3 & d3 & Hb3 & Hst & Hrep3)%modify_chars_replaced & Hk).
  rewrite (replaced_lookup _ _ _ _ _ Hrep2) in Hb3. injection Hb3 as <-.
  apply ret_Done in Hk as [[= <- <-] ->]. simpl in *.
  apply strncpy_Some in Hcpy as (bs & Hbs & Hbl & Hn & Hin & ->).
  pose proof (overwrite_size _ _ _ Hin) as Hsz2.
  pose proof Hin as Hin'. apply in_range_spec in Hin'.
  destruct Hdesc1 as [Hd1 Hd2].
  assert (size_of bs = len) as Hbsz by (unfold size_of; lia).
  assert (to_size (meta_len b + len) = meta_len b + len) as Hsum
    by (apply to_size_small; unfold META_SIZE in *; lia).
  rewrite Hsum in *.
  pose proof (store_size _ _ _ _ Hst) as Hsz3.
  pose proof (store_Some _ _ _ _ Hst) as (Hi & _ & _).
  destruct (grown_capacity b b1 (meta_len b + len)) as [Hc1 Hc2];
    [lia|now split|exact Hcap1|].
  split; [reflexivity|]. exists (Block (meta_len b1) (meta_capacity b1) d3), bs.
  split; [eauto using replaced_trans|]. rewrite Hl.
  split; [apply valid_intro; try lia; eauto using store_lookup|].
  split; [reflexivity|]. split; [exact Hc2|]. split; [exact Hbs|].
  unfold content. simpl.
  rewrite (store_take _ _ _ _ _ Hst) by lia.
  replace (Z.to_nat (meta_len b + len))
    with (Z.to_nat (meta_len b) + length bs)%nat by lia.
  rewrite take_overwrite_through by exact Hin.
  rewrite Hkeep; [reflexivity|lia|unfold size_of in *; lia].
Qed.

Lemma prepend_string_Done dest src len st res dest' st' b :
  heap st !! dest = Some b -> valid b ->
  prepend_string dest src len st = Done (res, dest') st' ->
  (res = - ENOMEM /\ dest' = dest /\ heap st' = heap st) \/
  (res = 0 /\ exists b' bs,
     replaced st st' dest dest' b' /\ valid b' /\
     meta_len b' = meta_len b + len /\
     meta_capacity b <= meta_capacity b' /\
     strncpy_bytes src (Z.to_nat len) = Some bs /\
     content b' = bs ++ content b).
Proof.
  intros Hb Hv. pose proof (valid_describes _ Hv) as Hdesc.
  pose proof (valid_bounds _ Hv) as (Hl0 & Hl1 & Hl2 & Hl3).
  unfold prepend_string.
  intros (b0 & st0 & [-> Hb0]%get_meta_Done & ([res1 d1] & st1 & Hlen & Hk)%bind_Done)%bind_Done.
  rewrite Hb in Hb0. injection Hb0 as <-.
  eapply set_string_length_cases in Hlen as
      [(-> & -> & Hh)|(-> & b1 & Hrep1 & Hl & Hdesc1 & Hkeep & Hcap1)]; eauto.
  { apply ret_Done in Hk as [[= <- <-] ->]. now left. }
  right. simpl in Hk.
  apply bind_Done in Hk as (u2 & st2 & (b2 & d2 & Hb2 & Hmv & Hrep2)%modify_chars_replaced & Hk).
  rewrite (replaced_lookup _ _ _ _ _ Hrep1) in Hb2. injection Hb2 as <-.
  apply bind_Done in Hk as (u3 & st3 & (b3 & d3 & Hb3 & Hcpy & Hrep3)%modify_chars_replaced & Hk).
  rewrite (replaced_lookup _ _ _ _ _ Hrep2) in Hb3. injection Hb3 as <-.
  apply bind_Done in Hk as (u4 & st4 & (b4 & d4 & Hb4 & Hst & Hrep4)%modify_chars_replaced & Hk).
  rewrite (replaced_lookup _ _ _ _ _ Hrep3) in Hb4. injection Hb4 as <-.
  apply ret_Done in Hk as [[= <- <-] ->]. simpl in *.
  apply memmove_Some in Hmv as (Hsrc & Hdst & Hml & ->).
  rewrite drop_0 in *.
  set (moved := take (Z.to_nat (meta_len b)) (chars b1)) in *.
  assert (in_range (chars b1) len (size_of moved) = true) as Hdst'.
  { unfold size_of. rewrite Hml, Z2Nat.id by lia. exact Hdst. }
  pose proof (overwrite_size _ _ _ Hdst') as Hsz2.
  apply strncpy_Some in Hcpy as (bs & Hbs & Hbl & Hn & Hin & ->).
  pose proof (overwrite_size _ _ _ Hin) as Hsz3.
  apply in_range_spec in Hdst.
  destruct Hdesc1 as [Hd1 Hd2].
  assert (to_size (meta_len b + len) = meta_len b + len) as Hsum
    by (apply to_size_small; unfold META_SIZE in *; lia).
  rewrite Hsum in *.
  pose proof (store_size _ _ _ _ Hst) as Hsz4.
  pose proof (store_Some _ _ _ _ Hst) as (Hi & _ & _).
  destruct (grown_capacity b b1 (meta_len b + len)) as [Hc1 Hc2];
    [lia|now split|exact Hcap1|].
  split; [reflexivity|]. exists (Block (meta_len b1) (meta_capacity b1) d4), bs.
  split; [eauto using replaced_trans|]. rewrite Hl.
  split; [apply valid_intro; try lia; eauto using store_lookup|].
  split; [reflexivity|]. split; [exact Hc2|]. split; [exact Hbs|].
  unfold content. simpl.
  rewrite (store_take _ _ _ _ _ Hst) by lia.
  rewrite overwrite_at_0.
  replace (Z.to_nat (meta_len b + len))
    with (length bs + Z.to_nat (meta_len b))%nat by lia.
  rewrite take_app_add. f_equal.
  rewrite take_drop_commute.
  replace (length bs + Z.to_nat (meta_len b))%nat
    with (Z.to_nat len + length moved)%nat by lia.
  rewrite take_overwrite_through by exact Hdst'.
  rewrite drop_app_length' by (rewrite length_take; unfold size_of in *; lia).
  unfold moved. apply Hkeep; [lia|unfold size_of in *; lia].
Qed.

(** ** Public operations *)

Lemma take_drop_take {A : Type} (l : list A) (m n L : nat) :
  (m + n <= L)%nat -> take n (drop m (take L l)) = take n (drop m l).
Proof.
  intros H. rewrite !take_drop_commute, take_take. do 2 f_equal. lia.
Qed.

Lemma string_cut_Done s start len st res r st' b :
  heap st !! s = Some b -> valid b ->
  string_cut (Ref (Some s)) start len st = Done (res, r) st' ->
  r = Ref (Some s) /\
  ((res = - ERANGE /\ st' = st /\ meta_len b < to_size (to_uint start + to_size len)) \/
   (res = 0 /\ to_uint start + to_size len <= meta_len b /\
    exists b', replaced st st' s s b' /\ valid b' /\
      meta_len b' = to_size len /\ meta_capacity b' = meta_capacity b /\
      content b' = take (Z.to_nat (to_size len))
                        (drop (Z.to_nat (to_uint start)) (content b)))).
Proof.
  intros Hb Hv. pose proof (valid_bounds _ Hv) as (Hl0 & Hl1 & Hl2 & Hl3).
  destruct Hv as (_ & Hv1 & Hv2 & Hv3 & _).
  pose proof (to_uint_range start) as Hstart. pose proof (to_size_range len) as Hlen.
  unfold string_cut.
  intros (b0 & st0 & [-> Hb0]%get_meta_Done & Hk)%bind_Done.
  rewrite Hb in Hb0. injection Hb0 as <-.
  destruct (meta_len b <? to_size (to_uint start + to_size len)) eqn:Hcmp.
  { apply Z.ltb_lt in Hcmp. apply ret_Done in Hk as [[= <- <-] ->]. auto. }
  apply Z.ltb_ge in Hcmp.
  apply bind_Done in Hk as (u2 & st2 & (b2 & d2 & Hb2 & Hmv & Hrep2)%modify_chars_replaced & Hk).
  rewrite Hb in Hb2. injection Hb2 as <-.
  apply bind_Done in Hk as (u3 & st3 & (b3 & d3 & Hb3 & Hst & Hrep3)%modify_chars_replaced & Hk).
  rewrite (replaced_lookup _ _ _ _ _ Hrep2) in Hb3. injection Hb3 as <-.
  apply bind_Done in Hk as (u4 & st4 & (b4 & Hb4 & Hrep4)%put_len_replaced & Hk).
  rewrite (replaced_lookup _ _ _ _ _ Hrep3) in Hb4. injection Hb4 as <-.
  apply ret_Done in Hk as [[= <- <-] ->]. simpl in *.
  apply memmove_Some in Hmv as (Hsrc & Hdst & Hml & ->).
  set (moved := take (Z.to_nat (to_size len)) (drop (Z.to_nat (to_uint start)) (chars b))) in *.
  assert (in_range (chars b) 0 (size_of moved) = true) as Hdst'.
  { unfold size_of. rewrite Hml, Z2Nat.id by lia. exact Hdst. }
  pose proof (overwrite_size _ _ _ Hdst') as Hsz2.
  pose proof (store_size _ _ _ _ Hst) as Hsz3.
  pose proof (store_Some _ _ _ _ Hst) as (Hi & _ & _).
  apply in_range_spec in Hsrc.
  assert (to_size (to_uint start + to_size len) = to_uint start + to_size len) as Hsum
    by (apply to_size_small; unfold META_SIZE in *; lia).
  rewrite Hsum in Hcmp.
  split; [reflexivity|]. right. split; [reflexivity|]. split; [exact Hcmp|].
  exists (Block (to_size len) (meta_capacity b) d3).
  split; [eauto using replaced_trans|].
  split; [apply valid_intro; try lia; eauto using store_lookup|].
  split; [reflexivity|]. split; [reflexivity|].
  unfold content. simpl.
  rewrite (store_take _ _ _ _ _ Hst) by lia.
  rewrite overwrite_at_0, take_app_length' by lia.
  unfold moved. symmetry. apply take_drop_take. lia.
Qed.

Lemma string_clear_Done s st res st' b :
  heap st !! s = Some b -> valid b ->
  string_clear (Some s) st = Done res st' ->
  res = 0 /\ exists b', replaced st st' s s b' /\ valid b' /\
    meta_len b' = 0 /\ meta_capacity b' = meta_capacity b /\ content b' = [].
Proof.
  intros Hb Hv. pose proof (valid_bounds _ Hv) as (Hl0 & Hl1 & Hl2 & Hl3).
  destruct Hv as (_ & Hv1 & Hv2 & Hv3 & _).
  unfold string_clear.
  intros (u1 & st1 & (b1 & Hb1 & Hrep1)%put_len_replaced & Hk)%bind_Done.
  rewrite Hb in Hb1. injection Hb1 as <-.
  apply bind_Done in Hk as (u2 & st2 & (b2 & d2 & Hb2 & Hst & Hrep2)%modify_chars_replaced & Hk).
  rewrite (replaced_lookup _ _ _ _ _ Hrep1) in Hb2. injection Hb2 as <-.
  apply ret_Done in Hk as [-> ->]. simpl in *.
  pose proof (store_size _ _ _ _ Hst) as Hsz.
  split; [reflexivity|]. exists (Block 0 (meta_capacity b) d2).
  split; [eauto using replaced_trans|].
  split; [apply valid_intro; try lia; eauto using store_lookup|].
  repeat split.
Qed.

Lemma string_reserve_Done s size st res r st' b :
  heap st !! s = Some b -> valid b ->
  string_reserve (Ref (Some s)) size st = Done (res, r) st' ->
  (res = 0 /\ r = Ref (Some s) /\ st' = st /\ to_size size <= meta_capacity b) \/
  (res = - ENOMEM /\ r = Ref (Some s) /\ heap st' = heap st) \/
  (res = 0 /\ meta_capacity b < to_size size /\ exists s' b',
     r = Ref (Some s') /\ replaced st st' s s' b' /\ valid b' /\
     meta_len b' = meta_len b /\ meta_capacity b' = to_size size /\
     content b' = content b) \/
  (res = - ENOMEM /\ r = Ref (Some s) /\
   to_size (META_SIZE + to_size size) = 0 /\ heap st' = delete s (heap st)).
Proof.
  intros Hb Hv. pose proof (valid_bounds _ Hv) as (Hl0 & Hl1 & Hl2 & Hl3).
  pose proof Hv as (_ & Hv1 & Hv2 & Hv3 & Hv4).
  unfold string_reserve.
  intros (b0 & st0 & [-> Hb0]%get_meta_Done & Hk)%bind_Done.
  rewrite Hb in Hb0. injection Hb0 as <-.
  destruct (to_size size <=? meta_capacity b) eqn:Hcmp.
  { apply Z.leb_le in Hcmp. apply ret_Done in Hk as [[= <- <-] ->]. auto. }
  apply Z.leb_gt in Hcmp. right.
  apply bind_Done in Hk as ([res1 s1] & st1 & Hcap & [[= -> ->] ->]%ret_Done).
  destruct (Z.eq_dec (to_size (META_SIZE + to_size size)) 0) as [Hz|Hnz].
  { rewrite (set_string_capacity_zero _ _ _ _ Hb Hz) in Hcap.
    injection Hcap as <- <- <-. right; right. auto. }
  apply set_string_capacity_Done in Hcap as (b0 & Hb0 & Hcases);
    [|apply to_size_range|exact Hnz].
  rewrite Hb in Hb0. injection Hb0 as <-.
  destruct Hcases as [(-> & -> & Hh)|(-> & Hfit & d' & [Hsz Hkeep] & Hrep)];
    [now left|right; left].
  split; [reflexivity|]. split; [exact Hcmp|].
  exists s1, (Block (meta_len b) (to_size size) d').
  split; [reflexivity|]. split; [exact Hrep|].
  assert (length d' = Z.to_nat (to_size size)) as Hd' by (unfold size_of in Hsz; lia).
  split.
  - apply valid_intro; try lia.
    rewrite (resized_lookup (chars b) d' (to_size size)); auto;
      [split; auto|unfold size_of in *; lia..].
  - repeat split. unfold content. simpl. apply Hkeep; unfold size_of in *; lia.
Qed.

Lemma string_fit_Done s st res r st' b :
  heap st !! s = Some b -> valid b ->
  string_fit (Ref (Some s)) st = Done (res, r) st' ->
  (res = - ENOMEM /\ r = Ref (Some s) /\ heap st' = heap st) \/
  (res = 0 /\ exists s' b',
     r = Ref (Some s') /\ replaced st st' s s' b' /\ valid b' /\
     meta_len b' = meta_len b /\ meta_capacity b' = meta_len b + 1 /\
     content b' = content b).
Proof.
  intros Hb Hv. pose proof (valid_bounds _ Hv) as (Hl0 & Hl1 & Hl2 & Hl3).
  pose proof Hv as (_ & Hv1 & Hv2 & Hv3 & Hv4).
  unfold string_fit.
  intros (b0 & st0 & [-> Hb0]%get_meta_Done & Hk)%bind_Done.
  rewrite Hb in Hb0. injection Hb0 as <-.
  apply bind_Done in Hk as ([res1 s1] & st1 & Hcap & [[= -> ->] ->]%ret_Done).
  assert (to_size (meta_len b + 1) = meta_len b + 1) as Hsum
    by (apply to_size_small; unfold META_SIZE in *; lia).
  rewrite Hsum in Hcap.
  apply set_string_capacity_Done in Hcap as (b0 & Hb0 & Hcases);
    [|unfold META_SIZE in *; lia
     |rewrite to_size_small; unfold META_SIZE in *; lia].
  rewrite Hb in Hb0. injection Hb0 as <-.
  destruct Hcases as [(-> & -> & Hh)|(-> & Hfit & d' & [Hsz Hkeep] & Hrep)]; [now left|right].
  split; [reflexivity|].
  exists s1, (Block (meta_len b) (meta_len b + 1) d').
  split; [reflexivity|]. split; [exact Hrep|].
  split.
  - apply valid_intro; try lia.
    rewrite (resized_lookup (chars b) d' (meta_len b + 1)); auto;
      [split; auto|unfold size_of in *; lia..].
  - repeat split. unfold content. simpl. apply Hkeep; unfold size_of in *; lia.
Qed.

Lemma replaced_refl st s b : heap st !! s = Some b -> replaced st st s s b.
Proof.
  intros Hb. split; [now left|]. now rewrite insert_delete_eq, insert_id.
Qed.

Lemma string_printf_Done s f st res st' b :
  heap st !! s = Some b -> valid b ->
  string_printf (Some s) (Some f) st = Done res st' ->
  (res = -1 /\ (f = FmtError \/ exists out, f = FmtOutput out /\ INT_MAX < size_of out) /\
   exists b', replaced st st' s s b') \/
  (exists out, f = FmtOutput out /\ size_of out <= INT_MAX /\ res = size_of out /\
   exists b', replaced st st' s s b' /\ valid b' /\
     meta_capacity b' = meta_capacity b /\
     meta_len b' = Z.min (size_of out) (meta_capacity b - 1) /\
     content b' = take (Z.to_nat (meta_capacity b - 1)) out).
Proof.
  intros Hb Hv. pose proof (valid_bounds _ Hv) as (Hl0 & Hl1 & Hl2 & Hl3).
  pose proof Hv as (_ & Hv1 & Hv2 & Hv3 & Hv4).
  unfold string_printf.
  intros (b0 & st0 & [-> Hb0]%get_meta_Done & (res1 & st1 & Hpr & Hk)%bind_Done)%bind_Done.
  rewrite Hb in Hb0. injection Hb0 as <-.
  apply bind_Done in Hk as (u2 & st2 & (b2 & Hb2 & Hrep2)%put_len_replaced & [-> ->]%ret_Done).
  unfold vsnprintf in Hpr.
  destruct f as [|out].
  { apply ret_Done in Hpr as [-> ->]. left. split; [reflexivity|]. split; [now left|].
    eauto. }
  destruct (INT_MAX <? size_of out) eqn:Hbig.
  { apply Z.ltb_lt in Hbig. apply ret_Done in Hpr as [-> ->]. left.
    split; [reflexivity|]. split; [right; eauto|]. eauto. }
  apply Z.ltb_ge in Hbig.
  destruct (meta_capacity b =? 0) eqn:Hz; [apply Z.eqb_eq in Hz; lia|].
  apply bind_Done in Hpr as (u1 & st3 & (b1 & d1 & Hb1 & Hw & Hrep1)%modify_chars_replaced & [-> ->]%ret_Done).
  rewrite Hb in Hb1. injection Hb1 as <-.
  rewrite (replaced_lookup _ _ _ _ _ Hrep1) in Hb2. injection Hb2 as <-. simpl in *.
  set (w := take (Z.to_nat (meta_capacity b - 1)) out ++ [NUL]) in *.
  destruct (in_range (chars b) 0 (size_of w)) eqn:Hin; [|discriminate].
  injection Hw as <-.
  pose proof (overwrite_size _ _ _ Hin) as Hsz.
  pose proof (size_of_nonneg out) as Hout.
  assert (length (take (Z.to_nat (meta_capacity b - 1)) out)
          = Z.to_nat (Z.min (size_of out) (meta_capacity b - 1))) as Hk
    by (rewrite length_take; unfold size_of; lia).
  assert ((if to_size (size_of out) <? meta_capacity b then to_size (size_of out)
           else to_size (meta_capacity b - 1))
          = Z.min (size_of out) (meta_capacity b - 1)) as Hlen.
  { rewrite !to_size_small by (unfold INT_MAX, SIZE_MAX, META_SIZE in *; lia).
    destruct (size_of out <? meta_capacity b) eqn:E;
      [apply Z.ltb_lt in E|apply Z.ltb_ge in E]; lia. }
  rewrite Hlen in *.
  right. exists out. split; [reflexivity|]. split; [exact Hbig|]. split; [reflexivity|].
  eexists. split; [eauto using replaced_trans|].
  split.
  - apply valid_intro; try lia.
    rewrite <- Hk.
    replace (length (take (Z.to_nat (meta_capacity b - 1)) out))
      with (Z.to_nat 0 + length (take (Z.to_nat (meta_capacity b - 1)) out))%nat by lia.
    rewrite lookup_overwrite_inside by (auto; unfold w; rewrite length_app; simpl; lia).
    unfold w. rewrite lookup_app_r by lia. now rewrite Nat.sub_diag.
  - split; [reflexivity|]. split; [reflexivity|].
    unfold content. simpl. rewrite overwrite_at_0. unfold w. rewrite <- Hk.
    rewrite <- app_assoc. apply take_app_length.
Qed.

(** Closes the success case of [mutate_cases] for the string [s1] with
    block [b']. *)
Ltac success_with s1 b' :=
  right; right;
  split; [first [lia | apply size_of_nonneg]|];
  exists s1, b';
  split; [reflexivity|];
  split; [assumption|];
  split; [assumption|];
  intros ?; first [lia | congruence].

Ltac failure_unchanged :=
  left; unfold ENOMEM, ERANGE;
  split; [lia|]; split; [lia|]; split; [reflexivity|];
  left; first [assumption | reflexivity].

(** What a public mutating operation does to a valid string: it fails and
    leaves the heap as it was, but for [string_reserve] with a size whose
    request wraps around to 0 bytes, which releases the string; or the
    formatted write fails; or it succeeds, the string is valid again, and its
    capacity did not shrink unless the operation is [string_fit]. *)
Lemma mutate_cases m s st res s' st' b :
  heap st !! s = Some b -> valid b ->
  mutate m s st = Done (res, s') st' ->
  (res < 0 /\ res <> -1 /\ s' = Some s /\
   (heap st' = heap st \/
    ((exists size, m = Reserve size /\ to_size (META_SIZE + to_size size) = 0) /\
     heap st' = delete s (heap st)))) \/
  (res = -1 /\ s' = Some s /\ (exists f, m = Printf f) /\
   exists b', replaced st st' s s b') \/
  (0 <= res /\ exists s1 b',
     s' = Some s1 /\ replaced st st' s s1 b' /\ valid b' /\
     (m <> Fit -> meta_capacity b <= meta_capacity b')).
Proof.
  intros Hb Hv. pose proof (valid_describes _ Hv) as Hdesc.
  destruct m as [src len|src len|src len|start len| |f|size|]; simpl;
    intros (x & st1 & Hop & Hk)%bind_Done.
  - destruct x as [res1 r]. apply ret_Done in Hk as [[= -> ->] ->].
    apply bind_Done in Hop as ([res2 d] & st2 & Hop & [[= -> ->] ->]%ret_Done).
    eapply copy_string_Done in Hop as [(-> & -> & Hh)|(-> & b' & bs & ? & ? & ? & ? & _)]; eauto.
    + failure_unchanged.
    + success_with d b'.
  - destruct x as [res1 r]. apply ret_Done in Hk as [[= -> ->] ->].
    apply bind_Done in Hop as ([res2 d] & st2 & Hop & [[= -> ->] ->]%ret_Done).
    eapply append_string_Done in Hop as [(-> & -> & Hh)|(-> & b' & bs & ? & ? & ? & ? & _)]; eauto.
    + failure_unchanged.
    + success_with d b'.
  - destruct x as [res1 r]. apply ret_Done in Hk as [[= -> ->] ->].
    apply bind_Done in Hop as ([res2 d] & st2 & Hop & [[= -> ->] ->]%ret_Done).
    eapply prepend_string_Done in Hop as [(-> & -> & Hh)|(-> & b' & bs & ? & ? & ? & ? & _)]; eauto.
    + failure_unchanged.
    + success_with d b'.
  - destruct x as [res1 r]. apply ret_Done in Hk as [[= -> ->] ->].
    eapply string_cut_Done in Hop as
        [-> [(-> & -> & _)|(-> & _ & b' & ? & ? & _ & Hc & _)]]; eauto.
    + failure_unchanged.
    + success_with s b'.
  - apply ret_Done in Hk as [[= -> ->] ->].
    eapply string_clear_Done in Hop as (-> & b' & ? & ? & _ & Hc & _); eauto.
    success_with s b'.
  - apply ret_Done in Hk as [[= -> ->] ->].
    eapply string_printf_Done in Hop as
        [(-> & _ & b' & ?)|(out & -> & ? & -> & b' & ? & ? & Hc & _)]; eauto.
    + right; left. repeat split; eauto.
    + success_with s b'.
  - destruct x as [res1 r]. apply ret_Done in Hk as [[= -> ->] ->].
    eapply string_reserve_Done in Hop as
        [(-> & -> & -> & _)|[(-> & -> & Hh)|
         [(-> & ? & s1 & b' & -> & ? & ? & _ & Hc & _)|(-> & -> & Hz & Hh)]]]; eauto.
    + pose proof (replaced_refl _ _ _ Hb). success_with s b.
    + failure_unchanged.
    + success_with s1 b'.
    + left. unfold ENOMEM. split; [lia|]. split; [lia|]. split; [reflexivity|].
      right. eauto.
  - destruct x as [res1 r]. apply ret_Done in Hk as [[= -> ->] ->].
    eapply string_fit_Done in Hop as
        [(-> & -> & Hh)|(-> & s1 & b' & -> & ? & ? & _)]; eauto.
    + failure_unchanged.
    + success_with s1 b'.
Qed.

(** The other strings of the heap are not touched by a mutating operation. *)
Lemma mutate_frame m s st res s' st' b q c :
  heap st !! s = Some b -> valid b ->
  mutate m s st = Done (res, s') st' ->
  q <> s -> heap st !! q = Some c -> heap st' !! q = Some c.
Proof.
  intros Hb Hv Hm Hq Hc.
  eapply mutate_cases in Hm as
      [(_ & _ & _ & [Hh|[_ Hh]])|[(_ & _ & _ & b' & Hrep)|(_ & s1 & b' & _ & Hrep & _)]];
    eauto.
  - now rewrite Hh.
  - now rewrite Hh, lookup_delete_ne by congruence.
  - eauto using replaced_frame.
  - eauto using replaced_frame.
Qed.

(** ** Creation functions *)

(** A block that has just been allocated at [p] and then written in place. *)
Lemma replaced_fresh st st1 st' p b1 b' :
  heap st !! p = None -> heap st1 = <[p := b1]> (heap st) ->
  replaced st1 st' p p b' -> heap st' = <[p := b']> (heap st).
Proof.
  intros Hp H1 [_ H']. rewrite H', H1, delete_insert_eq, delete_id; auto.
Qed.

Lemma sub_string_Done src start len st r st' :
  sub_string src start len st = Done r st' ->
  (r = None /\ heap st' = heap st) \/
  (exists p b' from bs,
     r = Some p /\ heap st !! p = None /\ heap st' = <[p := b']> (heap st) /\
     valid b' /\ meta_len b' = len /\ meta_capacity b' = len + 1 /\
     advance src start = Some from /\
     strncpy_bytes from (Z.to_nat len) = Some bs /\ content b' = bs).
Proof.
  unfold sub_string.
  intros (r0 & st0 & Hm & Hk)%bind_Done.
  apply malloc_Done in Hm as [[-> Hh]|(p & d & -> & Ht & Hsz & Hp & Hh)].
  { apply ret_Done in Hk as [-> ->]. now left. }
  right.
  assert (heap st0 !! p = Some (Block 0 0 d)) as Hp0 by (rewrite Hh; apply lookup_insert_eq).
  apply bind_Done in Hk as (u1 & st1 & (b1 & Hb1 & Hrep1)%put_len_replaced & Hk).
  rewrite Hp0 in Hb1. injection Hb1 as <-.
  apply bind_Done in Hk as (u2 & st2 & (b2 & Hb2 & ->)%put_capacity_Done & Hk).
  rewrite (replaced_lookup _ _ _ _ _ Hrep1) in Hb2. injection Hb2 as <-. simpl in Hk.
  match type of Hk with context [State ?h ?rs] => set (st2 := State h rs) in * end.
  assert (replaced st0 st2 p p (Block len (to_size (len + 1)) d)) as Hrep2.
  { eapply replaced_trans; [exact Hrep1|].
    eapply replaced_in_place, replaced_lookup, Hrep1. }
  clearbody st2.
  destruct (advance src start) as [from|] eqn:Hadv; [|discriminate].
  apply bind_Done in Hk as (u3 & st3 & (b3 & d3 & Hb3 & Hcpy & Hrep3)%modify_chars_replaced & Hk).
  rewrite (replaced_lookup _ _ _ _ _ Hrep2) in Hb3. injection Hb3 as <-.
  apply bind_Done in Hk as (u4 & st4 & (b4 & d4 & Hb4 & Hst & Hrep4)%modify_chars_replaced & Hk).
  rewrite (replaced_lookup _ _ _ _ _ Hrep3) in Hb4. injection Hb4 as <-.
  apply ret_Done in Hk as [-> ->]. simpl in *.
  apply strncpy_Some in Hcpy as (bs & Hbs & Hbl & Hn & Hin & ->).
  pose proof (overwrite_size _ _ _ Hin) as Hsz3.
  pose proof (store_size _ _ _ _ Hst) as Hsz4.
  pose proof (store_Some _ _ _ _ Hst) as (Hi & _ & _).
  pose proof (to_size_range (META_SIZE + len + 1)) as Hr.
  assert (to_size (META_SIZE + len + 1) = META_SIZE + len + 1) as Htot.
  { destruct (Z_le_gt_dec (META_SIZE + len + 1) SIZE_MAX) as [Hle|Hgt].
    - apply to_size_small. unfold META_SIZE in *. lia.
    - exfalso.
      assert (to_size (META_SIZE + 1 + len) = META_SIZE + 1 + len - 2 ^ 64) as Hw
        by (apply to_size_wrapped; unfold META_SIZE, SIZE_MAX in *; lia).
      replace (META_SIZE + len + 1) with (META_SIZE + 1 + len) in * by lia.
      unfold META_SIZE, SIZE_MAX in *. lia. }
  rewrite Htot in *.
  assert (to_size (len + 1) = len + 1) as Hcap
    by (apply to_size_small; unfold META_SIZE in *; lia).
  rewrite Hcap in *.
  exists p, (Block len (len + 1) d4), from, bs.
  split; [reflexivity|]. split; [exact Hp|].
  split; [eapply replaced_fresh; eauto using replaced_trans|].
  split; [apply valid_intro; try lia; eauto using store_lookup|].
  split; [reflexivity|]. split; [reflexivity|]. split; [reflexivity|].
  split; [exact Hbs|].
  unfold content. simpl.
  rewrite (store_take _ _ _ _ _ Hst) by lia.
  rewrite overwrite_at_0. apply take_app_length'. lia.
Qed.

Lemma empty_recording_Done capacity st r st' :
  empty_recording capacity st = Done r st' ->
  (r = None /\ heap st' = heap st) \/
  (exists p d,
     r = Some p /\ heap st !! p = None /\
     heap st' = <[p := Block 0 capacity d]> (heap st) /\
     size_of d = 1 /\ d !! 0%nat = Some NUL).
Proof.
  unfold empty_recording.
  intros (r0 & st0 & Hm & Hk)%bind_Done.
  apply malloc_Done in Hm as [[-> Hh]|(p & d & -> & Ht & Hsz & Hp & Hh)].
  { apply ret_Done in Hk as [-> ->]. now left. }
  right.
  assert (heap st0 !! p = Some (Block 0 0 d)) as Hp0 by (rewrite Hh; apply lookup_insert_eq).
  apply bind_Done in Hk as (u1 & st1 & (b1 & Hb1 & Hrep1)%put_len_replaced & Hk).
  rewrite Hp0 in Hb1. injection Hb1 as <-.
  apply bind_Done in Hk as (u2 & st2 & (b2 & Hb2 & ->)%put_capacity_Done & Hk).
  rewrite (replaced_lookup _ _ _ _ _ Hrep1) in Hb2. injection Hb2 as <-. simpl in Hk.
  match type of Hk with context [State ?h ?rs] => set (st2 := State h rs) in * end.
  assert (replaced st0 st2 p p (Block 0 capacity d)) as Hrep2.
  { eapply replaced_trans; [exact Hrep1|].
    eapply replaced_in_place, replaced_lookup, Hrep1. }
  clearbody st2.
  apply bind_Done in Hk as (u3 & st3 & (b3 & d3 & Hb3 & Hst & Hrep3)%modify_chars_replaced & Hk).
  rewrite (replaced_lookup _ _ _ _ _ Hrep2) in Hb3. injection Hb3 as <-.
  apply ret_Done in Hk as [-> ->]. simpl in *.
  change (to_size (META_SIZE + 1) - META_SIZE) with 1 in Hsz.
  exists p, d3. split; [reflexivity|]. split; [exact Hp|].
  split; [eapply replaced_fresh; eauto using replaced_trans|].
  split; [now rewrite (store_size _ _ _ _ Hst)|].
  exact (store_lookup _ _ _ _ Hst).
Qed.

(** [string_empty] of the main variant: an empty, valid string of capacity 1. *)
Lemma string_empty_Done st r st' :
  string_empty st = Done r st' ->
  (r = None /\ heap st' = heap st) \/
  (exists p b',
     r = Some p /\ heap st !! p = None /\ heap st' = <[p := b']> (heap st) /\
     valid b' /\ meta_len b' = 0 /\ meta_capacity b' = 1 /\ content b' = []).
Proof.
  change string_empty with (empty_recording 1).
  intros [H|(p & d & -> & Hp & Hh & Hsz & Hnul)]%empty_recording_Done; [now left|right].
  exists p, (Block 0 1 d). repeat split; auto; simpl; try lia.
  rewrite Hsz. unfold META_SIZE, SIZE_MAX. lia.
Qed.

(** ** Duplication *)

Lemma until_nul_no_nul l : Forall (fun c => c <> NUL) l -> until_nul l = l.
Proof.
  induction 1 as [|c l Hc _ IH]; simpl; [reflexivity|].
  destruct (Byte.eqb c NUL) eqn:E; [now apply Byte.byte_dec_bl in E|].
  now rewrite IH.
Qed.

(** [strncpy] writes the C string of the source, padded with NUL bytes. *)
Lemma strncpy_bytes_spec src n bs :
  strncpy_bytes src n = Some bs ->
  bs = until_nul (take n src)
       ++ replicate (n - length (until_nul (take n src))) NUL.
Proof.
  revert src bs. induction n as [|n IH]; intros src bs; simpl.
  - intros [= <-]. now destruct src.
  - destruct src as [|c src]; [discriminate|]. simpl.
    destruct (Byte.eqb c NUL) eqn:E.
    + now intros [= <-].
    + destruct (strncpy_bytes src n) as [bs'|] eqn:Eb; [|discriminate].
      intros [= <-]. simpl. f_equal. now apply IH.
Qed.

Lemma advance_0 src : advance src 0 = Some src.
Proof.
  unfold advance. pose proof (size_of_nonneg src) as H.
  apply Z.leb_le in H. simpl. now rewrite H.
Qed.

Lemma string_dup_Done s st r st' b :
  heap st !! s = Some b -> valid b ->
  string_dup (Some s) st = Done r st' ->
  (r = None /\ heap st' = heap st) \/
  (exists p b',
     r = Some p /\ p <> s /\ heap st !! p = None /\
     heap st' = <[p := b']> (heap st) /\ valid b' /\
     meta_len b' = meta_len b /\ meta_capacity b' = meta_len b + 1 /\
     content b' = until_nul (content b)
                  ++ replicate (Z.to_nat (meta_len b) - length (until_nul (content b))) NUL).
Proof.
  intros Hb Hv. unfold string_dup.
  intros (b0 & st0 & [-> Hb0]%get_meta_Done & Hk)%bind_Done.
  rewrite Hb in Hb0. injection Hb0 as <-.
  apply sub_string_Done in Hk as
      [H|(p & b' & from & bs & -> & Hp & Hh & Hv' & Hl & Hc & Hadv & Hbs & Hcont)];
    [now left|right].
  rewrite advance_0 in Hadv. injection Hadv as <-.
  exists p, b'. split; [reflexivity|]. split; [congruence|].
  repeat (split; [assumption|]).
  rewrite Hcont. now apply strncpy_bytes_spec.
Qed.

(** ** Calls that run to their end *)

Lemma bind_eq {A B : Type} (m : M A) (k : A -> M B) st x st1 :
  m st = Done x st1 -> bind m k st = k x st1.
Proof. unfold bind. now intros ->. Qed.

Lemma get_meta_eq p st b : heap st !! p = Some b -> get_meta p st = Done b st.
Proof. unfold get_meta. now intros ->. Qed.

Lemma put_len_eq p v st b :
  heap st !! p = Some b ->
  put_len p v st
  = Done tt (State (<[p := Block v (meta_capacity b) (chars b)]> (heap st)) (replies st)).
Proof. intros Hb. unfold put_len. now rewrite (bind_eq _ _ _ _ _ (get_meta_eq _ _ _ Hb)). Qed.

Lemma modify_chars_eq p f st b d :
  heap st !! p = Some b -> f (chars b) = Some d ->
  modify_chars p f st
  = Done tt (State (<[p := Block (meta_len b) (meta_capacity b) d]> (heap st)) (replies st)).
Proof.
  intros Hb Hf. unfold modify_chars.
  rewrite (bind_eq _ _ _ _ _ (get_meta_eq _ _ _ Hb)). now rewrite Hf.
Qed.

Lemma in_range_true d off n :
  0 <= off -> 0 <= n -> off + n <= size_of d -> in_range d off n = true.
Proof. intros. now apply in_range_spec. Qed.

Lemma store_in_range d i c :
  0 <= i < size_of d -> store d i c = Some (overwrite d i [c]).
Proof. intros H. unfold store. rewrite in_range_true; auto; lia. Qed.

Lemma memmove_in_range d dst src n :
  0 <= dst -> 0 <= src -> 0 <= n -> dst + n <= size_of d -> src + n <= size_of d ->
  memmove d dst src n
  = Some (overwrite d dst (take (Z.to_nat n) (drop (Z.to_nat src) d))).
Proof. intros. unfold memmove. rewrite !in_range_true; auto. Qed.

Lemma strncpy_in_range d dst src n bs :
  0 <= dst -> 0 <= n -> dst + n <= size_of d ->
  strncpy_bytes src (Z.to_nat n) = Some bs ->
  strncpy d dst src n = Some (overwrite d dst bs).
Proof. intros ? ? ? Hbs. unfold strncpy. rewrite in_range_true, Hbs; auto. Qed.

Lemma size_of_moved d src n :
  0 <= src -> 0 <= n -> src + n <= size_of d ->
  size_of (take (Z.to_nat n) (drop (Z.to_nat src) d)) = n.
Proof. unfold size_of. intros. rewrite length_take, length_drop. lia. Qed.

(** Without growth, [set_string_length] only writes the length. *)
Lemma set_string_length_in_place str len st b :
  heap st !! str = Some b -> to_size (len + 1) <= meta_capacity b ->
  set_string_length str len st
  = Done (0, str)
         (State (<[str := Block len (meta_capacity b) (chars b)]> (heap st)) (replies st)).
Proof.
  intros Hb Hle. unfold set_string_length.
  rewrite (bind_eq _ _ _ _ _ (get_meta_eq _ _ _ Hb)).
  apply Z.ltb_ge in Hle. rewrite Hle.
  erewrite bind_eq by reflexivity. simpl.
  erewrite bind_eq by (apply put_len_eq; exact Hb). reflexivity.
Qed.

(** [prepend_string] into a string that has room: no allocation, success. *)
Lemma prepend_string_in_place dest src len st b bs :
  heap st !! dest = Some b -> valid b -> 0 <= len ->
  meta_len b + len + 1 <= meta_capacity b ->
  strncpy_bytes src (Z.to_nat len) = Some bs ->
  exists st', prepend_string dest src len st = Done (0, dest) st'.
Proof.
  intros Hb Hv Hlen Hroom Hbs.
  pose proof (valid_bounds _ Hv) as (Hl0 & Hl1 & Hl2 & Hl3).
  destruct Hv as (_ & Hv1 & Hv2 & Hv3 & _).
  assert (to_size (meta_len b + len) = meta_len b + len) as Hsum
    by (apply to_size_small; unfold META_SIZE in *; lia).
  assert (to_size (meta_len b + len + 1) = meta_len b + len + 1) as Hsum1
    by (apply to_size_small; unfold META_SIZE in *; lia).
  unfold prepend_string.
  rewrite (bind_eq _ _ _ _ _ (get_meta_eq _ _ _ Hb)). rewrite Hsum.
  erewrite bind_eq by (apply set_string_length_in_place; [exact Hb|lia]). simpl.
  erewrite bind_eq;
    [|eapply modify_chars_eq;
      [apply lookup_insert_eq|simpl; apply memmove_in_range; lia]].
  simpl.
  set (d2 := overwrite (chars b) len _).
  assert (size_of d2 = size_of (chars b)) as Hsz2.
  { apply overwrite_size, in_range_true; rewrite ?size_of_moved; lia. }
  erewrite bind_eq;
    [|eapply modify_chars_eq;
      [apply lookup_insert_eq|simpl; apply strncpy_in_range; eauto; lia]].
  simpl.
  set (d3 := overwrite d2 0 bs).
  assert (size_of d3 = size_of d2) as Hsz3.
  { pose proof (strncpy_bytes_length _ _ _ Hbs).
    apply overwrite_size, in_range_true; unfold size_of in *; lia. }
  erewrite bind_eq;
    [|eapply modify_chars_eq;
      [apply lookup_insert_eq|simpl; apply store_in_range; lia]].
  eexists. reflexivity.
Qed.

(** [string_cut] inside the string: success. *)
Lemma string_cut_in_range s start len st b :
  heap st !! s = Some b -> valid b ->
  to_uint start + to_size len <= meta_len b ->
  exists st', string_cut (Ref (Some s)) start len st = Done (0, Ref (Some s)) st'.
Proof.
  intros Hb Hv Hin.
  pose proof (valid_bounds _ Hv) as (Hl0 & Hl1 & Hl2 & Hl3).
  destruct Hv as (_ & Hv1 & Hv2 & Hv3 & _).
  pose proof (to_uint_range start) as Hstart. pose proof (to_size_range len) as Hlen.
  assert (to_size (to_uint start + to_size len) = to_uint start + to_size len) as Hsum
    by (apply to_size_small; unfold META_SIZE in *; lia).
  unfold string_cut.
  rewrite (bind_eq _ _ _ _ _ (get_meta_eq _ _ _ Hb)). rewrite Hsum.
  apply Z.ltb_ge in Hin. rewrite Hin. apply Z.ltb_ge in Hin.
  erewrite bind_eq;
    [|eapply modify_chars_eq; [exact Hb|apply memmove_in_range; lia]].
  set (d2 := overwrite (chars b) 0 _).
  assert (size_of d2 = size_of (chars b)) as Hsz2.
  { apply overwrite_size, in_range_true; rewrite ?size_of_moved; lia. }
  erewrite bind_eq;
    [|eapply modify_chars_eq;
      [apply lookup_insert_eq|simpl; apply store_in_range; lia]].
  erewrite bind_eq; [|eapply put_len_eq; apply lookup_insert_eq].
  eexists. reflexivity.
Qed.

(** [string_printf] always returns on a valid string and a format whose
    output fits an [int]. *)
Lemma string_printf_returns s out st b :
  heap st !! s = Some b -> valid b -> size_of out <= INT_MAX ->
  exists st', string_printf (Some s) (Some (FmtOutput out)) st = Done (size_of out) st'.
Proof.
  intros Hb Hv Hout.
  pose proof (valid_bounds _ Hv) as (Hl0 & Hl1 & Hl2 & Hl3).
  destruct Hv as (_ & Hv1 & Hv2 & Hv3 & _).
  unfold string_printf.
  rewrite (bind_eq _ _ _ _ _ (get_meta_eq _ _ _ Hb)).
  unfold vsnprintf.
  apply Z.ltb_ge in Hout. rewrite Hout.
  destruct (meta_capacity b =? 0) eqn:Hz; [apply Z.eqb_eq in Hz; lia|].
  set (w := take (Z.to_nat (meta_capacity b - 1)) out ++ [NUL]).
  assert (in_range (chars b) 0 (size_of w) = true) as Hin.
  { apply in_range_true; try lia; [apply size_of_nonneg|].
    unfold size_of at 1. unfold w. rewrite length_app, length_take. simpl. lia. }
  erewrite bind_eq;
    [|erewrite bind_eq; [reflexivity|eapply modify_chars_eq; [exact Hb|now rewrite Hin]]].
  erewrite bind_eq; [|eapply put_len_eq; apply lookup_insert_eq].
  eexists. reflexivity.
Qed.

(** * The invariants of a string *)

(** Every successful public mutating operation on a valid string leaves a
    valid string: [bytes[length] == 0] and [capacity >= length + 1]. *)
Lemma mutate_preserves_valid m s st res s' st' b :
  heap st !! s = Some b -> valid b ->
  mutate m s st = Done (res, s') st' -> 0 <= res ->
  exists s1 b', s' = Some s1 /\ heap st' !! s1 = Some b' /\ valid b'.
Proof.
  intros Hb Hv Hm Hres.
  eapply mutate_cases in Hm as
      [(? & _)|[(-> & _)|(_ & s1 & b' & -> & Hrep & Hv' & _)]]; eauto; try lia.
  exists s1, b'. eauto using replaced_lookup.
Qed.

(** The strings made by [string_dup_v] and [string_sub_v] are valid, with
    [capacity = length + 1]. *)
Lemma string_sub_v_valid arr start len st p st' :
  string_sub_v (Some arr) start len st = Done (Some p) st' ->
  exists b', heap st' !! p = Some b' /\ valid b' /\
             meta_len b' = to_size len /\ meta_capacity b' = to_size len + 1.
Proof.
  unfold string_sub_v.
  intros [[[=] _]|(p0 & b' & from & bs & [= <-] & _ & Hh & Hv & Hl & Hc & _)]%sub_string_Done.
  exists b'. rewrite Hh, lookup_insert_eq. auto.
Qed.

Lemma string_dup_v_valid arr len st p st' :
  string_dup_v (Some arr) len st = Done (Some p) st' ->
  exists b', heap st' !! p = Some b' /\ valid b' /\
             meta_len b' = to_size len /\ meta_capacity b' = to_size len + 1.
Proof.
  unfold string_dup_v.
  intros [[[=] _]|(p0 & b' & from & bs & [= <-] & _ & Hh & Hv & Hl & Hc & _)]%sub_string_Done.
  exists b'. rewrite Hh, lookup_insert_eq. auto.
Qed.

Lemma string_empty_valid st p st' :
  string_empty st = Done (Some p) st' ->
  exists b', heap st' !! p = Some b' /\ valid b' /\
             meta_len b' = 0 /\ meta_capacity b' = 1.
Proof.
  intros [[[=] _]|(p0 & b' & [= <-] & _ & Hh & Hv & Hl & Hc & _)]%string_empty_Done.
  exists b'. rewrite Hh, lookup_insert_eq. auto.
Qed.

(** Decides the validity of an explicit block. *)
Ltac check_valid :=
  repeat split; vm_compute; first [reflexivity | discriminate | intro; discriminate].

(** C1. After every successful public operation the string satisfies
    [bytes[length] == 0] and [capacity >= length + 1], and [string_empty ()]
    returns a string of length 0 and capacity 1: the first variant of the
    library breaks this.  Whatever the allocator answers, its [string_empty]
    returns a string of length 0 whose terminator is stored in the one byte it
    allocated, with a recorded capacity of 0, so that
    [capacity >= length + 1] fails. *)
Theorem legacy_string_empty_capacity st p st' :
  Legacy.string_empty st = Done (Some p) st' ->
  exists b, heap st' !! p = Some b /\
    meta_len b = 0 /\ size_of (chars b) = 1 /\ chars b !! 0%nat = Some NUL /\
    meta_capacity b = 0 /\ ~ (meta_capacity b >= meta_len b + 1) /\ ~ valid b.
Proof.
  change Legacy.string_empty with (empty_recording 0).
  intros [[[=] _]|(p0 & d & [= <-] & Hp & Hh & Hsz & Hnul)]%empty_recording_Done.
  exists (Block 0 0 d). rewrite Hh, lookup_insert_eq. simpl.
  repeat split; auto; try lia.
  intros (_ & H & _). simpl in H. lia.
Qed.

Lemma legacy_string_empty_capacity_witness :
  exists b, heap (State {[ 2%positive := Block 0 0 [NUL] ]} []) !! 2%positive = Some b /\
    meta_len b = 0 /\ size_of (chars b) = 1 /\ chars b !! 0%nat = Some NUL /\
    meta_capacity b = 0 /\ ~ (meta_capacity b >= meta_len b + 1) /\ ~ valid b.
Proof.
  apply (legacy_string_empty_capacity empty_state). vm_compute. reflexivity.
Defined.

(** The other variants record capacity 1 on the same allocation. *)
Example string_empty_capacity_1 :
  string_empty empty_state = Done (Some 2%positive) (State {[ 2%positive := Block 0 1 [NUL] ]} []).
Proof. vm_compute. reflexivity. Qed.

Example boxed_string_empty_capacity_1 :
  Boxed.string_empty empty_state
  = Done (Some 2%positive) (State {[ 2%positive := Block 0 1 [NUL] ]} []).
Proof. vm_compute. reflexivity. Qed.

(** In the first variant itself, the empty substring gets capacity 1. *)
Example legacy_empty_substring_capacity_1 :
  Legacy.string_sub_v (Some []) 0 0 empty_state
  = Done (Some 2%positive) (State {[ 2%positive := Block 0 1 [NUL] ]} []).
Proof. vm_compute. reflexivity. Qed.

(** The walk-through of the README: capacities 1, 11, 11 and 25. *)
Example readme_walkthrough :
  run readme empty_state
  = Some ([([], 0, 1);
           (bytes_of "world", 5, 11);
           (bytes_of "world!", 6, 11);
           (bytes_of "Hello world!", 12, 25)],
          State {[ 2%positive :=
                     Block 12 25 (bytes_of "Hello world!" ++ replicate 13 NUL) ]} []).
Proof. vm_compute. reflexivity. Qed.

(** * Growth *)

(** C2. After a successful [set_string_length] that has to grow, the capacity
    should be [len * 2 + 1].  From [len = 2 ^ 63] on it is not: the product
    is computed in [size_t] and wraps around, the call succeeds all the same,
    and the capacity it leaves is below [len + 1], too small for the length
    it records. *)
Theorem set_string_length_doubling_wraps str len st str' st' b :
  heap st !! str = Some b -> meta_capacity b < len + 1 ->
  2 ^ 63 <= len <= SIZE_MAX ->
  set_string_length str len st = Done (0, str') st' ->
  exists b', heap st' !! str' = Some b' /\ meta_len b' = len /\
    meta_capacity b' <> len * 2 + 1 /\ meta_capacity b' < len + 1 /\
    (len < SIZE_MAX -> meta_capacity b' = len * 2 + 1 - 2 ^ 64).
Proof.
  intros Hb Hcap Hlen (b0 & Hb0 & Hcases)%set_string_length_Done.
  rewrite Hb in Hb0. injection Hb0 as <-.
  destruct Hcases as [([=] & _)|(_ & cap' & d' & Hrep & Hcases)].
  exists (Block len cap' d'). split; [eauto using replaced_lookup|]. simpl.
  split; [reflexivity|].
  assert (to_size (len * 2 + 1) = len * 2 + 1 - 2 ^ 64) as Hw.
  { unfold to_size. symmetry. apply (Z.mod_unique _ _ 1); unfold SIZE_MAX in *; lia. }
  destruct Hcases as [(Hle & -> & _)|(Hlt & -> & _)].
  - split; [lia|]. split; [lia|]. intros Hsmall.
    rewrite to_size_small in Hle by (unfold SIZE_MAX in *; lia). lia.
  - rewrite Hw. unfold SIZE_MAX in *. repeat split; lia.
Qed.

(** Asked for [2 ^ 63] characters, ["hello"] is left with capacity 1. *)
Lemma set_string_length_doubling_wraps_witness :
  exists b',
    heap (state_after (set_string_length 1%positive (2 ^ 63) hello_state)) !! 1%positive
    = Some b' /\ meta_len b' = 2 ^ 63 /\
    meta_capacity b' <> 2 ^ 63 * 2 + 1 /\ meta_capacity b' < 2 ^ 63 + 1 /\
    (2 ^ 63 < SIZE_MAX -> meta_capacity b' = 2 ^ 63 * 2 + 1 - 2 ^ 64).
Proof.
  apply (set_string_length_doubling_wraps 1%positive (2 ^ 63) hello_state 1%positive
           _ hello).
  - vm_compute. reflexivity.
  - vm_compute. reflexivity.
  - unfold SIZE_MAX. lia.
  - vm_compute. reflexivity.
Defined.

(** Below [2 ^ 63] the growth is the intended one.  When [set_string_length]
    is called with a new length [len] while the capacity is strictly less
    than [len + 1], and the call succeeds, the capacity afterwards is
    [len * 2 + 1]; when the capacity is already [len + 1] or more it is left
    unchanged.  [len + 1] and [len * 2 + 1] are the [size_t] expressions of
    the source; for a length whose double plus one fits a [size_t] they are
    the plain integers, which is the second half of the statement. *)
Lemma set_string_length_capacity str len st str' st' b :
  heap st !! str = Some b ->
  set_string_length str len st = Done (0, str') st' ->
  exists b', heap st' !! str' = Some b' /\ meta_len b' = len /\
    (meta_capacity b < to_size (len + 1) ->
     meta_capacity b' = to_size (len * 2 + 1)) /\
    (to_size (len + 1) <= meta_capacity b ->
     meta_capacity b' = meta_capacity b) /\
    (0 <= len -> len * 2 + 1 <= SIZE_MAX ->
     (meta_capacity b < len + 1 -> meta_capacity b' = len * 2 + 1) /\
     (len + 1 <= meta_capacity b -> meta_capacity b' = meta_capacity b)).
Proof.
  intros Hb (b0 & Hb0 & Hcases)%set_string_length_Done.
  rewrite Hb in Hb0. injection Hb0 as <-.
  destruct Hcases as [([=] & _)|(_ & cap' & d' & Hrep & Hcases)].
  exists (Block len cap' d'). split; [eauto using replaced_lookup|]. simpl.
  split; [reflexivity|].
  assert ((meta_capacity b < to_size (len + 1) -> cap' = to_size (len * 2 + 1)) /\
          (to_size (len + 1) <= meta_capacity b -> cap' = meta_capacity b)) as [H1 H2]
    by (destruct Hcases as [(? & -> & _)|(? & -> & _)]; split; intros; auto; lia).
  split; [exact H1|]. split; [exact H2|].
  intros H0 Hfit.
  rewrite (to_size_small (len + 1)) in * by lia.
  rewrite (to_size_small (len * 2 + 1)) in * by lia.
  auto.
Qed.

Lemma set_string_length_capacity_witness :
  exists b', heap (State {[ 1%positive := Block 5 11 (replicate 11 NUL) ]} [])
               !! 1%positive = Some b' /\ meta_len b' = 5 /\
    (meta_capacity (Block 0 1 [NUL]) < to_size (5 + 1) ->
     meta_capacity b' = to_size (5 * 2 + 1)) /\
    (to_size (5 + 1) <= meta_capacity (Block 0 1 [NUL]) ->
     meta_capacity b' = meta_capacity (Block 0 1 [NUL])) /\
    (0 <= 5 -> 5 * 2 + 1 <= SIZE_MAX ->
     (meta_capacity (Block 0 1 [NUL]) < 5 + 1 -> meta_capacity b' = 5 * 2 + 1) /\
     (5 + 1 <= meta_capacity (Block 0 1 [NUL]) ->
      meta_capacity b' = meta_capacity (Block 0 1 [NUL]))).
Proof.
  apply (set_string_length_capacity 1%positive 5
           (State {[ 1%positive := Block 0 1 [NUL] ]} []) 1%positive).
  - vm_compute. reflexivity.
  - vm_compute. reflexivity.
Defined.

(** The plain integers are also right whenever the call leaves room for the
    terminator, [len + 1 <= capacity], as every public operation that
    succeeds after it does. *)
Lemma set_string_length_capacity_exact str len st str' st' b b' :
  heap st !! str = Some b ->
  set_string_length str len st = Done (0, str') st' ->
  heap st' !! str' = Some b' ->
  0 <= len -> len + 1 <= meta_capacity b' ->
  (meta_capacity b < len + 1 -> meta_capacity b' = len * 2 + 1) /\
  (len + 1 <= meta_capacity b -> meta_capacity b' = meta_capacity b).
Proof.
  intros Hb (b0 & Hb0 & Hcases)%set_string_length_Done Hb' Hlen Hroom.
  rewrite Hb in Hb0. injection Hb0 as <-.
  destruct Hcases as [([=] & _)|(_ & cap' & d' & Hrep & Hcases)].
  rewrite (replaced_lookup _ _ _ _ _ Hrep) in Hb'. injection Hb' as <-.
  simpl in *.
  destruct Hcases as [(Hle & -> & _)|(Hlt & -> & Hfit & _)]; [lia|].
  pose proof (to_size_range (len * 2 + 1)) as Hr.
  destruct (Z_le_gt_dec (len * 2 + 1) SIZE_MAX) as [Hok|Hwrap].
  - rewrite (to_size_small (len * 2 + 1)) in * by lia.
    rewrite (to_size_small (len + 1)) in * by lia. lia.
  - exfalso.
    assert (to_size (len * 2 + 1) = len * 2 + 1 - 2 ^ 64) as Hw.
    { replace (len * 2 + 1) with (len + (len + 1)) by lia.
      apply to_size_wrapped; unfold SIZE_MAX in *; lia. }
    unfold SIZE_MAX in *. lia.
Qed.

(** Past half the range of [size_t] the doubled length wraps around, and the
    capacity is the wrapped value of [len * 2 + 1]: asked for [2 ^ 63]
    characters, [set_string_length] succeeds with capacity 1. *)
Example set_string_length_wraps :
  set_string_length 1%positive (2 ^ 63) (State {[ 1%positive := Block 0 1 [NUL] ]} [])
  = Done (0, 1%positive) (State {[ 1%positive := Block (2 ^ 63) 1 [NUL] ]} []).
Proof. vm_compute. reflexivity. Qed.

(** * Cutting *)

(** Without wrap-around of [start + len] the range check is the documented
    one: [-ERANGE] exactly when [start + len] exceeds the length, and the
    memory is then left as it was. *)
Lemma string_cut_range_check s start len st b :
  heap st !! s = Some b -> valid b ->
  to_uint start + to_size len <= SIZE_MAX ->
  (meta_len b < to_uint start + to_size len ->
   string_cut (Ref (Some s)) start len st = Done (- ERANGE, Ref (Some s)) st) /\
  (to_uint start + to_size len <= meta_len b ->
   exists st', string_cut (Ref (Some s)) start len st = Done (0, Ref (Some s)) st').
Proof.
  intros Hb Hv Hfit. split; [|now apply string_cut_in_range].
  intros Hlt. unfold string_cut.
  rewrite (bind_eq _ _ _ _ _ (get_meta_eq _ _ _ Hb)).
  pose proof (to_uint_range start). pose proof (to_size_range len).
  rewrite (to_size_small (to_uint start + to_size len)) by lia.
  apply Z.ltb_lt in Hlt. now rewrite Hlt.
Qed.

(** C3. [string_cut] must fail with [-ERANGE] exactly when [start + len]
    exceeds the length, by a comparison that does not wrap: the code adds the
    two operands as [size_t] values, so the sum wraps.  On every valid string,
    [string_cut (str, 1, SIZE_MAX)] passes the range check, since
    [1 + SIZE_MAX] is 0 for the code, and runs into a [memmove] of [SIZE_MAX]
    bytes outside the storage instead of returning [-ERANGE]. *)
Theorem string_cut_sum_wraps s st b :
  heap st !! s = Some b -> valid b ->
  meta_len b < 1 + SIZE_MAX /\
  to_size (to_uint 1 + to_size SIZE_MAX) = 0 /\
  string_cut (Ref (Some s)) 1 SIZE_MAX st = Fault.
Proof.
  intros Hb Hv.
  pose proof (valid_bounds _ Hv) as (Hl0 & Hl1 & Hl2 & Hl3).
  destruct Hv as (_ & Hv1 & Hv2 & Hv3 & _).
  split; [unfold META_SIZE in *; lia|]. split; [reflexivity|].
  unfold string_cut.
  rewrite (bind_eq _ _ _ _ _ (get_meta_eq _ _ _ Hb)).
  change (to_size (to_uint 1 + to_size SIZE_MAX)) with 0.
  change (to_uint 1) with 1. change (to_size SIZE_MAX) with SIZE_MAX.
  apply Z.ltb_ge in Hl0. rewrite Hl0.
  unfold bind at 1, modify_chars at 1.
  rewrite (bind_eq _ _ _ _ _ (get_meta_eq _ _ _ Hb)).
  unfold memmove.
  assert (in_range (chars b) 1 SIZE_MAX = false) as ->; [|reflexivity].
  apply not_true_is_false. rewrite in_range_spec. unfold META_SIZE in *. lia.
Qed.

Lemma string_cut_sum_wraps_witness :
  meta_len hello < 1 + SIZE_MAX /\
  to_size (to_uint 1 + to_size SIZE_MAX) = 0 /\
  string_cut (Ref (Some 1%positive)) 1 SIZE_MAX hello_state = Fault.
Proof.
  apply (string_cut_sum_wraps 1%positive hello_state hello).
  - vm_compute. reflexivity.
  - check_valid.
Defined.

(** The documented example, a string of length 5 cut at [start = 3],
    [len = 4], is refused and nothing changes. *)
Example string_cut_out_of_range :
  string_cut (Ref (Some 1%positive)) 3 4 hello_state
  = Done (- ERANGE, Ref (Some 1%positive)) hello_state.
Proof. vm_compute. reflexivity. Qed.

(** The variant with a [struct string] handle has the same check and the
    same wrap-around. *)
Example boxed_string_cut_sum_wraps :
  Boxed.string_cut (Some 1%positive) 1 SIZE_MAX hello_state = Fault.
Proof. vm_compute. reflexivity. Qed.

(** * Formatted writes *)

(** C4. On a valid string, [string_printf] returns the number of bytes of the
    fully formatted output, whether it fits or not.  If that count is strictly
    less than the capacity, the whole output is written and the length is the
    count; otherwise the first [capacity - 1] bytes are written and the length
    is [capacity - 1].  The terminator follows the content and the capacity
    is the one before the call. *)
Theorem string_printf_bounded s out st b :
  heap st !! s = Some b -> valid b -> size_of out <= INT_MAX ->
  exists st' b',
    string_printf (Some s) (Some (FmtOutput out)) st = Done (size_of out) st' /\
    heap st' !! s = Some b' /\
    meta_capacity b' = meta_capacity b /\
    chars b' !! Z.to_nat (meta_len b') = Some NUL /\
    (size_of out < meta_capacity b ->
     meta_len b' = size_of out /\ content b' = out) /\
    (meta_capacity b <= size_of out ->
     meta_len b' = meta_capacity b - 1 /\
     content b' = take (Z.to_nat (meta_capacity b - 1)) out).
Proof.
  intros Hb Hv Hout.
  destruct (string_printf_returns s out st b Hb Hv Hout) as [st' Hrun].
  exists st'.
  destruct (string_printf_Done _ _ _ _ _ _ Hb Hv Hrun) as
      [(Hneg & _)|(out' & [= <-] & _ & _ & b' & Hrep & Hv' & Hc & Hl & Hcont)].
  { pose proof (size_of_nonneg out). lia. }
  exists b'. split; [exact Hrun|]. split; [eauto using replaced_lookup|].
  split; [exact Hc|]. split; [apply Hv'|].
  split; intros Hcmp.
  - split; [lia|]. rewrite Hcont. apply take_ge. unfold size_of in *. lia.
  - split; [lia|exact Hcont].
Qed.

Lemma string_printf_bounded_witness :
  exists st' b',
    string_printf (Some 1%positive) (Some (FmtOutput (bytes_of "Hello 2 world!"))) reserved_32
    = Done (size_of (bytes_of "Hello 2 world!")) st' /\
    heap st' !! 1%positive = Some b' /\
    meta_capacity b' = meta_capacity (Block 0 32 (replicate 32 NUL)) /\
    chars b' !! Z.to_nat (meta_len b') = Some NUL /\
    (size_of (bytes_of "Hello 2 world!") < meta_capacity (Block 0 32 (replicate 32 NUL)) ->
     meta_len b' = size_of (bytes_of "Hello 2 world!") /\
     content b' = bytes_of "Hello 2 world!") /\
    (meta_capacity (Block 0 32 (replicate 32 NUL)) <= size_of (bytes_of "Hello 2 world!") ->
     meta_len b' = meta_capacity (Block 0 32 (replicate 32 NUL)) - 1 /\
     content b' = take (Z.to_nat (meta_capacity (Block 0 32 (replicate 32 NUL)) - 1))
                       (bytes_of "Hello 2 world!")).
Proof.
  apply (string_printf_bounded 1%positive (bytes_of "Hello 2 world!") reserved_32).
  - vm_compute. reflexivity.
  - check_valid.
  - vm_compute. discriminate.
Defined.

(** The example of the README: 14 bytes into a capacity of 32. *)
Example string_printf_fits :
  string_printf (Some 1%positive) (Some (FmtOutput (bytes_of "Hello 2 world!"))) reserved_32
  = Done 14 (State {[ 1%positive :=
                        Block 14 32 (bytes_of "Hello 2 world!" ++ replicate 18 NUL) ]} []).
Proof. vm_compute. reflexivity. Qed.

(** A write that does not fit: 14 bytes into a capacity of 6. *)
Example string_printf_truncates :
  string_printf (Some 1%positive) (Some (FmtOutput (bytes_of "Hello 2 world!"))) hello_state
  = Done 14 (State {[ 1%positive := Block 5 6 (bytes_of "Hello" ++ [NUL]) ]} []).
Proof. vm_compute. reflexivity. Qed.

(** * Failed allocations *)

(** C5. A mutating operation that fails with [-ENOMEM] should leave the
    string as it was.  [string_reserve] does not when the request
    [sizeof (struct meta) + size] wraps around to 0 bytes, as it does for the
    size [2 ^ 64 - 16]: on every valid string the call then returns
    [-ENOMEM] with the handle of the caller unchanged, while the string has
    been released; the handle dangles, and [string_len] on it is undefined
    behaviour. *)
Theorem reserve_of_zero_bytes_releases s size st b :
  heap st !! s = Some b -> valid b ->
  to_size (META_SIZE + to_size size) = 0 ->
  exists st',
    string_reserve (Ref (Some s)) size st = Done (- ENOMEM, Ref (Some s)) st' /\
    heap st' = delete s (heap st) /\ heap st' !! s = None /\
    heap st' <> heap st /\ string_len (Some s) st' = Fault.
Proof.
  intros Hb (_ & _ & Hcap & Hfit & _) Hz.
  assert (meta_capacity b < to_size size) as Hlt.
  { pose proof (to_size_range size) as Hr. pose proof (size_of_nonneg (chars b)).
    destruct (Z_le_gt_dec (META_SIZE + to_size size) SIZE_MAX) as [Hok|Hbig].
    - rewrite to_size_small in Hz; unfold META_SIZE in *; lia.
    - rewrite to_size_wrapped in Hz; unfold META_SIZE, SIZE_MAX in *; lia. }
  exists (State (delete s (heap st)) (replies st)).
  assert (heap (State (delete s (heap st)) (replies st)) !! s = None) as Hgone
    by (simpl; apply lookup_delete_eq).
  split.
  - unfold string_reserve, bind, get_meta, ret. rewrite Hb.
    apply Z.leb_gt in Hlt. rewrite Hlt.
    now rewrite (set_string_capacity_zero _ _ _ _ Hb Hz).
  - split; [reflexivity|]. split; [exact Hgone|].
    split; [intros Heq; rewrite Heq, Hb in Hgone; discriminate|].
    unfold string_len, bind, get_meta. now rewrite Hgone.
Qed.

Lemma reserve_of_zero_bytes_releases_witness :
  exists st',
    string_reserve (Ref (Some 1%positive)) (2 ^ 64 - 16) hello_state
    = Done (- ENOMEM, Ref (Some 1%positive)) st' /\
    heap st' = delete 1%positive (heap hello_state) /\
    heap st' !! 1%positive = None /\
    heap st' <> heap hello_state /\ string_len (Some 1%positive) st' = Fault.
Proof.
  apply (reserve_of_zero_bytes_releases 1%positive (2 ^ 64 - 16) hello_state hello).
  - vm_compute. reflexivity.
  - check_valid.
  - vm_compute. reflexivity.
Defined.

(** The same run, evaluated: ["hello"] is gone and [-ENOMEM] is returned. *)
Example reserve_of_zero_bytes :
  string_reserve (Ref (Some 1%positive)) (2 ^ 64 - 16) hello_state
  = Done (- ENOMEM, Ref (Some 1%positive)) empty_state.
Proof. vm_compute. reflexivity. Qed.

(** That request apart, a mutating operation ([string_copy_v],
    [string_append_v], [string_prepend_v], [string_reserve], [string_fit],
    or any other of the family) that fails with [-ENOMEM] on a valid string
    leaves the heap, and with it the content, length and capacity of the
    string, as it was, and the caller still holds the same string. *)
Lemma out_of_memory_changes_nothing m s st s' st' b :
  heap st !! s = Some b -> valid b ->
  (forall size, m = Reserve size -> to_size (META_SIZE + to_size size) <> 0) ->
  mutate m s st = Done (- ENOMEM, s') st' ->
  heap st' = heap st /\ s' = Some s /\ heap st' !! s = Some b.
Proof.
  intros Hb Hv Hnz Hm.
  eapply mutate_cases in Hm as
      [(_ & _ & -> & [Hh|[(size & -> & Hz) _]])|[([=] & _)|(Hpos & _)]]; eauto.
  - rewrite Hh. auto.
  - now apply Hnz in Hz.
  - unfold ENOMEM in Hpos. lia.
Qed.

Lemma out_of_memory_changes_nothing_witness :
  heap hello_state = heap hello_no_memory /\ Some 1%positive = Some 1%positive /\
  heap hello_state !! 1%positive = Some hello.
Proof.
  apply (out_of_memory_changes_nothing (Append (bytes_of " world") 6)
           1%positive hello_no_memory (Some 1%positive) hello_state hello).
  - vm_compute. reflexivity.
  - check_valid.
  - discriminate.
  - vm_compute. reflexivity.
Defined.

(** Each of the five operations that reallocate fails in this way when
    [realloc] does. *)
Example copy_out_of_memory :
  mutate (Copy (bytes_of "hello world") 11) 1%positive hello_no_memory
  = Done (- ENOMEM, Some 1%positive) hello_state.
Proof. vm_compute. reflexivity. Qed.

Example prepend_out_of_memory :
  mutate (Prepend (bytes_of "oh, ") 4) 1%positive hello_no_memory
  = Done (- ENOMEM, Some 1%positive) hello_state.
Proof. vm_compute. reflexivity. Qed.

Example reserve_out_of_memory :
  mutate (Reserve 32) 1%positive hello_no_memory
  = Done (- ENOMEM, Some 1%positive) hello_state.
Proof. vm_compute. reflexivity. Qed.

Example fit_out_of_memory :
  mutate Fit 1%positive hello_no_memory = Done (- ENOMEM, Some 1%positive) hello_state.
Proof. vm_compute. reflexivity. Qed.

(** * Capacity *)

(** C7. A successful [string_fit] on a valid string leaves
    [capacity == length + 1], with the length and the content unchanged. *)
Theorem string_fit_exact s st r st' b :
  heap st !! s = Some b -> valid b ->
  string_fit (Ref (Some s)) st = Done (0, r) st' ->
  exists s' b', r = Ref (Some s') /\ heap st' !! s' = Some b' /\
    meta_capacity b' = meta_len b' + 1 /\
    meta_len b' = meta_len b /\ content b' = content b.
Proof.
  intros Hb Hv Hfit.
  eapply string_fit_Done in Hfit as
      [([=] & _)|(_ & s' & b' & -> & Hrep & _ & Hl & Hc & Hcont)]; eauto.
  exists s', b'. split; [reflexivity|]. split; [eauto using replaced_lookup|].
  rewrite Hl. auto.
Qed.

Lemma string_fit_exact_witness :
  exists s' b', Ref (Some 1%positive) = Ref (Some s') /\
    heap hello_state !! s' = Some b' /\
    meta_capacity b' = meta_len b' + 1 /\
    meta_len b' = meta_len (Block 5 11 (bytes_of "hello" ++ replicate 6 NUL)) /\
    content b' = content (Block 5 11 (bytes_of "hello" ++ replicate 6 NUL)).
Proof.
  apply (string_fit_exact 1%positive hello_roomy (Ref (Some 1%positive)) hello_state).
  - vm_compute. reflexivity.
  - check_valid.
  - vm_compute. reflexivity.
Defined.

(** The string of the first variant's [string_empty], of capacity 0, gets
    capacity 1 from [string_fit]. *)
Example legacy_empty_then_fit :
  string_fit (Ref (Some 2%positive)) (State {[ 2%positive := Block 0 0 [NUL] ]} [])
  = Done (0, Ref (Some 2%positive)) (State {[ 2%positive := Block 0 1 [NUL] ]} []).
Proof. vm_compute. reflexivity. Qed.

Lemma copy_keeps_capacity src len s st res s' st' b :
  heap st !! s = Some b -> valid b ->
  mutate (Copy src len) s st = Done (res, s') st' -> 0 <= res ->
  to_size len + 1 <= meta_capacity b ->
  exists s1 b', s' = Some s1 /\ heap st' !! s1 = Some b' /\
                meta_capacity b' = meta_capacity b.
Proof.
  intros Hb Hv Hm Hres Hroom. simpl in Hm.
  apply bind_Done in Hm as ([res1 r] & st1 & Hop & [[= -> ->] ->]%ret_Done).
  apply bind_Done in Hop as ([res2 d] & st2 & Hop & [[= -> ->] ->]%ret_Done).
  eapply copy_string_Done in Hop as
      [(-> & _)|(_ & b' & bs & Hrep & _ & _ & _ & Hsame & _)];
    eauto using valid_describes; [unfold ENOMEM in Hres; lia|].
  exists d, b'. split; [reflexivity|]. split; [eauto using replaced_lookup|].
  apply Hsame. pose proof (to_size_range len).
  etransitivity; [apply to_size_le; lia|exact Hroom].
Qed.

(** C9. A successful public mutating operation other than [string_fit] never
    reduces the capacity of a valid string; and copying [len] characters into
    a string whose capacity is at least [len + 1] leaves the capacity as it
    is. *)
Theorem capacity_never_shrinks m s st res s' st' b :
  heap st !! s = Some b -> valid b -> m <> Fit ->
  mutate m s st = Done (res, s') st' -> 0 <= res ->
  exists s1 b', s' = Some s1 /\ heap st' !! s1 = Some b' /\
    meta_capacity b <= meta_capacity b' /\
    (forall src len, m = Copy src len -> to_size len + 1 <= meta_capacity b ->
                     meta_capacity b' = meta_capacity b).
Proof.
  intros Hb Hv Hm Hrun Hres.
  pose proof Hrun as Hrun'.
  eapply mutate_cases in Hrun as
      [(? & _)|[(-> & _)|(_ & s1 & b' & -> & Hrep & _ & Hcap)]]; eauto; try lia.
  exists s1, b'. split; [reflexivity|]. split; [eauto using replaced_lookup|].
  split; [auto|].
  intros src len -> Hroom.
  destruct (copy_keeps_capacity _ _ _ _ _ _ _ _ Hb Hv Hrun' Hres Hroom)
    as (s2 & b2 & [= <-] & Hb2 & Hc2).
  rewrite (replaced_lookup _ _ _ _ _ Hrep) in Hb2. now injection Hb2 as <-.
Qed.

Lemma capacity_never_shrinks_witness :
  exists s1 b', Some 1%positive = Some s1 /\
    heap (State {[ 1%positive := Block 3 11 (bytes_of "abc" ++ [NUL] ++ bytes_of "o" ++ replicate 6 NUL) ]} [])
      !! s1 = Some b' /\
    meta_capacity (Block 5 11 (bytes_of "hello" ++ replicate 6 NUL)) <= meta_capacity b' /\
    (forall src len, Copy (bytes_of "abc") 3 = Copy src len ->
       to_size len + 1 <= meta_capacity (Block 5 11 (bytes_of "hello" ++ replicate 6 NUL)) ->
       meta_capacity b' = meta_capacity (Block 5 11 (bytes_of "hello" ++ replicate 6 NUL))).
Proof.
  apply (capacity_never_shrinks (Copy (bytes_of "abc") 3) 1%positive hello_roomy 0).
  - vm_compute. reflexivity.
  - check_valid.
  - discriminate.
  - vm_compute. reflexivity.
  - lia.
Defined.

(** * Release *)

(** C10. [string_destroy (NULL)] returns at once: nothing is freed, the
    memory is as before, and there is no fault. *)
Theorem string_destroy_null st : string_destroy None st = Done tt st.
Proof. reflexivity. Qed.

(** On a live string it frees the one allocation. *)
Example string_destroy_live :
  string_destroy (Some 1%positive) hello_state = Done tt empty_state.
Proof. vm_compute. reflexivity. Qed.

(** * Prepending and cutting back *)

(** C6, amended.  For a valid string of content [C] and length [L] and a
    source of [n] characters with [n <= UINT_MAX], a successful
    [string_prepend_v (dest, X, n)] followed by a successful
    [string_cut (dest, n, L)] restores the content [C] and the length [L].
    In between the content is what [strncpy] copied from [X], followed by
    [C]: the old characters were moved as a whole, whether or not the two
    ranges overlap. *)
Theorem prepend_then_cut_restores s X n st s1 st1 r2 st2 b :
  heap st !! s = Some b -> valid b -> 0 <= n <= UINT_MAX ->
  string_prepend_v (Ref (Some s)) (Some X) n st = Done (0, Ref (Some s1)) st1 ->
  string_cut (Ref (Some s1)) n (meta_len b) st1 = Done (0, r2) st2 ->
  exists b1 b2 P,
    heap st1 !! s1 = Some b1 /\
    strncpy_bytes X (Z.to_nat n) = Some P /\ content b1 = P ++ content b /\
    r2 = Ref (Some s1) /\ heap st2 !! s1 = Some b2 /\
    meta_len b2 = meta_len b /\ content b2 = content b.
Proof.
  intros Hb Hv Hn Hpre Hcut.
  pose proof (valid_bounds _ Hv) as (Hl0 & Hl1 & Hl2 & Hl3).
  pose proof Hv as (_ & Hv1 & Hv2 & Hv3 & _).
  assert (to_size n = n) as Hsn
    by (apply to_size_small; unfold UINT_MAX, SIZE_MAX in *; lia).
  assert (to_size (meta_len b) = meta_len b) as Hsl
    by (apply to_size_small; unfold META_SIZE in *; lia).
  unfold string_prepend_v in Hpre. rewrite Hsn in Hpre.
  apply bind_Done in Hpre as ([res d] & st0 & Hpre & [[= <- <-] ->]%ret_Done).
  eapply prepend_string_Done in Hpre as
      [([=] & _)|(_ & b1 & P & Hrep1 & Hv1' & Hlen1 & _ & HP & Hcont1)]; eauto.
  pose proof (replaced_lookup _ _ _ _ _ Hrep1) as Hb1.
  eapply string_cut_Done in Hcut as
      [-> [([=] & _)|(_ & _ & b2 & Hrep2 & _ & Hlen2 & _ & Hcont2)]]; eauto.
  exists b1, b2, P. repeat (split; [first [assumption | reflexivity]|]).
  split; [eauto using replaced_lookup|]. split; [congruence|].
  rewrite Hcont2, Hcont1, Hsl, to_uint_small by exact Hn.
  pose proof (strncpy_bytes_length _ _ _ HP) as HPl.
  rewrite drop_app_length' by lia. apply take_ge. lia.
Qed.

Lemma prepend_then_cut_restores_witness :
  exists b1 b2 P,
    heap after_prepend !! 1%positive = Some b1 /\
    strncpy_bytes (bytes_of "oh") (Z.to_nat 2) = Some P /\
    content b1 = P ++ content (Block 5 11 (bytes_of "hello" ++ replicate 6 NUL)) /\
    Ref (Some 1%positive) = Ref (Some 1%positive) /\
    heap after_cut !! 1%positive = Some b2 /\
    meta_len b2 = meta_len (Block 5 11 (bytes_of "hello" ++ replicate 6 NUL)) /\
    content b2 = content (Block 5 11 (bytes_of "hello" ++ replicate 6 NUL)).
Proof.
  apply (prepend_then_cut_restores 1%positive (bytes_of "oh") 2 hello_roomy
           1%positive after_prepend (Ref (Some 1%positive)) after_cut).
  - vm_compute. reflexivity.
  - check_valid.
  - unfold UINT_MAX. lia.
  - vm_compute. reflexivity.
  - vm_compute. reflexivity.
Defined.

Example prepend_overlapping :
  heap after_prepend !! 1%positive
  = Some (Block 7 11 (bytes_of "ohhello" ++ replicate 4 NUL)).
Proof. vm_compute. reflexivity. Qed.

Example cut_back :
  heap after_cut !! 1%positive
  = Some (Block 5 11 (bytes_of "hello" ++ [NUL] ++ bytes_of "o" ++ replicate 4 NUL)).
Proof. vm_compute. reflexivity. Qed.

(** On the same overlapping ranges a byte-by-byte forward copy would have
    repeated the first characters. *)
Example forward_copy_corrupts :
  take 7 (forward_copy (bytes_of "hello" ++ replicate 6 NUL) 2 0 5) = bytes_of "heheheh" /\
  option_map (take 7) (memmove (bytes_of "hello" ++ replicate 6 NUL) 2 0 5)
  = Some (bytes_of "hehello").
Proof. vm_compute. split; reflexivity. Qed.

(** The [start] parameter of [string_cut] is an [unsigned int]: a prefix of
    [2 ^ 32] characters or more cannot be cut back, since its length is
    reduced modulo [2 ^ 32] at the call. *)

Lemma roomy_block_valid n :
  0 <= n -> META_SIZE + n + 2 <= SIZE_MAX -> valid (roomy_block n).
Proof.
  intros Hn Hfit. unfold valid, roomy_block, size_of. simpl.
  rewrite length_replicate.
  repeat split; try lia.
  apply lookup_replicate_2. lia.
Qed.

Lemma long_prefix_copied n :
  0 <= n -> strncpy_bytes (long_prefix n) (Z.to_nat n) = Some (long_prefix n).
Proof.
  intros Hn. unfold long_prefix.
  rewrite strncpy_bytes_no_nul.
  - now rewrite take_ge by (rewrite length_replicate; lia).
  - rewrite length_replicate. lia.
  - rewrite take_ge by (rewrite length_replicate; lia).
    apply Forall_replicate. discriminate.
Qed.

Lemma prepend_then_cut_beyond_uint n :
  0 < n -> META_SIZE + n + 2 <= SIZE_MAX -> to_uint n = 0 ->
  exists st1 st2 b2,
    valid (roomy_block n) /\
    length (long_prefix n) = Z.to_nat n /\
    string_prepend_v (Ref (Some 1%positive)) (Some (long_prefix n)) n (roomy_state n)
    = Done (0, Ref (Some 1%positive)) st1 /\
    string_cut (Ref (Some 1%positive)) n (meta_len (roomy_block n)) st1
    = Done (0, Ref (Some 1%positive)) st2 /\
    heap st2 !! 1%positive = Some b2 /\
    content b2 = bytes_of "A" /\
    content (roomy_block n) = bytes_of "B".
Proof.
  intros Hn Hfit Hu.
  assert (valid (roomy_block n)) as Hv by (apply roomy_block_valid; lia).
  assert (heap (roomy_state n) !! 1%positive = Some (roomy_block n)) as Hb
    by apply lookup_singleton_eq.
  assert (to_size n = n) as Hsn
    by (apply to_size_small; unfold META_SIZE in *; lia).
  assert (exists st1, prepend_string 1%positive (long_prefix n) n (roomy_state n)
                      = Done (0, 1%positive) st1) as [st1 Hpre].
  { eapply prepend_string_in_place;
      [exact Hb|exact Hv|lia|simpl; lia|apply long_prefix_copied; lia]. }
  eapply prepend_string_Done in Hpre as Hinv; eauto.
  destruct Hinv as [([=] & _)|(_ & b1 & P & Hrep1 & Hv1 & Hlen1 & _ & HP & Hcont1)].
  rewrite long_prefix_copied in HP by lia. injection HP as <-.
  pose proof (replaced_lookup _ _ _ _ _ Hrep1) as Hb1.
  destruct (string_cut_in_range 1%positive n 1 st1 b1 Hb1 Hv1) as [st2 Hcut].
  { rewrite Hu, Hlen1. change (to_size 1) with 1. simpl. lia. }
  eapply string_cut_Done in Hcut as Hinv; eauto.
  destruct Hinv as [_ [([=] & _)|(_ & _ & b2 & Hrep2 & _ & _ & _ & Hcont2)]].
  exists st1, st2, b2.
  split; [exact Hv|].
  split; [unfold long_prefix; apply length_replicate|].
  split; [unfold string_prepend_v; rewrite Hsn;
          now rewrite (bind_eq _ _ _ _ _ Hpre)|].
  split; [exact Hcut|].
  split; [eauto using replaced_lookup|].
  split; [|reflexivity].
  rewrite Hcont2, Hcont1, Hu. change (to_size 1) with 1.
  unfold long_prefix.
  destruct (Z.to_nat n) as [|k] eqn:Hk; [lia|]. reflexivity.
Qed.

(** C6 as stated fails at [n = 2 ^ 32]: the prepend of [2 ^ 32] characters
    ['A'] to the valid string ["B"] succeeds, the cut at [(2 ^ 32, 1)]
    succeeds, and the content is then ["A"], not ["B"]. *)
Lemma prepend_then_cut_counterexample :
  exists st1 st2 b2,
    valid (roomy_block (2 ^ 32)) /\
    length (long_prefix (2 ^ 32)) = Z.to_nat (2 ^ 32) /\
    string_prepend_v (Ref (Some 1%positive)) (Some (long_prefix (2 ^ 32))) (2 ^ 32)
                     (roomy_state (2 ^ 32))
    = Done (0, Ref (Some 1%positive)) st1 /\
    string_cut (Ref (Some 1%positive)) (2 ^ 32) (meta_len (roomy_block (2 ^ 32))) st1
    = Done (0, Ref (Some 1%positive)) st2 /\
    heap st2 !! 1%positive = Some b2 /\
    content b2 = bytes_of "A" /\
    content (roomy_block (2 ^ 32)) = bytes_of "B".
Proof.
  apply (prepend_then_cut_beyond_uint (2 ^ 32)).
  - reflexivity.
  - unfold META_SIZE, SIZE_MAX. lia.
  - reflexivity.
Qed.

(** * Duplication *)

(** C8, amended.  A successful [string_dup] of a valid string returns a new
    valid string at an address that was free, of the same length, and leaves
    the original as it was.  [strncpy] makes the copy: its content is the
    content of the original up to its first NUL byte, followed by NUL bytes,
    hence the very content of the original when that holds no NUL byte.  The
    two strings are separate: whatever mutating operation is applied to one
    of them afterwards, the other keeps its block. *)
Theorem string_dup_separate s st p st' b :
  heap st !! s = Some b -> valid b ->
  string_dup (Some s) st = Done (Some p) st' ->
  p <> s /\ heap st !! p = None /\ heap st' !! s = Some b /\
  exists b', heap st' !! p = Some b' /\ valid b' /\
    meta_len b' = meta_len b /\
    content b' = until_nul (content b)
                 ++ replicate (Z.to_nat (meta_len b) - length (until_nul (content b))) NUL /\
    (Forall (fun c => c <> NUL) (content b) -> content b' = content b) /\
    (forall m res p' st'', mutate m p st' = Done (res, p') st'' ->
                           heap st'' !! s = Some b) /\
    (forall m res s' st'', mutate m s st' = Done (res, s') st'' ->
                           heap st'' !! p = Some b').
Proof.
  intros Hb Hv Hdup.
  eapply string_dup_Done in Hdup as
      [([=] & _)|(p0 & b' & [= <-] & Hne & Hp & Hh & Hv' & Hl & _ & Hcont)]; eauto.
  assert (heap st' !! s = Some b) as Hs by (now rewrite Hh, lookup_insert_ne).
  assert (heap st' !! p = Some b') as Hp' by (now rewrite Hh, lookup_insert_eq).
  split; [exact Hne|]. split; [exact Hp|]. split; [exact Hs|].
  exists b'. split; [exact Hp'|]. split; [exact Hv'|]. split; [exact Hl|].
  split; [exact Hcont|]. split; [|split].
  - intros Hall. rewrite Hcont, until_nul_no_nul by exact Hall.
    pose proof (valid_bounds _ Hv) as (_ & _ & _ & Hlen).
    rewrite Hlen, Nat.sub_diag. apply app_nil_r.
  - intros m res p' st'' Hm.
    apply (mutate_frame m p st' res p' st'' b' s b Hp' Hv' Hm); [congruence|exact Hs].
  - intros m res s' st'' Hm.
    exact (mutate_frame m s st' res s' st'' b p b' Hs Hv Hm Hne Hp').
Qed.

Lemma string_dup_separate_witness :
  2%positive <> 1%positive /\ heap hello_state !! 2%positive = None /\
  heap (State {[ 1%positive := hello; 2%positive := hello ]} []) !! 1%positive = Some hello /\
  exists b', heap (State {[ 1%positive := hello; 2%positive := hello ]} []) !! 2%positive
             = Some b' /\ valid b' /\
    meta_len b' = meta_len hello /\
    content b' = until_nul (content hello)
                 ++ replicate (Z.to_nat (meta_len hello) - length (until_nul (content hello))) NUL /\
    (Forall (fun c => c <> NUL) (content hello) -> content b' = content hello) /\
    (forall m res p' st'',
        mutate m 2%positive (State {[ 1%positive := hello; 2%positive := hello ]} [])
        = Done (res, p') st'' -> heap st'' !! 1%positive = Some hello) /\
    (forall m res s' st'',
        mutate m 1%positive (State {[ 1%positive := hello; 2%positive := hello ]} [])
        = Done (res, s') st'' -> heap st'' !! 2%positive = Some b').
Proof.
  apply (string_dup_separate 1%positive hello_state 2%positive
           (State {[ 1%positive := hello; 2%positive := hello ]} []) hello).
  - vm_compute. reflexivity.
  - check_valid.
  - vm_compute. reflexivity.
Defined.

(** A formatted write with a [%c] of 0 leaves a NUL byte inside the
    content. *)
Example string_printf_nul_inside :
  string_printf (Some 1%positive) (Some (FmtOutput ["a"%byte; NUL; "b"%byte]))
                (State {[ 1%positive := Block 0 4 (replicate 4 NUL) ]} [])
  = Done 3 (State {[ 1%positive := nul_inside ]} []).
Proof. vm_compute. reflexivity. Qed.

(** C8 as stated fails on it: the string is valid, the duplication succeeds,
    and the content of the duplicate differs from the original's after the
    NUL byte. *)
Lemma string_dup_counterexample :
  valid nul_inside /\
  string_dup (Some 1%positive) (State {[ 1%positive := nul_inside ]} [])
  = Done (Some 2%positive)
         (State {[ 1%positive := nul_inside;
                   2%positive := Block 3 4 ["a"%byte; NUL; NUL; NUL] ]} []) /\
  meta_len (Block 3 4 ["a"%byte; NUL; NUL; NUL]) = meta_len nul_inside /\
  content (Block 3 4 ["a"%byte; NUL; NUL; NUL]) = ["a"%byte; NUL; NUL] /\
  content nul_inside = ["a"%byte; NUL; "b"%byte] /\
  content (Block 3 4 ["a"%byte; NUL; NUL; NUL]) <> content nul_inside.
Proof.
  split; [check_valid|].
  split; [vm_compute; reflexivity|].
  repeat split. vm_compute. discriminate.
Qed.

(** The variant with a [struct string] handle copies with [strncpy] too. *)
Example boxed_string_dup_nul_inside :
  Boxed.string_dup (Some 1%positive) (State {[ 1%positive := nul_inside ]} [])
  = Done (Some 2%positive)
         (State {[ 1%positive := nul_inside;
                   2%positive := Block 3 4 ["a"%byte; NUL; NUL; NUL] ]} []).
Proof. vm_compute. reflexivity. Qed.

Example legacy_string_dup_nul_inside :
  Legacy.string_dup (Some 1%positive) (State {[ 1%positive := nul_inside ]} [])
  = Done (Some 2%positive)
         (State {[ 1%positive := nul_inside;
                   2%positive := Block 3 4 ["a"%byte; NUL; NUL; NUL] ]} []).
Proof. vm_compute. reflexivity. Qed.

(** * Absent arguments and queries *)

Example string_len_hello :
  string_len (Some 1%positive) hello_state = Done 5 hello_state /\
  string_capacity (Some 1%positive) hello_state = Done 6 hello_state.
Proof. vm_compute. split; reflexivity. Qed.

Example null_arguments :
  string_len None hello_state = Done (- EINVAL) hello_state /\
  string_capacity None hello_state = Done (- EINVAL) hello_state /\
  string_clear None hello_state = Done (- EINVAL) hello_state /\
  string_dup None hello_state = Done None hello_state /\
  string_copy_v NullRef (Some (bytes_of "x")) 1 hello_state
  = Done (- EINVAL, NullRef) hello_state /\
  string_append_v (Ref None) (Some (bytes_of "x")) 1 hello_state
  = Done (- EINVAL, Ref None) hello_state /\
  string_prepend_v (Ref (Some 1%positive)) None 1 hello_state
  = Done (- EINVAL, Ref (Some 1%positive)) hello_state /\
  string_cut (Ref None) 0 0 hello_state = Done (- EINVAL, Ref None) hello_state /\
  string_reserve NullRef 8 hello_state = Done (- EINVAL, NullRef) hello_state /\
  string_fit (Ref None) hello_state = Done (- EINVAL, Ref None) hello_state.
Proof. vm_compute. repeat split; reflexivity. Qed.

(** When [realloc] moves the string, the caller's variable follows it and
    the old address is dead. *)
Example reserve_moves :
  mutate (Reserve 8) 1%positive (State {[ 1%positive := hello ]} [AllocOk true []])
  = Done (0, Some 2%positive)
         (State {[ 2%positive := Block 5 8 (bytes_of "hello" ++ replicate 3 NUL) ]} []).
Proof. vm_compute. reflexivity. Qed.

(** * More of the main variant *)

(** ** Invariants and separation *)

(** X1. Every successful public mutating operation of the main variant, on
    a valid string, leaves a valid string: the terminator follows the
    content, and the capacity covers the length and the terminator. *)
Theorem successful_mutation_keeps_invariants m s st res s' st' b :
  heap st !! s = Some b -> valid b ->
  mutate m s st = Done (res, s') st' -> 0 <= res ->
  exists s1 b', s' = Some s1 /\ heap st' !! s1 = Some b' /\ valid b' /\
    chars b' !! Z.to_nat (meta_len b') = Some NUL /\
    meta_capacity b' >= meta_len b' + 1.
Proof.
  intros Hb Hv Hm Hres.
  destruct (mutate_preserves_valid _ _ _ _ _ _ _ Hb Hv Hm Hres)
    as (s1 & b' & -> & Hb' & Hv').
  exists s1, b'. repeat split; auto; destruct Hv' as (? & ? & ? & ? & ?); auto; lia.
Qed.

Lemma successful_mutation_keeps_invariants_witness :
  exists s1 b',
    Some 1%positive = Some s1 /\
    heap (state_after (mutate (Prepend (bytes_of "oh, ") 4) 1%positive hello_state)) !! s1
    = Some b' /\ valid b' /\
    chars b' !! Z.to_nat (meta_len b') = Some NUL /\
    meta_capacity b' >= meta_len b' + 1.
Proof.
  apply (successful_mutation_keeps_invariants (Prepend (bytes_of "oh, ") 4)
           1%positive hello_state 0 (Some 1%positive) _ hello).
  - vm_compute. reflexivity.
  - check_valid.
  - vm_compute. reflexivity.
  - lia.
Defined.

(** X2. A public mutating operation, whether it succeeds or fails, touches
    no string but its own: every other live string keeps its address and
    its block. *)
Theorem other_strings_untouched m s st res s' st' b q c :
  heap st !! s = Some b -> valid b ->
  mutate m s st = Done (res, s') st' ->
  q <> s -> heap st !! q = Some c ->
  heap st' !! q = Some c /\ s' <> Some q.
Proof.
  intros Hb Hv Hm Hq Hc.
  split; [exact (mutate_frame m s st res s' st' b q c Hb Hv Hm Hq Hc)|].
  apply (mutate_cases m s st res s' st' b Hb Hv) in Hm as
      [(_ & _ & -> & _)|[(_ & -> & _)|(_ & s1 & b' & -> & [Hs1 _] & _)]];
    try congruence.
  intros [= ->]. destruct Hs1; congruence.
Qed.

Lemma other_strings_untouched_witness :
  heap (state_after (mutate (Append (bytes_of ", world") 7) 1%positive
                            (State (heap two_strings) [AllocOk true []])))
    !! 2%positive = Some world /\
  Some 3%positive <> Some 2%positive.
Proof.
  apply (other_strings_untouched (Append (bytes_of ", world") 7) 1%positive
           (State (heap two_strings) [AllocOk true []]) 0 (Some 3%positive) _ hello).
  - vm_compute. reflexivity.
  - check_valid.
  - vm_compute. reflexivity.
  - discriminate.
  - vm_compute. reflexivity.
Defined.

(** ** Creation from a character array *)

Lemma no_nul_copied src n bs :
  strncpy_bytes src n = Some bs ->
  Forall (fun c => c <> NUL) (take n src) -> bs = take n src.
Proof.
  revert src bs. induction n as [|n IH]; intros src bs; simpl.
  - intros [= <-] _. now rewrite take_0.
  - destruct src as [|c src]; [discriminate|]. simpl.
    intros Hbs [Hc Hall]%Forall_cons.
    destruct (Byte.eqb c NUL) eqn:E.
    + apply Byte.byte_dec_bl in E. contradiction.
    + destruct (strncpy_bytes src n) as [bs'|] eqn:Eb; [|discriminate].
      injection Hbs as <-. f_equal. now apply IH.
Qed.

(** X3. [string_sub_v (src, start, len)] on a non-NULL array either returns
    NULL and leaves the heap as it was, or returns a new valid string at an
    address that was free, of length [len] and capacity [len + 1], next to
    the strings already there.  Its content is what [strncpy] copies from
    [src + start]: the [len] characters themselves when none of them is NUL. *)
Theorem string_sub_v_result arr start len st r st' :
  0 <= start <= UINT_MAX -> 0 <= len <= SIZE_MAX ->
  string_sub_v (Some arr) start len st = Done r st' ->
  (r = None /\ heap st' = heap st) \/
  (exists p b', r = Some p /\ heap st !! p = None /\
     heap st' = <[p := b']> (heap st) /\ valid b' /\
     meta_len b' = len /\ meta_capacity b' = len + 1 /\
     strncpy_bytes (drop (Z.to_nat start) arr) (Z.to_nat len) = Some (content b') /\
     (Forall (fun c => c <> NUL) (take (Z.to_nat len) (drop (Z.to_nat start) arr)) ->
      content b' = take (Z.to_nat len) (drop (Z.to_nat start) arr))).
Proof.
  intros Hstart Hlen. unfold string_sub_v.
  rewrite to_uint_small, to_size_small by assumption.
  intros [H|(p & b' & from & bs & -> & Hp & Hh & Hv & Hl & Hc & Hadv & Hbs & Hcont)]%sub_string_Done;
    [now left|right].
  unfold advance in Hadv.
  destruct ((0 <=? start) && (start <=? size_of arr)); [|discriminate].
  injection Hadv as <-. subst bs.
  exists p, b'. repeat (split; [assumption || reflexivity|]).
  intros Hall. now apply no_nul_copied.
Qed.

(** The substring of the README: ["llo worl"] out of ["ello world"]. *)
Lemma string_sub_v_result_witness :
  (Some 2%positive = None /\
   heap (state_after (string_sub_v (Some (bytes_of "ello world")) 1 8 empty_state))
   = heap empty_state) \/
  (exists p b', Some 2%positive = Some p /\ heap empty_state !! p = None /\
     heap (state_after (string_sub_v (Some (bytes_of "ello world")) 1 8 empty_state))
     = <[p := b']> (heap empty_state) /\ valid b' /\
     meta_len b' = 8 /\ meta_capacity b' = 8 + 1 /\
     strncpy_bytes (drop (Z.to_nat 1) (bytes_of "ello world")) (Z.to_nat 8)
     = Some (content b') /\
     (Forall (fun c => c <> NUL)
             (take (Z.to_nat 8) (drop (Z.to_nat 1) (bytes_of "ello world"))) ->
      content b' = take (Z.to_nat 8) (drop (Z.to_nat 1) (bytes_of "ello world")))).
Proof.
  apply (string_sub_v_result (bytes_of "ello world") 1 8 empty_state).
  - unfold UINT_MAX. lia.
  - unfold SIZE_MAX. lia.
  - vm_compute. reflexivity.
Defined.

Example string_sub_v_readme :
  string_sub_v (Some (bytes_of "ello world")) 1 8 empty_state
  = Done (Some 2%positive)
         (State {[ 2%positive := Block 8 9 (bytes_of "llo worl" ++ [NUL]) ]} []).
Proof. vm_compute. reflexivity. Qed.

(** A substring that runs past the end of an array without NUL is a read
    outside the array. *)
Example string_sub_v_past_the_end :
  string_sub_v (Some (bytes_of "abc")) 1 3 empty_state = Fault.
Proof. vm_compute. reflexivity. Qed.

(** ** Content after copy and append *)

(** X4. A successful [string_copy_v (dest, src, len)] on a valid string
    replaces its content by what [strncpy] copies from [src], the first [len]
    characters of [src] themselves when none of them is NUL, sets its length
    to [len], and leaves a valid string; the old content does not matter. *)
Theorem string_copy_v_content s src len st s1 st' b :
  heap st !! s = Some b -> valid b -> 0 <= len <= SIZE_MAX ->
  string_copy_v (Ref (Some s)) (Some src) len st = Done (0, Ref (Some s1)) st' ->
  exists b', heap st' !! s1 = Some b' /\ valid b' /\ meta_len b' = len /\
    strncpy_bytes src (Z.to_nat len) = Some (content b') /\
    (Forall (fun c => c <> NUL) (take (Z.to_nat len) src) ->
     content b' = take (Z.to_nat len) src).
Proof.
  intros Hb Hv Hlen. unfold string_copy_v. rewrite to_size_small by exact Hlen.
  intros ([res d] & st1 & Hop & [[= <- <-] ->]%ret_Done)%bind_Done.
  eapply copy_string_Done in Hop as
      [([=] & _)|(_ & b' & bs & Hrep & Hv' & Hl & _ & _ & Hbs & Hcont)];
    eauto using valid_describes.
  exists b'. split; [eauto using replaced_lookup|].
  split; [exact Hv'|]. split; [exact Hl|]. rewrite Hcont.
  split; [exact Hbs|]. now apply no_nul_copied.
Qed.

Lemma string_copy_v_content_witness :
  exists b',
    heap (state_after (string_copy_v (Ref (Some 1%positive)) (Some (bytes_of "world"))
                                     3 hello_state)) !! 1%positive = Some b' /\
    valid b' /\ meta_len b' = 3 /\
    strncpy_bytes (bytes_of "world") (Z.to_nat 3) = Some (content b') /\
    (Forall (fun c => c <> NUL) (take (Z.to_nat 3) (bytes_of "world")) ->
     content b' = take (Z.to_nat 3) (bytes_of "world")).
Proof.
  apply (string_copy_v_content 1%positive (bytes_of "world") 3 hello_state
           1%positive _ hello).
  - vm_compute. reflexivity.
  - check_valid.
  - unfold SIZE_MAX. lia.
  - vm_compute. reflexivity.
Defined.

(** X5. A successful [string_append_v (dest, src, len)] on a valid string of
    content [C] leaves the content [C] followed by what [strncpy] copies from
    [src], and a successful [string_cut (dest, 0, L)] with the old length [L]
    then restores the content [C]. *)
Theorem append_then_cut_restores s src len st s1 st1 r2 st2 b :
  heap st !! s = Some b -> valid b -> 0 <= len <= SIZE_MAX ->
  string_append_v (Ref (Some s)) (Some src) len st = Done (0, Ref (Some s1)) st1 ->
  string_cut (Ref (Some s1)) 0 (meta_len b) st1 = Done (0, r2) st2 ->
  exists b1 b2 P,
    heap st1 !! s1 = Some b1 /\ valid b1 /\
    strncpy_bytes src (Z.to_nat len) = Some P /\
    content b1 = content b ++ P /\ meta_len b1 = meta_len b + len /\
    (Forall (fun c => c <> NUL) (take (Z.to_nat len) src) ->
     content b1 = content b ++ take (Z.to_nat len) src) /\
    r2 = Ref (Some s1) /\ heap st2 !! s1 = Some b2 /\
    meta_len b2 = meta_len b /\ content b2 = content b.
Proof.
  intros Hb Hv Hlen Happ Hcut.
  pose proof (valid_bounds _ Hv) as (Hl0 & Hl1 & Hl2 & Hl3).
  pose proof Hv as (_ & Hv1 & Hv2 & Hv3 & _).
  assert (to_size (meta_len b) = meta_len b) as Hsl
    by (apply to_size_small; unfold META_SIZE in *; lia).
  unfold string_append_v in Happ. rewrite to_size_small in Happ by exact Hlen.
  apply bind_Done in Happ as ([res d] & st0 & Happ & [[= <- <-] ->]%ret_Done).
  eapply append_string_Done in Happ as
      [([=] & _)|(_ & b1 & P & Hrep1 & Hv1' & Hlen1 & _ & HP & Hcont1)]; eauto.
  pose proof (replaced_lookup _ _ _ _ _ Hrep1) as Hb1.
  eapply string_cut_Done in Hcut as
      [-> [([=] & _)|(_ & _ & b2 & Hrep2 & _ & Hlen2 & _ & Hcont2)]]; eauto.
  exists b1, b2, P.
  split; [exact Hb1|]. split; [exact Hv1'|]. split; [exact HP|].
  split; [exact Hcont1|]. split; [exact Hlen1|].
  split; [intros Hall; rewrite Hcont1; f_equal; now apply no_nul_copied|].
  split; [reflexivity|]. split; [eauto using replaced_lookup|].
  split; [congruence|].
  rewrite Hcont2, Hcont1, Hsl. change (Z.to_nat (to_uint 0)) with 0%nat.
  rewrite drop_0, take_app_le by lia. apply take_ge. lia.
Qed.

Lemma append_then_cut_restores_witness :
  exists b1 b2 P,
    heap (state_after (string_append_v (Ref (Some 1%positive))
                         (Some (bytes_of "!")) 1 hello_roomy)) !! 1%positive = Some b1 /\
    valid b1 /\
    strncpy_bytes (bytes_of "!") (Z.to_nat 1) = Some P /\
    content b1 = content (Block 5 11 (bytes_of "hello" ++ replicate 6 NUL)) ++ P /\
    meta_len b1 = meta_len (Block 5 11 (bytes_of "hello" ++ replicate 6 NUL)) + 1 /\
    (Forall (fun c => c <> NUL) (take (Z.to_nat 1) (bytes_of "!")) ->
     content b1 = content (Block 5 11 (bytes_of "hello" ++ replicate 6 NUL))
                  ++ take (Z.to_nat 1) (bytes_of "!")) /\
    Ref (Some 1%positive) = Ref (Some 1%positive) /\
    heap hello_roomy !! 1%positive = Some b2 /\
    meta_len b2 = meta_len (Block 5 11 (bytes_of "hello" ++ replicate 6 NUL)) /\
    content b2 = content (Block 5 11 (bytes_of "hello" ++ replicate 6 NUL)).
Proof.
  apply (append_then_cut_restores 1%positive (bytes_of "!") 1 hello_roomy
           1%positive _ (Ref (Some 1%positive)) hello_roomy).
  - vm_compute. reflexivity.
  - check_valid.
  - unfold SIZE_MAX. lia.
  - vm_compute. reflexivity.
  - vm_compute. reflexivity.
Defined.

(** ** The growth policy seen from the public functions *)

Lemma modify_chars_header p f st u st' b :
  heap st !! p = Some b -> modify_chars p f st = Done u st' ->
  exists b', heap st' !! p = Some b' /\
             meta_len b' = meta_len b /\ meta_capacity b' = meta_capacity b.
Proof.
  intros Hb (b0 & d & Hb0 & _ & ->)%modify_chars_Done.
  rewrite Hb in Hb0. injection Hb0 as <-.
  eexists. simpl. rewrite lookup_insert_eq. now repeat split.
Qed.

Lemma set_string_length_zero str len st res str' st' :
  set_string_length str len st = Done (res, str') st' -> (res <? 0) = false ->
  res = 0 /\ exists b1, heap st' !! str' = Some b1 /\ meta_len b1 = len.
Proof.
  intros (b & Hb & [(-> & _)|(-> & cap' & d' & Hrep & _)])%set_string_length_Done Hres.
  - discriminate Hres.
  - split; [reflexivity|]. eexists. split; [eauto using replaced_lookup|reflexivity].
Qed.

Lemma copy_string_header dest src len st dest' st' :
  copy_string dest src len st = Done (0, dest') st' ->
  exists st1 b', set_string_length dest len st = Done (0, dest') st1 /\
    heap st' !! dest' = Some b' /\ meta_len b' = len /\
    (forall b1, heap st1 !! dest' = Some b1 -> meta_capacity b' = meta_capacity b1).
Proof.
  unfold copy_string.
  intros ([res1 d1] & st1 & Hlen & Hk)%bind_Done. simpl in Hk.
  destruct (res1 <? 0) eqn:Hres.
  { apply ret_Done in Hk as [[= <- _] _]. discriminate Hres. }
  destruct (set_string_length_zero _ _ _ _ _ _ Hlen Hres) as (-> & b1 & Hb1 & Hl1).
  apply bind_Done in Hk as (u2 & st2 & H2 & Hk).
  destruct (modify_chars_header _ _ _ _ _ _ Hb1 H2) as (b2 & Hb2 & Hl2 & Hc2).
  apply bind_Done in Hk as (u3 & st3 & H3 & Hk).
  destruct (modify_chars_header _ _ _ _ _ _ Hb2 H3) as (b3 & Hb3 & Hl3 & Hc3).
  apply ret_Done in Hk as [[= <-] ->].
  exists st1, b3. split; [exact Hlen|]. split; [exact Hb3|].
  split; [congruence|]. intros b1' Hb1'. congruence.
Qed.

Lemma append_string_header dest src len st dest' st' b :
  heap st !! dest = Some b ->
  append_string dest src len st = Done (0, dest') st' ->
  exists st1 b',
    set_string_length dest (to_size (meta_len b + len)) st = Done (0, dest') st1 /\
    heap st' !! dest' = Some b' /\ meta_len b' = to_size (meta_len b + len) /\
    (forall b1, heap st1 !! dest' = Some b1 -> meta_capacity b' = meta_capacity b1).
Proof.
  intros Hb. unfold append_string.
  rewrite (bind_eq _ _ _ _ _ (get_meta_eq _ _ _ Hb)).
  intros ([res1 d1] & st1 & Hlen & Hk)%bind_Done. simpl in Hk.
  destruct (res1 <? 0) eqn:Hres.
  { apply ret_Done in Hk as [[= <- _] _]. discriminate Hres. }
  destruct (set_string_length_zero _ _ _ _ _ _ Hlen Hres) as (-> & b1 & Hb1 & Hl1).
  apply bind_Done in Hk as (u2 & st2 & H2 & Hk).
  destruct (modify_chars_header _ _ _ _ _ _ Hb1 H2) as (b2 & Hb2 & Hl2 & Hc2).
  apply bind_Done in Hk as (u3 & st3 & H3 & Hk).
  destruct (modify_chars_header _ _ _ _ _ _ Hb2 H3) as (b3 & Hb3 & Hl3 & Hc3).
  apply ret_Done in Hk as [[= <-] ->].
  exists st1, b3. split; [exact Hlen|]. split; [exact Hb3|].
  split; [congruence|]. intros b1' Hb1'. congruence.
Qed.

Lemma prepend_string_header dest src len st dest' st' b :
  heap st !! dest = Some b ->
  prepend_string dest src len st = Done (0, dest') st' ->
  exists st1 b',
    set_string_length dest (to_size (meta_len b + len)) st = Done (0, dest') st1 /\
    heap st' !! dest' = Some b' /\ meta_len b' = to_size (meta_len b + len) /\
    (forall b1, heap st1 !! dest' = Some b1 -> meta_capacity b' = meta_capacity b1).
Proof.
  intros Hb. unfold prepend_string.
  rewrite (bind_eq _ _ _ _ _ (get_meta_eq _ _ _ Hb)).
  intros ([res1 d1] & st1 & Hlen & Hk)%bind_Done. simpl in Hk.
  destruct (res1 <? 0) eqn:Hres.
  { apply ret_Done in Hk as [[= <- _] _]. discriminate Hres. }
  destruct (set_string_length_zero _ _ _ _ _ _ Hlen Hres) as (-> & b1 & Hb1 & Hl1).
  apply bind_Done in Hk as (u2 & st2 & H2 & Hk).
  destruct (modify_chars_header _ _ _ _ _ _ Hb1 H2) as (b2 & Hb2 & Hl2 & Hc2).
  apply bind_Done in Hk as (u3 & st3 & H3 & Hk).
  destruct (modify_chars_header _ _ _ _ _ _ Hb2 H3) as (b3 & Hb3 & Hl3 & Hc3).
  apply bind_Done in Hk as (u4 & st4 & H4 & Hk).
  destruct (modify_chars_header _ _ _ _ _ _ Hb3 H4) as (b4 & Hb4 & Hl4 & Hc4).
  apply ret_Done in Hk as [[= <-] ->].
  exists st1, b4. split; [exact Hlen|]. split; [exact Hb4|].
  split; [congruence|]. intros b1' Hb1'. congruence.
Qed.

(** X6. The growth policy as the caller of [string_copy_v],
    [string_append_v] and [string_prepend_v] sees it: after a successful
    call on a valid string, with [n] the new length, the capacity is the old
    one when [n + 1] fits in it, and exactly [2 * n + 1] otherwise. *)
Theorem growth_policy m s st s' st' b b' :
  heap st !! s = Some b -> valid b -> resizes m ->
  mutate m s st = Done (0, Some s') st' -> heap st' !! s' = Some b' ->
  (meta_len b' + 1 <= meta_capacity b -> meta_capacity b' = meta_capacity b) /\
  (meta_capacity b < meta_len b' + 1 -> meta_capacity b' = 2 * meta_len b' + 1).
Proof.
  intros Hb Hv Hm Hrun Hb'.
  destruct (mutate_preserves_valid m s st 0 (Some s') st' b Hb Hv Hrun ltac:(lia))
    as (s1 & b1 & [= <-] & Hb1 & Hv1).
  rewrite Hb' in Hb1. injection Hb1 as <-.
  destruct Hv1 as (Hl0 & Hl1 & _).
  assert (exists len st1,
             set_string_length s len st = Done (0, s') st1 /\ meta_len b' = len /\
             forall b1, heap st1 !! s' = Some b1 -> meta_capacity b' = meta_capacity b1)
    as (len & st1 & Hlen & Hl & Hcap).
  { destruct m as [src n|src n|src n| | | | |]; try contradiction; simpl in Hrun;
      apply bind_Done in Hrun as ([res1 r] & st1 & Hop & [[= <- Hr] ->]%ret_Done);
      apply bind_Done in Hop as ([res2 d] & st2 & Hop & [[= <- ->] ->]%ret_Done);
      simpl in Hr; injection Hr as ->.
    - apply copy_string_header in Hop as (st1 & b2 & Hlen & Hb2 & Hl2 & Hc).
      rewrite Hb' in Hb2. injection Hb2 as <-. eauto.
    - eapply append_string_header in Hop as (st1 & b2 & Hlen & Hb2 & Hl2 & Hc);
        [|exact Hb].
      rewrite Hb' in Hb2. injection Hb2 as <-. eauto.
    - eapply prepend_string_header in Hop as (st1 & b2 & Hlen & Hb2 & Hl2 & Hc);
        [|exact Hb].
      rewrite Hb' in Hb2. injection Hb2 as <-. eauto. }
  pose proof Hlen as (b0 & _ & [([=] & _)|(_ & cap' & d' & Hrep & _)])%set_string_length_Done.
  pose proof (replaced_lookup _ _ _ _ _ Hrep) as Hb1.
  specialize (Hcap _ Hb1).
  destruct (set_string_length_capacity_exact s len st s' st1 b _ Hb Hlen Hb1)
    as [Hgrow Hkeep]; simpl in *; lia.
Qed.

(** The README's second line: ["hello"] with capacity 6 grows to capacity
    [2 * 11 + 1] when [", world"] is appended in a moved block. *)
Lemma growth_policy_witness :
  (meta_len (Block 12 25 (bytes_of "hello, world" ++ [NUL] ++ replicate 12 NUL)) + 1
   <= meta_capacity hello ->
   meta_capacity (Block 12 25 (bytes_of "hello, world" ++ [NUL] ++ replicate 12 NUL))
   = meta_capacity hello) /\
  (meta_capacity hello
   < meta_len (Block 12 25 (bytes_of "hello, world" ++ [NUL] ++ replicate 12 NUL)) + 1 ->
   meta_capacity (Block 12 25 (bytes_of "hello, world" ++ [NUL] ++ replicate 12 NUL))
   = 2 * meta_len (Block 12 25 (bytes_of "hello, world" ++ [NUL] ++ replicate 12 NUL)) + 1).
Proof.
  apply (growth_policy (Append (bytes_of ", world") 7) 1%positive
           (State (heap hello_state) [AllocOk false (replicate 19 NUL)])
           1%positive
           (state_after (mutate (Append (bytes_of ", world") 7) 1%positive
              (State (heap hello_state) [AllocOk false (replicate 19 NUL)])))
           hello).
  - vm_compute. reflexivity.
  - check_valid.
  - exact I.
  - vm_compute. reflexivity.
  - vm_compute. reflexivity.
Defined.

(** ** Reserve, clear, cut and destroy *)

(** X7. A successful [string_reserve (str, size)] on a valid string leaves a
    valid string whose capacity is the larger of the old capacity and [size],
    with the same length and the same content; when [size] is not above the
    old capacity the call changes nothing and asks for no memory. *)
Theorem string_reserve_result s size st r st' b :
  heap st !! s = Some b -> valid b -> 0 <= size <= SIZE_MAX ->
  string_reserve (Ref (Some s)) size st = Done (0, r) st' ->
  exists s' b', r = Ref (Some s') /\ heap st' !! s' = Some b' /\ valid b' /\
    meta_capacity b' = Z.max (meta_capacity b) size /\
    meta_len b' = meta_len b /\ content b' = content b /\
    (size <= meta_capacity b -> s' = s /\ st' = st).
Proof.
  intros Hb Hv Hsize Hrun.
  eapply string_reserve_Done in Hrun as
      [(_ & -> & -> & Hle)|[([=] & _)|
       [(_ & Hlt & s' & b' & -> & Hrep & Hv' & Hl & Hc & Hcont)|([=] & _)]]];
    eauto; rewrite to_size_small in * by exact Hsize.
  - exists s, b. split; [reflexivity|]. split; [exact Hb|]. split; [exact Hv|].
    split; [lia|]. now repeat split.
  - exists s', b'. split; [reflexivity|]. split; [eauto using replaced_lookup|].
    split; [exact Hv'|]. split; [lia|]. split; [exact Hl|]. split; [exact Hcont|].
    lia.
Qed.

Lemma string_reserve_result_witness :
  exists s' b',
    Ref (Some 1%positive) = Ref (Some s') /\
    heap (state_after (string_reserve (Ref (Some 1%positive)) 32
                         (State (heap hello_state) [AllocOk false (replicate 26 NUL)])))
      !! s' = Some b' /\ valid b' /\
    meta_capacity b' = Z.max (meta_capacity hello) 32 /\
    meta_len b' = meta_len hello /\ content b' = content hello /\
    (32 <= meta_capacity hello ->
     s' = 1%positive /\
     state_after (string_reserve (Ref (Some 1%positive)) 32
                    (State (heap hello_state) [AllocOk false (replicate 26 NUL)]))
     = State (heap hello_state) [AllocOk false (replicate 26 NUL)]).
Proof.
  apply (string_reserve_result 1%positive 32
           (State (heap hello_state) [AllocOk false (replicate 26 NUL)])
           (Ref (Some 1%positive)) _ hello).
  - vm_compute. reflexivity.
  - check_valid.
  - unfold SIZE_MAX. lia.
  - vm_compute. reflexivity.
Defined.

(** X8. [string_clear] on a valid string cannot fail: it returns 0, asks for
    no memory, keeps the capacity and leaves the valid empty string. *)
Theorem string_clear_total s st b :
  heap st !! s = Some b -> valid b ->
  exists st' b', string_clear (Some s) st = Done 0 st' /\
    heap st' = <[s := b']> (heap st) /\ replies st' = replies st /\
    valid b' /\ meta_len b' = 0 /\ meta_capacity b' = meta_capacity b /\
    content b' = [].
Proof.
  intros Hb Hv.
  pose proof (valid_bounds _ Hv) as (Hl0 & Hl1 & Hl2 & Hl3).
  pose proof Hv as (_ & Hv1 & Hv2 & Hv3 & _).
  unfold string_clear.
  erewrite bind_eq; [|eapply put_len_eq; exact Hb].
  erewrite bind_eq;
    [|eapply modify_chars_eq; [apply lookup_insert_eq|simpl; apply store_in_range; lia]].
  simpl. eexists. eexists. split; [reflexivity|]. simpl.
  split; [apply insert_insert_eq|]. split; [reflexivity|].
  split; [|now repeat split].
  apply valid_intro; try lia.
  - eapply store_lookup. apply store_in_range. lia.
  - rewrite overwrite_size; [lia|]. apply in_range_true; unfold size_of in *; simpl; lia.
  - rewrite overwrite_size; [lia|]. apply in_range_true; unfold size_of in *; simpl; lia.
Qed.

Lemma string_clear_total_witness :
  exists st' b', string_clear (Some 1%positive) hello_state = Done 0 st' /\
    heap st' = <[1%positive := b']> (heap hello_state) /\
    replies st' = replies hello_state /\
    valid b' /\ meta_len b' = 0 /\ meta_capacity b' = meta_capacity hello /\
    content b' = [].
Proof.
  apply (string_clear_total 1%positive hello_state hello).
  - vm_compute. reflexivity.
  - check_valid.
Defined.

(** X9. [string_cut (str, start, len)] with [start + len] within the length
    of a valid string cannot fail: it returns 0 with the same handle, keeps
    exactly the [len] characters from position [start] on, keeps the
    capacity, and leaves a valid string. *)
Theorem string_cut_keeps_range s start len st b :
  heap st !! s = Some b -> valid b ->
  0 <= start <= UINT_MAX -> 0 <= len -> start + len <= meta_len b ->
  exists st' b',
    string_cut (Ref (Some s)) start len st = Done (0, Ref (Some s)) st' /\
    heap st' !! s = Some b' /\ valid b' /\ meta_len b' = len /\
    meta_capacity b' = meta_capacity b /\
    content b' = take (Z.to_nat len) (drop (Z.to_nat start) (content b)).
Proof.
  intros Hb Hv Hstart Hlen Hin.
  pose proof (valid_bounds _ Hv) as (Hl0 & Hl1 & Hl2 & Hl3).
  pose proof Hv as (_ & Hv1 & Hv2 & Hv3 & _).
  assert (to_uint start = start) as Hs by (apply to_uint_small; lia).
  assert (to_size len = len) as Hn
    by (apply to_size_small; unfold META_SIZE in *; lia).
  destruct (string_cut_in_range s start len st b Hb Hv) as [st' Hrun];
    [rewrite Hs, Hn; lia|].
  exists st'.
  pose proof Hrun as Hrun'.
  eapply string_cut_Done in Hrun' as
      [_ [([=] & _)|(_ & _ & b' & Hrep & Hv' & Hl & Hc & Hcont)]]; eauto.
  exists b'. rewrite Hs, Hn in *. eauto 10 using replaced_lookup.
Qed.

Lemma string_cut_keeps_range_witness :
  exists st' b',
    string_cut (Ref (Some 1%positive)) 1 3 hello_state
    = Done (0, Ref (Some 1%positive)) st' /\
    heap st' !! 1%positive = Some b' /\ valid b' /\ meta_len b' = 3 /\
    meta_capacity b' = meta_capacity hello /\
    content b' = take (Z.to_nat 3) (drop (Z.to_nat 1) (content hello)).
Proof.
  apply (string_cut_keeps_range 1%positive 1 3 hello_state hello).
  - vm_compute. reflexivity.
  - check_valid.
  - unfold UINT_MAX. lia.
  - lia.
  - vm_compute. discriminate.
Defined.

Lemma bind_Fault {A B : Type} (m : M A) (k : A -> M B) st :
  m st = Fault -> bind m k st = Fault.
Proof. unfold bind. now intros ->. Qed.

Lemma get_meta_Fault p st : heap st !! p = None -> get_meta p st = Fault.
Proof. unfold get_meta. now intros ->. Qed.

Lemma mutate_dangling m s st : heap st !! s = None -> mutate m s st = Fault.
Proof.
  intros Hs. pose proof (get_meta_Fault _ _ Hs) as Hg.
  destruct m; simpl;
    unfold string_copy_v, string_append_v, string_prepend_v, string_cut,
      string_clear, string_printf, string_reserve, string_fit,
      copy_string, append_string, prepend_string, set_string_length, put_len;
    repeat apply bind_Fault; exact Hg.
Qed.

(** X10. [string_destroy] on a live string releases that string and nothing
    else; the caller's handle is not reset, and whatever is done with it
    afterwards (a second [string_destroy], [string_len], [string_capacity],
    any mutating operation) is undefined behaviour. *)
Theorem string_destroy_releases s st b :
  heap st !! s = Some b ->
  exists st', string_destroy (Some s) st = Done tt st' /\
    heap st' !! s = None /\
    (forall q, q <> s -> heap st' !! q = heap st !! q) /\
    string_destroy (Some s) st' = Fault /\
    string_len (Some s) st' = Fault /\
    string_capacity (Some s) st' = Fault /\
    (forall m, mutate m s st' = Fault).
Proof.
  intros Hb. exists (State (delete s (heap st)) (replies st)).
  assert (heap (State (delete s (heap st)) (replies st)) !! s = None) as Hgone
    by (simpl; apply lookup_delete_eq).
  split; [simpl; unfold free; now rewrite Hb|].
  split; [exact Hgone|].
  split; [intros q Hq; simpl; now apply lookup_delete_ne|].
  split; [simpl; unfold free; now rewrite Hgone|].
  split; [unfold string_len; apply bind_Fault, get_meta_Fault, Hgone|].
  split; [unfold string_capacity; apply bind_Fault, get_meta_Fault, Hgone|].
  intros m. apply mutate_dangling, Hgone.
Qed.

Lemma string_destroy_releases_witness :
  exists st', string_destroy (Some 1%positive) two_strings = Done tt st' /\
    heap st' !! 1%positive = None /\
    (forall q, q <> 1%positive -> heap st' !! q = heap two_strings !! q) /\
    string_destroy (Some 1%positive) st' = Fault /\
    string_len (Some 1%positive) st' = Fault /\
    string_capacity (Some 1%positive) st' = Fault /\
    (forall m, mutate m 1%positive st' = Fault).
Proof.
  apply (string_destroy_releases 1%positive two_strings hello).
  vm_compute. reflexivity.
Defined.

(** ** The functions on string literals *)

Lemma strlen_until_nul src n :
  strlen src = Some n ->
  0 <= n /\ n = size_of (until_nul src) /\
  strncpy_bytes src (Z.to_nat n) = Some (until_nul src) /\
  Forall (fun c => c <> NUL) (until_nul src).
Proof.
  revert n. induction src as [|c src IH]; intros n; simpl; [discriminate|].
  destruct (Byte.eqb c NUL) eqn:E.
  - intros [= <-]. simpl. repeat split; [lia|constructor].
  - destruct (strlen src) as [k|]; [|discriminate]. intros [= <-].
    destruct (IH k eq_refl) as (Hk & Hsz & Hcpy & Hall).
    split; [lia|]. split; [unfold size_of in *; simpl; lia|].
    split.
    + replace (Z.to_nat (Z.succ k)) with (S (Z.to_nat k)) by lia.
      simpl. now rewrite E, Hcpy.
    + constructor; [|exact Hall]. intros ->. discriminate E.
Qed.

Lemma strlen_no_nul src : Forall (fun c => c <> NUL) src -> strlen src = None.
Proof.
  induction 1 as [|c src Hc _ IH]; simpl; [reflexivity|].
  destruct (Byte.eqb c NUL) eqn:E; [now apply Byte.byte_dec_bl in E|].
  now rewrite IH.
Qed.

(** X11. [string_dup_c (src)] on a NUL-terminated array either returns NULL
    and leaves the heap as it was, or returns a new valid string next to the
    strings already there, whose content is exactly the characters of [src]
    before its first NUL and whose capacity is its length plus one. *)
Theorem string_dup_c_result arr st r st' :
  string_dup_c (Some arr) st = Done r st' ->
  (r = None /\ heap st' = heap st) \/
  (exists p b', r = Some p /\ heap st !! p = None /\
     heap st' = <[p := b']> (heap st) /\ valid b' /\
     content b' = until_nul arr /\ meta_len b' = size_of (until_nul arr) /\
     meta_capacity b' = meta_len b' + 1).
Proof.
  unfold string_dup_c. destruct (strlen arr) as [n|] eqn:En; [|discriminate].
  destruct (strlen_until_nul _ _ En) as (Hn & Hsz & Hcpy & _).
  intros [H|(p & b' & from & bs & -> & Hp & Hh & Hv & Hl & Hc & Hadv & Hbs & Hcont)]%sub_string_Done;
    [now left|right].
  rewrite advance_0 in Hadv. injection Hadv as <-.
  rewrite Hcpy in Hbs. injection Hbs as <-.
  exists p, b'. repeat (split; [assumption || reflexivity || congruence|]).
  congruence.
Qed.

Lemma string_dup_c_result_witness :
  (Some 2%positive = None /\
   heap (state_after (string_dup_c (Some (bytes_of "hello" ++ [NUL])) empty_state))
   = heap empty_state) \/
  (exists p b', Some 2%positive = Some p /\ heap empty_state !! p = None /\
     heap (state_after (string_dup_c (Some (bytes_of "hello" ++ [NUL])) empty_state))
     = <[p := b']> (heap empty_state) /\ valid b' /\
     content b' = until_nul (bytes_of "hello" ++ [NUL]) /\
     meta_len b' = size_of (until_nul (bytes_of "hello" ++ [NUL])) /\
     meta_capacity b' = meta_len b' + 1).
Proof.
  apply (string_dup_c_result (bytes_of "hello" ++ [NUL]) empty_state).
  vm_compute. reflexivity.
Defined.

(** A source without terminator makes [strlen] read past its end. *)
Lemma string_dup_c_unterminated arr st :
  Forall (fun c => c <> NUL) arr -> string_dup_c (Some arr) st = Fault.
Proof. intros Hall. unfold string_dup_c. now rewrite strlen_no_nul. Qed.

(** X12. A successful [string_copy_c (dest, src)] on a valid string replaces
    its content by the characters of [src] before its first NUL and leaves a
    valid string of that length. *)
Theorem string_copy_c_content s arr st s1 st' b :
  heap st !! s = Some b -> valid b ->
  string_copy_c (Ref (Some s)) (Some arr) st = Done (0, Ref (Some s1)) st' ->
  exists b', heap st' !! s1 = Some b' /\ valid b' /\
    content b' = until_nul arr /\ meta_len b' = size_of (until_nul arr).
Proof.
  intros Hb Hv. unfold string_copy_c.
  destruct (strlen arr) as [n|] eqn:En; [|discriminate].
  destruct (strlen_until_nul _ _ En) as (Hn & Hsz & Hcpy & _).
  intros ([res d] & st1 & Hop & [[= <- <-] ->]%ret_Done)%bind_Done.
  eapply copy_string_Done in Hop as
      [([=] & _)|(_ & b' & bs & Hrep & Hv' & Hl & _ & _ & Hbs & Hcont)];
    eauto using valid_describes.
  rewrite Hcpy in Hbs. injection Hbs as <-.
  exists b'. split; [eauto using replaced_lookup|]. split; [exact Hv'|].
  split; congruence.
Qed.

Lemma string_copy_c_content_witness :
  exists b',
    heap (state_after (string_copy_c (Ref (Some 1%positive))
                         (Some (bytes_of "bye" ++ [NUL])) hello_state))
      !! 1%positive = Some b' /\ valid b' /\
    content b' = until_nul (bytes_of "bye" ++ [NUL]) /\
    meta_len b' = size_of (until_nul (bytes_of "bye" ++ [NUL])).
Proof.
  apply (string_copy_c_content 1%positive (bytes_of "bye" ++ [NUL]) hello_state
           1%positive _ hello).
  - vm_compute. reflexivity.
  - check_valid.
  - vm_compute. reflexivity.
Defined.

(** X13. A successful [string_append_c (dest, src)] on a valid string of
    content [C] leaves a valid string whose content is [C] followed by the
    characters of [src] before its first NUL. *)
Theorem string_append_c_content s arr st s1 st' b :
  heap st !! s = Some b -> valid b ->
  string_append_c (Ref (Some s)) (Some arr) st = Done (0, Ref (Some s1)) st' ->
  exists b', heap st' !! s1 = Some b' /\ valid b' /\
    content b' = content b ++ until_nul arr /\
    meta_len b' = meta_len b + size_of (until_nul arr).
Proof.
  intros Hb Hv. unfold string_append_c.
  destruct (strlen arr) as [n|] eqn:En; [|discriminate].
  destruct (strlen_until_nul _ _ En) as (Hn & Hsz & Hcpy & _).
  intros ([res d] & st1 & Hop & [[= <- <-] ->]%ret_Done)%bind_Done.
  eapply append_string_Done in Hop as
      [([=] & _)|(_ & b' & bs & Hrep & Hv' & Hl & _ & Hbs & Hcont)]; eauto.
  rewrite Hcpy in Hbs. injection Hbs as <-.
  exists b'. split; [eauto using replaced_lookup|]. split; [exact Hv'|].
  split; congruence.
Qed.

(** The README's ["hello"] followed by [", world"]. *)
Lemma string_append_c_content_witness :
  exists b',
    heap (state_after (string_append_c (Ref (Some 1%positive))
                         (Some (bytes_of ", world" ++ [NUL])) hello_state))
      !! 1%positive = Some b' /\ valid b' /\
    content b' = content hello ++ until_nul (bytes_of ", world" ++ [NUL]) /\
    meta_len b' = meta_len hello + size_of (until_nul (bytes_of ", world" ++ [NUL])).
Proof.
  apply (string_append_c_content 1%positive (bytes_of ", world" ++ [NUL]) hello_state
           1%positive _ hello).
  - vm_compute. reflexivity.
  - check_valid.
  - vm_compute. reflexivity.
Defined.

(** X14. A successful [string_prepend_c (dest, src)] on a valid string of
    content [C] leaves a valid string whose content is the characters of
    [src] before its first NUL, followed by [C]. *)
Theorem string_prepend_c_content s arr st s1 st' b :
  heap st !! s = Some b -> valid b ->
  string_prepend_c (Ref (Some s)) (Some arr) st = Done (0, Ref (Some s1)) st' ->
  exists b', heap st' !! s1 = Some b' /\ valid b' /\
    content b' = until_nul arr ++ content b /\
    meta_len b' = meta_len b + size_of (until_nul arr).
Proof.
  intros Hb Hv. unfold string_prepend_c.
  destruct (strlen arr) as [n|] eqn:En; [|discriminate].
  destruct (strlen_until_nul _ _ En) as (Hn & Hsz & Hcpy & _).
  intros ([res d] & st1 & Hop & [[= <- <-] ->]%ret_Done)%bind_Done.
  eapply prepend_string_Done in Hop as
      [([=] & _)|(_ & b' & bs & Hrep & Hv' & Hl & _ & Hbs & Hcont)]; eauto.
  rewrite Hcpy in Hbs. injection Hbs as <-.
  exists b'. split; [eauto using replaced_lookup|]. split; [exact Hv'|].
  split; congruence.
Qed.

Lemma string_prepend_c_content_witness :
  exists b',
    heap (state_after (string_prepend_c (Ref (Some 1%positive))
                         (Some (bytes_of "oh, " ++ [NUL])) hello_state))
      !! 1%positive = Some b' /\ valid b' /\
    content b' = until_nul (bytes_of "oh, " ++ [NUL]) ++ content hello /\
    meta_len b' = meta_len hello + size_of (until_nul (bytes_of "oh, " ++ [NUL])).
Proof.
  apply (string_prepend_c_content 1%positive (bytes_of "oh, " ++ [NUL]) hello_state
           1%positive _ hello).
  - vm_compute. reflexivity.
  - check_valid.
  - vm_compute. reflexivity.
Defined.

(** ** The functions whose source is a string *)

Lemma bind_cong {A B : Type} (m m' : M A) (k k' : A -> M B) st :
  m st = m' st ->
  (forall x st1, m' st = Done x st1 -> k x st1 = k' x st1) ->
  bind m k st = bind m' k' st.
Proof.
  intros Hm Hk. unfold bind. rewrite Hm.
  destruct (m' st) as [|x st1]; [reflexivity|]. now apply Hk.
Qed.

Lemma strncpy_at_other dest dst s n st bs :
  heap st !! s = Some bs -> s <> dest ->
  strncpy_at dest dst (Inside s) n st
  = modify_chars dest (fun d => strncpy d dst (chars bs) n) st.
Proof.
  intros Hs Hne. unfold strncpy_at.
  rewrite (bind_eq _ _ _ _ _ (get_meta_eq _ _ _ Hs)).
  apply Pos.eqb_neq in Hne. now rewrite Hne.
Qed.

Lemma set_string_length_frame str len st res str' st' q c :
  set_string_length str len st = Done (res, str') st' ->
  q <> str -> heap st !! q = Some c ->
  heap st' !! q = Some c /\ q <> str'.
Proof.
  intros (b & Hb & [(_ & -> & -> & _)|(_ & cap' & d' & Hrep & _)])%set_string_length_Done
         Hq Hc.
  - now split.
  - split; [eauto using replaced_frame|].
    destruct Hrep as [[->|Hfree] _]; congruence.
Qed.

Lemma modify_chars_frame p f st u st' q c :
  modify_chars p f st = Done u st' -> q <> p -> heap st !! q = Some c ->
  heap st' !! q = Some c.
Proof.
  intros (b & d & _ & _ & ->)%modify_chars_Done Hq Hc. simpl.
  now rewrite lookup_insert_ne by congruence.
Qed.

Lemma copy_string_at_other d s len st bs :
  heap st !! s = Some bs -> s <> d ->
  copy_string_at d (Inside s) len st = copy_string d (chars bs) len st.
Proof.
  intros Hs Hne. unfold copy_string_at, copy_string.
  apply bind_cong; [reflexivity|]. intros [res d1] st1 Hlen.
  destruct (res <? 0); [reflexivity|].
  destruct (set_string_length_frame _ _ _ _ _ _ s bs Hlen Hne Hs) as [Hs1 Hne1].
  apply bind_cong; [now apply strncpy_at_other|]. reflexivity.
Qed.

Lemma append_string_at_other d s len st bs :
  heap st !! s = Some bs -> s <> d ->
  append_string_at d (Inside s) len st = append_string d (chars bs) len st.
Proof.
  intros Hs Hne. unfold append_string_at, append_string.
  apply bind_cong; [reflexivity|]. intros meta st0 [-> Hmeta]%get_meta_Done.
  apply bind_cong; [reflexivity|]. intros [res d1] st1 Hlen.
  destruct (res <? 0); [reflexivity|].
  destruct (set_string_length_frame _ _ _ _ _ _ s bs Hlen Hne Hs) as [Hs1 Hne1].
  apply bind_cong; [now apply strncpy_at_other|]. reflexivity.
Qed.

Lemma prepend_string_at_other d s len st bs :
  heap st !! s = Some bs -> s <> d ->
  prepend_string_at d (Inside s) len st = prepend_string d (chars bs) len st.
Proof.
  intros Hs Hne. unfold prepend_string_at, prepend_string.
  apply bind_cong; [reflexivity|]. intros meta st0 [-> Hmeta]%get_meta_Done.
  apply bind_cong; [reflexivity|]. intros [res d1] st1 Hlen.
  destruct (res <? 0); [reflexivity|].
  destruct (set_string_length_frame _ _ _ _ _ _ s bs Hlen Hne Hs) as [Hs1 Hne1].
  apply bind_cong; [reflexivity|]. intros u st2 Hmove.
  pose proof (modify_chars_frame _ _ _ _ _ s bs Hmove Hne1 Hs1) as Hs2.
  apply bind_cong; [now apply strncpy_at_other|]. reflexivity.
Qed.

(** X15. With a source string that is live and is not the destination,
    [string_copy], [string_append] and [string_prepend] do what
    [string_copy_v], [string_append_v] and [string_prepend_v] do with the
    source's characters and recorded length, whatever the allocator answers:
    same result, same memory, same faults. *)
Theorem string_source_as_array d s st bs :
  heap st !! s = Some bs -> valid bs -> s <> d ->
  string_copy (Ref (Some d)) (Some s) st
  = string_copy_v (Ref (Some d)) (Some (chars bs)) (meta_len bs) st /\
  string_append (Ref (Some d)) (Some s) st
  = string_append_v (Ref (Some d)) (Some (chars bs)) (meta_len bs) st /\
  string_prepend (Ref (Some d)) (Some s) st
  = string_prepend_v (Ref (Some d)) (Some (chars bs)) (meta_len bs) st.
Proof.
  intros Hs Hv Hne.
  pose proof (valid_bounds _ Hv) as (Hl0 & Hl1 & _).
  destruct Hv as (_ & _ & _ & Hfit & _).
  assert (to_size (meta_len bs) = meta_len bs) as Hsz
    by (apply to_size_small; unfold META_SIZE in *; lia).
  unfold string_copy, string_append, string_prepend,
    string_copy_v, string_append_v, string_prepend_v.
  rewrite !(bind_eq _ _ _ _ _ (get_meta_eq _ _ _ Hs)), Hsz.
  repeat split; (apply bind_cong; [|reflexivity]).
  - now apply copy_string_at_other.
  - now apply append_string_at_other.
  - now apply prepend_string_at_other.
Qed.

Lemma string_source_as_array_witness :
  string_copy (Ref (Some 1%positive)) (Some 2%positive) two_strings
  = string_copy_v (Ref (Some 1%positive)) (Some (chars world)) (meta_len world)
      two_strings /\
  string_append (Ref (Some 1%positive)) (Some 2%positive) two_strings
  = string_append_v (Ref (Some 1%positive)) (Some (chars world)) (meta_len world)
      two_strings /\
  string_prepend (Ref (Some 1%positive)) (Some 2%positive) two_strings
  = string_prepend_v (Ref (Some 1%positive)) (Some (chars world)) (meta_len world)
      two_strings.
Proof.
  apply (string_source_as_array 1%positive 2%positive two_strings world).
  - vm_compute. reflexivity.
  - check_valid.
  - discriminate.
Defined.

(** X16. A successful [string_copy (dest, src)] between two different valid
    strings leaves the source as it was and a valid destination of the
    source's length, which holds the source's content when that content has
    no NUL inside; the two strings stay different objects. *)
Theorem string_copy_equal_content d s st d1 st' bd bs :
  heap st !! d = Some bd -> valid bd -> heap st !! s = Some bs -> valid bs ->
  s <> d ->
  string_copy (Ref (Some d)) (Some s) st = Done (0, Ref (Some d1)) st' ->
  exists b', heap st' !! d1 = Some b' /\ valid b' /\
    meta_len b' = meta_len bs /\
    (Forall (fun c => c <> NUL) (content bs) -> content b' = content bs) /\
    heap st' !! s = Some bs /\ d1 <> s.
Proof.
  intros Hd Hvd Hs Hvs Hne.
  unfold string_copy. rewrite (bind_eq _ _ _ _ _ (get_meta_eq _ _ _ Hs)).
  intros ([res d2] & st1 & Hop & [[= <- <-] ->]%ret_Done)%bind_Done.
  rewrite (copy_string_at_other _ _ _ _ _ Hs Hne) in Hop.
  eapply copy_string_Done in Hop as
      [([=] & _)|(_ & b' & P & Hrep & Hv' & Hl & _ & _ & HP & Hcont)];
    eauto using valid_describes.
  exists b'. split; [eauto using replaced_lookup|]. split; [exact Hv'|].
  split; [exact Hl|].
  split; [intros Hall; rewrite Hcont; now apply no_nul_copied|].
  split; [eauto using replaced_frame|].
  destruct Hrep as [[->|Hfree] _]; congruence.
Qed.

Lemma string_copy_equal_content_witness :
  exists b',
    heap (state_after (string_copy (Ref (Some 1%positive)) (Some 2%positive)
                         two_strings)) !! 1%positive = Some b' /\
    valid b' /\ meta_len b' = meta_len world /\
    (Forall (fun c => c <> NUL) (content world) -> content b' = content world) /\
    heap (state_after (string_copy (Ref (Some 1%positive)) (Some 2%positive)
                         two_strings)) !! 2%positive = Some world /\
    1%positive <> 2%positive.
Proof.
  apply (string_copy_equal_content 1%positive 2%positive two_strings 1%positive _
           hello world).
  - vm_compute. reflexivity.
  - check_valid.
  - vm_compute. reflexivity.
  - check_valid.
  - discriminate.
  - vm_compute. reflexivity.
Defined.

Lemma strncpy_at_Inside_Done dest dst s n st u st' :
  strncpy_at dest dst (Inside s) n st = Done u st' ->
  exists bs, heap st !! s = Some bs /\
    (s <> dest \/
     (s = dest /\
      modify_chars dest (fun d => if (0 <? n) && (dst <? strncpy_reads d n)
                                  then None else strncpy d dst d n) st
      = Done u st')).
Proof.
  unfold strncpy_at.
  intros (bs & st0 & [-> Hs]%get_meta_Done & Hk)%bind_Done.
  exists bs. split; [exact Hs|].
  destruct (Pos.eqb s dest) eqn:E; [|left; now apply Pos.eqb_neq].
  right. apply Pos.eqb_eq in E. now split.
Qed.

Lemma strncpy_reads_positive d n : 0 < n -> 0 < strncpy_reads d n.
Proof.
  intros Hn. unfold strncpy_reads. destruct (strlen d) as [k|] eqn:E; [|exact Hn].
  destruct (strlen_until_nul _ _ E) as (Hk & _). lia.
Qed.

Lemma set_string_length_moved str len st str' st' :
  set_string_length str len st = Done (0, str') st' ->
  str' = str \/ heap st' !! str = None.
Proof.
  intros (b & Hb & [([=] & _)|(_ & cap' & d' & [[->|Hfree] Hh] & _)])%set_string_length_Done;
    [now left|].
  destruct (decide (str' = str)) as [->|Hne]; [now left|right].
  rewrite Hh, lookup_insert_ne, lookup_delete_eq by congruence. reflexivity.
Qed.

(** X17. A string used as its own source.  For a valid string that is not
    empty, [string_copy (&s, s)] is undefined behaviour ([strncpy] on
    overlapping objects), [string_prepend (&s, s)] never succeeds, for the
    same reason, and [string_append (&s, s)] succeeds only when the string
    did not move: if [realloc] moves it, the source pointer dangles. *)
Theorem own_source_hazards s st b :
  heap st !! s = Some b -> valid b -> 0 < meta_len b ->
  string_copy (Ref (Some s)) (Some s) st = Fault /\
  (forall r st', string_prepend (Ref (Some s)) (Some s) st <> Done (0, r) st') /\
  (forall r st', string_append (Ref (Some s)) (Some s) st = Done (0, r) st' ->
                 r = Ref (Some s)).
Proof.
  intros Hb Hv Hpos.
  pose proof (valid_bounds _ Hv) as (Hl0 & Hl1 & _).
  pose proof Hv as (_ & Hv1 & Hv2 & Hv3 & _).
  split; [|split].
  - unfold string_copy. rewrite (bind_eq _ _ _ _ _ (get_meta_eq _ _ _ Hb)).
    apply bind_Fault. unfold copy_string_at.
    rewrite (bind_eq _ _ _ _ _ (set_string_length_in_place s (meta_len b) st b Hb
      ltac:(rewrite to_size_small by (unfold META_SIZE in *; lia); lia))).
    simpl. apply bind_Fault. unfold strncpy_at.
    erewrite bind_eq; [|apply get_meta_eq; simpl; apply lookup_insert_eq].
    rewrite Pos.eqb_refl. unfold modify_chars.
    erewrite bind_eq; [|apply get_meta_eq; simpl; apply lookup_insert_eq].
    simpl. apply Z.ltb_lt in Hpos as Hpos'. rewrite Hpos'. simpl.
    pose proof (strncpy_reads_positive (chars b) _ Hpos) as Hr.
    apply Z.ltb_lt in Hr. now rewrite Hr.
  - intros r st' Hrun. unfold string_prepend in Hrun.
    rewrite (bind_eq _ _ _ _ _ (get_meta_eq _ _ _ Hb)) in Hrun.
    apply bind_Done in Hrun as ([res d1] & st4 & Hop & [[= <- _] _]%ret_Done).
    unfold prepend_string_at in Hop.
    rewrite (bind_eq _ _ _ _ _ (get_meta_eq _ _ _ Hb)) in Hop.
    apply bind_Done in Hop as ([res1 d2] & st1 & Hlen & Hk). simpl in Hk.
    destruct (res1 <? 0) eqn:Hres.
    { apply ret_Done in Hk as [[= <- _] _]. discriminate Hres. }
    destruct (set_string_length_zero _ _ _ _ _ _ Hlen Hres) as (-> & _).
    apply bind_Done in Hk as (u2 & st2 & Hmove & Hk).
    apply bind_Done in Hk as (u3 & st3 & Hcpy & _).
    apply strncpy_at_Inside_Done in Hcpy as (bs & Hs2 & [Hne|[<- Hcpy]]).
    + apply set_string_length_moved in Hlen as [->|Hgone]; [congruence|].
      apply modify_chars_Done in Hmove as (b1 & c1 & _ & _ & ->). simpl in Hs2.
      rewrite lookup_insert_ne in Hs2 by congruence. congruence.
    + apply modify_chars_Done in Hcpy as (b2 & c2 & _ & Hf & _).
      apply Z.ltb_lt in Hpos as Hpos'. rewrite Hpos' in Hf. simpl in Hf.
      pose proof (strncpy_reads_positive (chars b2) _ Hpos) as Hr.
      apply Z.ltb_lt in Hr. rewrite Hr in Hf. discriminate Hf.
  - intros r st' Hrun. unfold string_append in Hrun.
    rewrite (bind_eq _ _ _ _ _ (get_meta_eq _ _ _ Hb)) in Hrun.
    apply bind_Done in Hrun as ([res d1] & st4 & Hop & [[= <- ->] _]%ret_Done).
    unfold append_string_at in Hop.
    rewrite (bind_eq _ _ _ _ _ (get_meta_eq _ _ _ Hb)) in Hop.
    apply bind_Done in Hop as ([res1 d2] & st1 & Hlen & Hk). simpl in Hk.
    destruct (res1 <? 0) eqn:Hres.
    { apply ret_Done in Hk as [[= <- _] _]. discriminate Hres. }
    destruct (set_string_length_zero _ _ _ _ _ _ Hlen Hres) as (-> & _).
    apply bind_Done in Hk as (u2 & st2 & Hcpy & Hk).
    apply bind_Done in Hk as (u3 & st3 & _ & [[= <-] _]%ret_Done).
    apply strncpy_at_Inside_Done in Hcpy as (bs & Hs2 & _).
    apply set_string_length_moved in Hlen as [->|Hgone]; congruence.
Qed.

Lemma own_source_hazards_witness :
  string_copy (Ref (Some 1%positive)) (Some 1%positive) hello_state = Fault /\
  (forall r st', string_prepend (Ref (Some 1%positive)) (Some 1%positive) hello_state
                 <> Done (0, r) st') /\
  (forall r st', string_append (Ref (Some 1%positive)) (Some 1%positive) hello_state
                 = Done (0, r) st' -> r = Ref (Some 1%positive)).
Proof.
  apply (own_source_hazards 1%positive hello_state hello).
  - vm_compute. reflexivity.
  - check_valid.
  - vm_compute. reflexivity.
Defined.

(** Appending ["hello"] to itself: twice the content when the block grows in
    place, undefined behaviour when it moves. *)
Example string_append_itself_in_place :
  string_append (Ref (Some 1%positive)) (Some 1%positive) hello_state
  = Done (0, Ref (Some 1%positive))
         (State {[ 1%positive := Block 10 21 (bytes_of "hellohello" ++ replicate 11 NUL) ]}
                []).
Proof. vm_compute. reflexivity. Qed.

Example string_append_itself_moved :
  string_append (Ref (Some 1%positive)) (Some 1%positive)
                (State (heap hello_state) [AllocOk true []]) = Fault.
Proof. vm_compute. reflexivity. Qed.

(** * The first variant against the main one *)

Lemma bind_assoc {A B C : Type} (m : M A) (k : A -> M B) (h : B -> M C) st :
  bind (bind m k) h st = bind m (fun x => bind (k x) h) st.
Proof. unfold bind. now destruct (m st). Qed.

Lemma legacy_copy_v_unfolded d from len st :
  Legacy.string_copy_v (Ref (Some d)) (Some from) len st
  = (let! (res, d) := copy_string_at d from (to_size len) in
     ret (res, Ref (Some d))) st.
Proof.
  unfold Legacy.string_copy_v, copy_string_at. rewrite bind_assoc.
  apply bind_cong; [reflexivity|]. intros [res d1] st1 _.
  destruct (res <? 0); [reflexivity|].
  rewrite bind_assoc. apply bind_cong; [reflexivity|]. intros u2 st2 _.
  rewrite bind_assoc. apply bind_cong; [reflexivity|]. intros u3 st3 _.
  reflexivity.
Qed.

Lemma legacy_cat_v_unfolded d from len st :
  Legacy.string_cat_v (Ref (Some d)) (Some from) len st
  = (let! (res, d) := append_string_at d from (to_size len) in
     ret (res, Ref (Some d))) st.
Proof.
  unfold Legacy.string_cat_v, append_string_at. rewrite bind_assoc.
  apply bind_cong; [reflexivity|]. intros meta st0 _.
  rewrite bind_assoc. apply bind_cong; [reflexivity|]. intros [res d1] st1 _.
  destruct (res <? 0); [reflexivity|].
  rewrite bind_assoc. apply bind_cong; [reflexivity|]. intros u2 st2 _.
  rewrite bind_assoc. apply bind_cong; [reflexivity|]. intros u3 st3 _.
  reflexivity.
Qed.

Lemma copy_string_at_outside d arr len st :
  copy_string_at d (Outside arr) len st = copy_string d arr len st.
Proof. reflexivity. Qed.

Lemma append_string_at_outside d arr len st :
  append_string_at d (Outside arr) len st = append_string d arr len st.
Proof. reflexivity. Qed.

Lemma strlen_bound arr n : strlen arr = Some n -> 0 <= n < size_of arr.
Proof.
  revert n. induction arr as [|c arr IH]; intros n; simpl; [discriminate|].
  unfold size_of in *. destruct (Byte.eqb c NUL).
  - intros [= <-]. simpl. lia.
  - destruct (strlen arr) as [k|]; [|discriminate]. intros [= <-].
    specialize (IH k eq_refl). simpl. lia.
Qed.

(** X18. Apart from [string_empty], the first variant of the library does
    what the main one does: on every destination, source array and memory,
    its [string_copy_v], [string_copy_c], [string_cat_v] and [string_cat_c],
    written out in place there, give the result, the memory and the faults
    of the main variant's [string_copy_v], [string_copy_c],
    [string_append_v] and [string_append_c]. *)
Theorem first_variant_agrees dest arr len st :
  size_of (default [] arr) <= SIZE_MAX ->
  Legacy.string_copy_v dest (option_map Outside arr) len st
  = string_copy_v dest arr len st /\
  Legacy.string_cat_v dest (option_map Outside arr) len st
  = string_append_v dest arr len st /\
  Legacy.string_copy_c dest arr st = string_copy_c dest arr st /\
  Legacy.string_cat_c dest arr st = string_append_c dest arr st.
Proof.
  intros Hsize.
  destruct dest as [|[d|]], arr as [a|]; try (repeat split; reflexivity).
  simpl in Hsize. change (option_map Outside (Some a)) with (Some (Outside a)).
  assert (forall n, strlen a = Some n -> to_size n = n) as Hlen.
  { intros n Hn%strlen_bound. apply to_size_small. lia. }
  split; [|split; [|split]].
  - rewrite legacy_copy_v_unfolded. reflexivity.
  - rewrite legacy_cat_v_unfolded. reflexivity.
  - unfold Legacy.string_copy_c, string_copy_c.
    destruct (strlen a) as [n|] eqn:En; [|reflexivity].
    rewrite legacy_copy_v_unfolded, (Hlen n eq_refl). reflexivity.
  - unfold Legacy.string_cat_c, string_append_c.
    destruct (strlen a) as [n|] eqn:En; [|reflexivity].
    rewrite legacy_cat_v_unfolded, (Hlen n eq_refl). reflexivity.
Qed.

Lemma first_variant_agrees_witness :
  Legacy.string_copy_v (Ref (Some 1%positive))
    (option_map Outside (Some (bytes_of "world" ++ [NUL]))) 5 hello_state
  = string_copy_v (Ref (Some 1%positive)) (Some (bytes_of "world" ++ [NUL])) 5
      hello_state /\
  Legacy.string_cat_v (Ref (Some 1%positive))
    (option_map Outside (Some (bytes_of "world" ++ [NUL]))) 5 hello_state
  = string_append_v (Ref (Some 1%positive)) (Some (bytes_of "world" ++ [NUL])) 5
      hello_state /\
  Legacy.string_copy_c (Ref (Some 1%positive)) (Some (bytes_of "world" ++ [NUL]))
    hello_state
  = string_copy_c (Ref (Some 1%positive)) (Some (bytes_of "world" ++ [NUL]))
      hello_state /\
  Legacy.string_cat_c (Ref (Some 1%positive)) (Some (bytes_of "world" ++ [NUL]))
    hello_state
  = string_append_c (Ref (Some 1%positive)) (Some (bytes_of "world" ++ [NUL]))
      hello_state.
Proof.
  apply (first_variant_agrees (Ref (Some 1%positive))
           (Some (bytes_of "world" ++ [NUL])) 5 hello_state).
  vm_compute. discriminate.
Defined.

(** X25. The same holds for the functions of the first variant whose source
    is a string, and for its creation functions: [string_copy] and
    [string_cat] from a live string, which may be the destination itself,
    and [string_dup], [string_dup_c], [string_dup_v] and [string_sub_v] give
    the result, the memory and the faults of the main variant's
    [string_copy], [string_append], [string_dup], [string_dup_c],
    [string_dup_v] and [string_sub_v]. *)
Theorem first_variant_agrees_on_strings dest s arr start len st bs :
  heap st !! s = Some bs -> 0 <= meta_len bs <= SIZE_MAX ->
  size_of arr <= SIZE_MAX ->
  Legacy.string_copy dest (Some s) st = string_copy dest (Some s) st /\
  Legacy.string_cat dest (Some s) st = string_append dest (Some s) st /\
  Legacy.string_dup (Some s) st = string_dup (Some s) st /\
  Legacy.string_dup_c (Some arr) st = string_dup_c (Some arr) st /\
  Legacy.string_dup_v (Some arr) len st = string_dup_v (Some arr) len st /\
  Legacy.string_sub_v (Some arr) start len st = string_sub_v (Some arr) start len st.
Proof.
  intros Hs Hl Hsize.
  pose proof (to_size_small _ Hl) as Hsz.
  split; [|split; [|split; [|split; [|split]]]].
  - destruct dest as [|[d|]]; try reflexivity.
    unfold Legacy.string_copy, string_copy.
    rewrite !(bind_eq _ _ _ _ _ (get_meta_eq _ _ _ Hs)).
    rewrite legacy_copy_v_unfolded, Hsz. reflexivity.
  - destruct dest as [|[d|]]; try reflexivity.
    unfold Legacy.string_cat, string_append.
    rewrite !(bind_eq _ _ _ _ _ (get_meta_eq _ _ _ Hs)).
    rewrite legacy_cat_v_unfolded, Hsz. reflexivity.
  - unfold Legacy.string_dup, string_dup.
    rewrite !(bind_eq _ _ _ _ _ (get_meta_eq _ _ _ Hs)).
    change (Legacy.string_sub_v (Some (chars bs)) 0 (meta_len bs) st)
      with (sub_string (chars bs) (to_uint 0) (to_size (meta_len bs)) st).
    rewrite Hsz. reflexivity.
  - unfold Legacy.string_dup_c, string_dup_c.
    destruct (strlen arr) as [n|] eqn:En; [|reflexivity].
    apply strlen_bound in En.
    change (Legacy.string_sub_v (Some arr) 0 n st)
      with (sub_string arr (to_uint 0) (to_size n) st).
    rewrite to_size_small by lia. reflexivity.
  - reflexivity.
  - reflexivity.
Qed.

Lemma first_variant_agrees_on_strings_witness :
  Legacy.string_copy (Ref (Some 1%positive)) (Some 2%positive) two_strings
  = string_copy (Ref (Some 1%positive)) (Some 2%positive) two_strings /\
  Legacy.string_cat (Ref (Some 1%positive)) (Some 2%positive) two_strings
  = string_append (Ref (Some 1%positive)) (Some 2%positive) two_strings /\
  Legacy.string_dup (Some 2%positive) two_strings
  = string_dup (Some 2%positive) two_strings /\
  Legacy.string_dup_c (Some (bytes_of "hello" ++ [NUL])) two_strings
  = string_dup_c (Some (bytes_of "hello" ++ [NUL])) two_strings /\
  Legacy.string_dup_v (Some (bytes_of "hello" ++ [NUL])) 3 two_strings
  = string_dup_v (Some (bytes_of "hello" ++ [NUL])) 3 two_strings /\
  Legacy.string_sub_v (Some (bytes_of "hello" ++ [NUL])) 1 3 two_strings
  = string_sub_v (Some (bytes_of "hello" ++ [NUL])) 1 3 two_strings.
Proof.
  apply (first_variant_agrees_on_strings (Ref (Some 1%positive)) 2%positive
           (bytes_of "hello" ++ [NUL]) 1 3 two_strings world).
  - vm_compute. reflexivity.
  - vm_compute. split; discriminate.
  - vm_compute. discriminate.
Defined.

(** X19. The empty string of the first variant records capacity 0, yet its
    first successful [string_copy_v] repairs the record: the string is then
    valid, has the length asked for and capacity exactly [2 * len + 1], and
    holds what [strncpy] copies from the source. *)
Theorem first_variant_empty_then_copy st p st1 arr len d st2 :
  Legacy.string_empty st = Done (Some p) st1 -> 0 <= len <= SIZE_MAX ->
  Legacy.string_copy_v (Ref (Some p)) (Some (Outside arr)) len st1
  = Done (0, Ref (Some d)) st2 ->
  exists b', heap st2 !! d = Some b' /\ valid b' /\ meta_len b' = len /\
    meta_capacity b' = 2 * len + 1 /\
    strncpy_bytes arr (Z.to_nat len) = Some (content b').
Proof.
  change Legacy.string_empty with (empty_recording 0).
  intros [[[=] _]|(p0 & d0 & [= <-] & Hp & Hh & Hsz & Hnul)]%empty_recording_Done Hlen.
  rewrite legacy_copy_v_unfolded, to_size_small by exact Hlen.
  intros ([res d1] & st3 & Hop & [[= <- <-] ->]%ret_Done)%bind_Done.
  rewrite copy_string_at_outside in Hop.
  assert (heap st1 !! p = Some (Block 0 0 d0)) as Hb
    by (rewrite Hh; apply lookup_insert_eq).
  pose proof Hop as Hop'.
  eapply copy_string_Done in Hop' as
      [([=] & _)|(_ & b' & bs & Hrep & Hv' & Hl & _ & _ & Hbs & Hcont)];
    [|exact Hb|split; simpl; rewrite ?Hsz; unfold META_SIZE, SIZE_MAX; lia].
  pose proof (replaced_lookup _ _ _ _ _ Hrep) as Hb'.
  apply copy_string_header in Hop as (st4 & b2 & Hset & Hb2 & _ & Hcap).
  rewrite Hb' in Hb2. injection Hb2 as <-.
  pose proof Hset as (b0 & _ & [([=] & _)|(_ & cap' & d' & Hrep1 & _)])%set_string_length_Done.
  pose proof (replaced_lookup _ _ _ _ _ Hrep1) as Hb1.
  specialize (Hcap _ Hb1).
  pose proof Hv' as (Hv0 & Hv1 & _).
  destruct (set_string_length_capacity_exact p len st1 d st4 _ _ Hb Hset Hb1)
    as [Hgrow _]; simpl in *; try lia.
  exists b'. split; [exact Hb'|]. split; [exact Hv'|].
  split; [exact Hl|]. split; [lia|]. congruence.
Qed.

Lemma first_variant_empty_then_copy_witness :
  exists b',
    heap (state_after
            (Legacy.string_copy_v (Ref (Some 2%positive))
               (Some (Outside (bytes_of "hello"))) 5
               (state_after (Legacy.string_empty empty_state)))) !! 2%positive
    = Some b' /\ valid b' /\ meta_len b' = 5 /\
    meta_capacity b' = 2 * 5 + 1 /\
    strncpy_bytes (bytes_of "hello") (Z.to_nat 5) = Some (content b').
Proof.
  apply (first_variant_empty_then_copy empty_state 2%positive
           (state_after (Legacy.string_empty empty_state)) (bytes_of "hello") 5
           2%positive).
  - vm_compute. reflexivity.
  - unfold SIZE_MAX. lia.
  - vm_compute. reflexivity.
Defined.

(** * The variant with a [struct string] *)

(** ** Static functions *)

Lemma boxed_realloc_value_Done str n st ok st' :
  0 < n ->
  Boxed.realloc_value str n st = Done ok st' ->
  exists b, heap st !! str = Some b /\
    ((ok = false /\ heap st' = heap st) \/
     (ok = true /\ exists d', resized (chars b) d' n /\
        replaced st st' str str (Block (meta_len b) (meta_capacity b) d'))).
Proof.
  intros Hn. unfold Boxed.realloc_value.
  destruct (heap st !! str) as [b|] eqn:Hb; [|discriminate].
  destruct (n =? 0) eqn:Hz; [apply Z.eqb_eq in Hz; lia|].
  destruct (next_reply st) as [[|moved junk] st1] eqn:Hr;
    pose proof (next_reply_heap _ _ _ Hr) as Hh.
  - intros [= <- <-]. exists b. split; auto.
  - intros [= <- <-]. exists b. split; [reflexivity|]. right.
    split; [reflexivity|]. eexists. split; [apply realloc_bytes_resized; lia|].
    split; [now left|]. simpl. now rewrite Hh, insert_delete_eq.
Qed.

Lemma boxed_set_string_capacity_Done str capacity st res st' :
  0 < capacity ->
  Boxed.set_string_capacity str capacity st = Done res st' ->
  exists b, heap st !! str = Some b /\
    ((res = - ENOMEM /\ heap st' = heap st) \/
     (res = 0 /\ exists d', resized (chars b) d' capacity /\
                 replaced st st' str str (Block (meta_len b) capacity d'))).
Proof.
  intros Hc. unfold Boxed.set_string_capacity.
  intros (ok & st1 & (b & Hb & Hr)%boxed_realloc_value_Done & Hk)%bind_Done;
    [|exact Hc].
  exists b. split; [exact Hb|].
  destruct Hr as [[-> Hh]|(-> & d' & Hd & Hrep)].
  - apply ret_Done in Hk as [<- ->]. now left.
  - apply bind_Done in Hk as (u & st2 & (b1 & Hb1 & ->)%put_capacity_Done & [<- ->]%ret_Done).
    right. rewrite (replaced_lookup _ _ _ _ _ Hrep) in Hb1. injection Hb1 as <-. simpl.
    split; [reflexivity|]. exists d'. split; [exact Hd|].
    eapply replaced_trans; [exact Hrep|].
    apply replaced_in_place with (b := Block (meta_len b) (meta_capacity b) d').
    now apply replaced_lookup in Hrep.
Qed.

(** [Boxed.set_string_length] as its callers use it: it fails and changes
    nothing, or it sets the length over storage that kept its bytes. *)
Lemma boxed_set_string_length_cases str len st res st' b :
  heap st !! str = Some b -> describes_value b ->
  Boxed.set_string_length str len st = Done res st' ->
  (res = - ENOMEM /\ heap st' = heap st) \/
  (res = 0 /\ exists b1,
     replaced st st' str str b1 /\ meta_len b1 = len /\ describes_value b1 /\
     (forall k : nat, (k <= length (chars b))%nat -> (k <= length (chars b1))%nat ->
                      take k (chars b1) = take k (chars b)) /\
     ((to_size (len + 1) <= meta_capacity b /\ meta_capacity b1 = meta_capacity b) \/
      (meta_capacity b < to_size (len + 1) /\
       meta_capacity b1 = to_size (len * 2 + 1) /\
       size_of (chars b1) = meta_capacity b1))).
Proof.
  intros Hb [Hcap Hfit]. unfold Boxed.set_string_length.
  rewrite (bind_eq _ _ _ _ _ (get_meta_eq _ _ _ Hb)).
  intros (res1 & st1 & Hgrow & Hk)%bind_Done.
  pose proof (to_size_range (len * 2 + 1)) as Hrange.
  pose proof (doubled_nonzero len) as Hodd.
  destruct (meta_capacity b <? to_size (len + 1)) eqn:Hcmp.
  - apply Z.ltb_lt in Hcmp.
    apply boxed_set_string_capacity_Done in Hgrow as (b0 & Hb0 & Hcases); [|lia].
    rewrite Hb in Hb0. injection Hb0 as <-.
    destruct Hcases as [(-> & Hh)|(-> & d' & [Hsz Hkeep] & Hrep)].
    + simpl in Hk. apply ret_Done in Hk as [<- ->]. now left.
    + simpl in Hk.
      apply bind_Done in Hk as (u & st2 & (b1 & Hb1 & Hrep2)%put_len_replaced & [<- ->]%ret_Done).
      rewrite (replaced_lookup _ _ _ _ _ Hrep) in Hb1. injection Hb1 as <-. simpl in *.
      right. split; [reflexivity|]. eexists. split; [eauto using replaced_trans|].
      simpl. split; [reflexivity|]. split; [split; simpl; lia|].
      split; [exact Hkeep|]. right. auto.
  - apply Z.ltb_ge in Hcmp. apply ret_Done in Hgrow as [-> ->]. simpl in Hk.
    apply bind_Done in Hk as (u & st2 & (b1 & Hb1 & Hrep2)%put_len_replaced & [<- ->]%ret_Done).
    rewrite Hb in Hb1. injection Hb1 as <-.
    right. split; [reflexivity|]. eexists. split; [exact Hrep2|].
    simpl. split; [reflexivity|]. split; [now split|]. split; [auto|]. left. auto.
Qed.

Lemma boxed_valid_describes b : Boxed.valid b -> describes_value b.
Proof. unfold Boxed.valid, describes_value. tauto. Qed.

Lemma boxed_valid_intro len cap d :
  0 <= len -> d !! Z.to_nat len = Some NUL -> len + 1 <= cap ->
  cap <= size_of d -> size_of d <= SIZE_MAX ->
  Boxed.valid (Block len cap d).
Proof. unfold Boxed.valid. simpl. tauto. Qed.

Lemma boxed_valid_bounds b :
  Boxed.valid b ->
  0 <= meta_len b /\ meta_len b < size_of (chars b) /\
  (Z.to_nat (meta_len b) <= length (chars b))%nat /\
  length (content b) = Z.to_nat (meta_len b).
Proof.
  intros (H0 & H1 & H2 & H3 & H4). unfold content, size_of in *.
  rewrite length_take. lia.
Qed.

Lemma valid_boxed_valid b : valid b -> Boxed.valid b.
Proof.
  intros (H0 & H1 & H2 & H3 & H4). unfold META_SIZE in *.
  repeat split; auto; lia.
Qed.

Lemma boxed_grown_capacity b b1 len :
  0 <= len < size_of (chars b1) -> describes_value b1 ->
  (to_size (len + 1) <= meta_capacity b /\ meta_capacity b1 = meta_capacity b) \/
  (meta_capacity b < to_size (len + 1) /\
   meta_capacity b1 = to_size (len * 2 + 1) /\
   size_of (chars b1) = meta_capacity b1) ->
  len + 1 <= meta_capacity b1 /\ meta_capacity b <= meta_capacity b1.
Proof.
  intros Hlen [Hcap Hfit] Hcases.
  assert (to_size (len + 1) = len + 1) as Hs by (apply to_size_small; lia).
  rewrite Hs in Hcases. lia.
Qed.

Lemma boxed_copy_string_Done dest src len st res st' b :
  heap st !! dest = Some b -> describes_value b ->
  Boxed.copy_string dest src len st = Done res st' ->
  (res = - ENOMEM /\ heap st' = heap st) \/
  (res = 0 /\ exists b' bs,
     replaced st st' dest dest b' /\ Boxed.valid b' /\ meta_len b' = len /\
     meta_capacity b <= meta_capacity b' /\
     strncpy_bytes src (Z.to_nat len) = Some bs /\ content b' = bs).
Proof.
  intros Hb Hdesc. unfold Boxed.copy_string.
  intros (res1 & st1 & Hlen & Hk)%bind_Done.
  eapply boxed_set_string_length_cases in Hlen as
      [(-> & Hh)|(-> & b1 & Hrep1 & Hl1 & Hdesc1 & Hkeep & Hcap1)]; eauto.
  { apply ret_Done in Hk as [<- ->]. now left. }
  right. simpl in Hk.
  apply bind_Done in Hk as (u2 & st2 & (b2 & d2 & Hb2 & Hcpy & Hrep2)%modify_chars_replaced & Hk).
  rewrite (replaced_lookup _ _ _ _ _ Hrep1) in Hb2. injection Hb2 as <-.
  apply bind_Done in Hk as (u3 & st3 & (b3 & d3 & Hb3 & Hst & Hrep3)%modify_chars_replaced & Hk).
  rewrite (replaced_lookup _ _ _ _ _ Hrep2) in Hb3. injection Hb3 as <-.
  apply ret_Done in Hk as [<- ->]. simpl in *.
  apply strncpy_Some in Hcpy as (bs & Hbs & Hbl & Hn & Hin & ->).
  pose proof (overwrite_size _ _ _ Hin) as Hsz2.
  pose proof (store_size _ _ _ _ Hst) as Hsz3.
  pose proof (store_Some _ _ _ _ Hst) as (Hi & _ & _).
  destruct (boxed_grown_capacity b b1 len) as [Hc1 Hc2]; auto; [lia|].
  split; [reflexivity|]. exists (Block (meta_len b1) (meta_capacity b1) d3), bs.
  split; [eauto using replaced_trans|].
  destruct Hdesc1 as [Hd1 Hd2]. rewrite Hl1.
  split; [apply boxed_valid_intro; try lia; eauto using store_lookup|].
  split; [reflexivity|]. split; [exact Hc2|].
  split; [exact Hbs|].
  unfold content. simpl.
  rewrite (store_take _ _ _ _ (Z.to_nat len) Hst) by lia.
  replace (Z.to_nat len) with (Z.to_nat 0 + length bs)%nat by lia.
  rewrite take_overwrite_through by exact Hin. reflexivity.
Qed.

Lemma boxed_append_string_Done dest src len st res st' b :
  heap st !! dest = Some b -> Boxed.valid b ->
  Boxed.append_string dest src len st = Done res st' ->
  (res = - ENOMEM /\ heap st' = heap st) \/
  (res = 0 /\ exists b' bs,
     replaced st st' dest dest b' /\ Boxed.valid b' /\
     meta_len b' = meta_len b + len /\
     meta_capacity b <= meta_capacity b' /\
     strncpy_bytes src (Z.to_nat len) = Some bs /\
     content b' = content b ++ bs).
Proof.
  intros Hb Hv. pose proof (boxed_valid_describes _ Hv) as Hdesc.
  pose proof (boxed_valid_bounds _ Hv) as (Hl0 & Hl1 & Hl2 & Hl3).
  unfold Boxed.append_string.
  rewrite (bind_eq _ _ _ _ _ (get_meta_eq _ _ _ Hb)).
  intros (res1 & st1 & Hlen & Hk)%bind_Done.
  eapply boxed_set_string_length_cases in Hlen as
      [(-> & Hh)|(-> & b1 & Hrep1 & Hl & Hdesc1 & Hkeep & Hcap1)]; eauto.
  { apply ret_Done in Hk as [<- ->]. now left. }
  right. simpl in Hk.
  apply bind_Done in Hk as (u2 & st2 & (b2 & d2 & Hb2 & Hcpy & Hrep2)%modify_chars_replaced & Hk).
  rewrite (replaced_lookup _ _ _ _ _ Hrep1) in Hb2. injection Hb2 as <-.
  apply bind_Done in Hk as (u3 & st3 & (b3 & d3 & Hb3 & Hst & Hrep3)%modify_chars_replaced & Hk).
  rewrite (replaced_lookup _ _ _ _ _ Hrep2) in Hb3. injection Hb3 as <-.
  apply ret_Done in Hk as [<- ->]. simpl in *.
  apply strncpy_Some in Hcpy as (bs & Hbs & Hbl & Hn & Hin & ->).
  pose proof (overwrite_size _ _ _ Hin) as Hsz2.
  pose proof Hin as Hin'. apply in_range_spec in Hin'.
  destruct Hdesc1 as [Hd1 Hd2].
  assert (size_of bs = len) as Hbsz by (unfold size_of; lia).
  assert (to_size (meta_len b + len) = meta_len b + len) as Hsum
    by (apply to_size_small; lia).
  rewrite Hsum in *.
  pose proof (store_size _ _ _ _ Hst) as Hsz3.
  pose proof (store_Some _ _ _ _ Hst) as (Hi & _ & _).
  destruct (boxed_grown_capacity b b1 (meta_len b + len)) as [Hc1 Hc2];
    [lia|now split|exact Hcap1|].
  split; [reflexivity|]. exists (Block (meta_len b1) (meta_capacity b1) d3), bs.
  split; [eauto using replaced_trans|]. rewrite Hl.
  split; [apply boxed_valid_intro; try lia; eauto using store_lookup|].
  split; [reflexivity|]. split; [exact Hc2|]. split; [exact Hbs|].
  unfold content. simpl.
  rewrite (store_take _ _ _ _ _ Hst) by lia.
  replace (Z.to_nat (meta_len b + len))
    with (Z.to_nat (meta_len b) + length bs)%nat by lia.
  rewrite take_overwrite_through by exact Hin.
  rewrite Hkeep; [reflexivity|lia|unfold size_of in *; lia].
Qed.

Lemma boxed_prepend_string_Done dest src len st res st' b :
  heap st !! dest = Some b -> Boxed.valid b ->
  Boxed.prepend_string dest src len st = Done res st' ->
  (res = - ENOMEM /\ heap st' = heap st) \/
  (res = 0 /\ exists b' bs,
     replaced st st' dest dest b' /\ Boxed.valid b' /\
     meta_len b' = meta_len b + len /\
     meta_capacity b <= meta_capacity b' /\
     strncpy_bytes src (Z.to_nat len) = Some bs /\
     content b' = bs ++ content b).
Proof.
  intros Hb Hv. pose proof (boxed_valid_describes _ Hv) as Hdesc.
  pose proof (boxed_valid_bounds _ Hv) as (Hl0 & Hl1 & Hl2 & Hl3).
  unfold Boxed.prepend_string.
  rewrite (bind_eq _ _ _ _ _ (get_meta_eq _ _ _ Hb)).
  intros (res1 & st1 & Hlen & Hk)%bind_Done.
  eapply boxed_set_string_length_cases in Hlen as
      [(-> & Hh)|(-> & b1 & Hrep1 & Hl & Hdesc1 & Hkeep & Hcap1)]; eauto.
  { apply ret_Done in Hk as [<- ->]. now left. }
  right. simpl in Hk.
  apply bind_Done in Hk as (u2 & st2 & (b2 & d2 & Hb2 & Hmv & Hrep2)%modify_chars_replaced & Hk).
  rewrite (replaced_lookup _ _ _ _ _ Hrep1) in Hb2. injection Hb2 as <-.
  apply bind_Done in Hk as (u3 & st3 & (b3 & d3 & Hb3 & Hcpy & Hrep3)%modify_chars_replaced & Hk).
  rewrite (replaced_lookup _ _ _ _ _ Hrep2) in Hb3. injection Hb3 as <-.
  apply bind_Done in Hk as (u4 & st4 & (b4 & d4 & Hb4 & Hst & Hrep4)%modify_chars_replaced & Hk).
  rewrite (replaced_lookup _ _ _ _ _ Hrep3) in Hb4. injection Hb4 as <-.
  apply ret_Done in Hk as [<- ->]. simpl in *.
  apply memmove_Some in Hmv as (Hsrc & Hdst & Hml & ->).
  rewrite drop_0 in *.
  set (moved := take (Z.to_nat (meta_len b)) (chars b1)) in *.
  assert (in_range (chars b1) len (size_of moved) = true) as Hdst'.
  { unfold size_of. rewrite Hml, Z2Nat.id by lia. exact Hdst. }
  pose proof (overwrite_size _ _ _ Hdst') as Hsz2.
  apply strncpy_Some in Hcpy as (bs & Hbs & Hbl & Hn & Hin & ->).
  pose proof (overwrite_size _ _ _ Hin) as Hsz3.
  apply in_range_spec in Hdst.
  destruct Hdesc1 as [Hd1 Hd2].
  assert (to_size (meta_len b + len) = meta_len b + len) as Hsum
    by (apply to_size_small; lia).
  rewrite Hsum in *.
  pose proof (store_size _ _ _ _ Hst) as Hsz4.
  pose proof (store_Some _ _ _ _ Hst) as (Hi & _ & _).
  destruct (boxed_grown_capacity b b1 (meta_len b + len)) as [Hc1 Hc2];
    [lia|now split|exact Hcap1|].
  split; [reflexivity|]. exists (Block (meta_len b1) (meta_capacity b1) d4), bs.
  split; [eauto using replaced_trans|]. rewrite Hl.
  split; [apply boxed_valid_intro; try lia; eauto using store_lookup|].
  split; [reflexivity|]. split; [exact Hc2|]. split; [exact Hbs|].
  unfold content. simpl.
  rewrite (store_take _ _ _ _ _ Hst) by lia.
  rewrite overwrite_at_0.
  replace (Z.to_nat (meta_len b + len))
    with (length bs + Z.to_nat (meta_len b))%nat by lia.
  rewrite take_app_add. f_equal.
  rewrite take_drop_commute.
  replace (length bs + Z.to_nat (meta_len b))%nat
    with (Z.to_nat len + length moved)%nat by lia.
  rewrite take_overwrite_through by exact Hdst'.
  rewrite drop_app_length' by (rewrite length_take; unfold size_of in *; lia).
  unfold moved. apply Hkeep; [lia|unfold size_of in *; lia].
Qed.

(** ** Public operations *)

Lemma boxed_string_cut_Done s start len st res st' b :
  heap st !! s = Some b -> Boxed.valid b ->
  Boxed.string_cut (Some s) start len st = Done res st' ->
  (res = - ERANGE /\ st' = st /\ meta_len b < to_size (to_uint start + to_size len)) \/
  (res = 0 /\ to_uint start + to_size len <= meta_len b /\
   exists b', replaced st st' s s b' /\ Boxed.valid b' /\
     meta_len b' = to_size len /\ meta_capacity b' = meta_capacity b /\
     content b' = take (Z.to_nat (to_size len))
                       (drop (Z.to_nat (to_uint start)) (content b))).
Proof.
  intros Hb Hv. pose proof (boxed_valid_bounds _ Hv) as (Hl0 & Hl1 & Hl2 & Hl3).
  destruct Hv as (_ & Hv1 & Hv2 & Hv3 & _).
  pose proof (to_uint_range start) as Hstart. pose proof (to_size_range len) as Hlen.
  unfold Boxed.string_cut.
  rewrite (bind_eq _ _ _ _ _ (get_meta_eq _ _ _ Hb)). intros Hk.
  destruct (meta_len b <? to_size (to_uint start + to_size len)) eqn:Hcmp.
  { apply Z.ltb_lt in Hcmp. apply ret_Done in Hk as [<- ->]. auto. }
  apply Z.ltb_ge in Hcmp.
  apply bind_Done in Hk as (u2 & st2 & (b2 & d2 & Hb2 & Hmv & Hrep2)%modify_chars_replaced & Hk).
  rewrite Hb in Hb2. injection Hb2 as <-.
  apply bind_Done in Hk as (u3 & st3 & (b3 & d3 & Hb3 & Hst & Hrep3)%modify_chars_replaced & Hk).
  rewrite (replaced_lookup _ _ _ _ _ Hrep2) in Hb3. injection Hb3 as <-.
  apply bind_Done in Hk as (u4 & st4 & (b4 & Hb4 & Hrep4)%put_len_replaced & Hk).
  rewrite (replaced_lookup _ _ _ _ _ Hrep3) in Hb4. injection Hb4 as <-.
  apply ret_Done in Hk as [<- ->]. simpl in *.
  apply memmove_Some in Hmv as (Hsrc & Hdst & Hml & ->).
  set (moved := take (Z.to_nat (to_size len)) (drop (Z.to_nat (to_uint start)) (chars b))) in *.
  assert (in_range (chars b) 0 (size_of moved) = true) as Hdst'.
  { unfold size_of. rewrite Hml, Z2Nat.id by lia. exact Hdst. }
  pose proof (overwrite_size _ _ _ Hdst') as Hsz2.
  pose proof (store_size _ _ _ _ Hst) as Hsz3.
  pose proof (store_Some _ _ _ _ Hst) as (Hi & _ & _).
  apply in_range_spec in Hsrc.
  assert (to_size (to_uint start + to_size len) = to_uint start + to_size len) as Hsum
    by (apply to_size_small; lia).
  rewrite Hsum in Hcmp.
  right. split; [reflexivity|]. split; [exact Hcmp|].
  exists (Block (to_size len) (meta_capacity b) d3).
  split; [eauto using replaced_trans|].
  split; [apply boxed_valid_intro; try lia; eauto using store_lookup|].
  split; [reflexivity|]. split; [reflexivity|].
  unfold content. simpl.
  rewrite (store_take _ _ _ _ _ Hst) by lia.
  rewrite overwrite_at_0, take_app_length' by lia.
  unfold moved. symmetry. apply take_drop_take. lia.
Qed.

Lemma boxed_string_clear_Done s st res st' b :
  heap st !! s = Some b -> Boxed.valid b ->
  Boxed.string_clear (Some s) st = Done res st' ->
  res = 0 /\ exists b', replaced st st' s s b' /\ Boxed.valid b' /\
    meta_len b' = 0 /\ meta_capacity b' = meta_capacity b /\ content b' = [].
Proof.
  intros Hb Hv. pose proof (boxed_valid_bounds _ Hv) as (Hl0 & Hl1 & Hl2 & Hl3).
  destruct Hv as (_ & Hv1 & Hv2 & Hv3 & _).
  unfold Boxed.string_clear.
  intros (u1 & st1 & (b1 & Hb1 & Hrep1)%put_len_replaced & Hk)%bind_Done.
  rewrite Hb in Hb1. injection Hb1 as <-.
  apply bind_Done in Hk as (u2 & st2 & (b2 & d2 & Hb2 & Hst & Hrep2)%modify_chars_replaced & Hk).
  rewrite (replaced_lookup _ _ _ _ _ Hrep1) in Hb2. injection Hb2 as <-.
  apply ret_Done in Hk as [-> ->]. simpl in *.
  pose proof (store_size _ _ _ _ Hst) as Hsz.
  split; [reflexivity|]. exists (Block 0 (meta_capacity b) d2).
  split; [eauto using replaced_trans|].
  split; [apply boxed_valid_intro; try lia; eauto using store_lookup|].
  repeat split.
Qed.

Lemma boxed_string_reserve_Done s size st res st' b :
  heap st !! s = Some b -> Boxed.valid b ->
  Boxed.string_reserve (Some s) size st = Done res st' ->
  (res = 0 /\ st' = st /\ to_size size <= meta_capacity b) \/
  (res = - ENOMEM /\ heap st' = heap st) \/
  (res = 0 /\ meta_capacity b < to_size size /\ exists b',
     replaced st st' s s b' /\ Boxed.valid b' /\
     meta_len b' = meta_len b /\ meta_capacity b' = to_size size /\
     content b' = content b).
Proof.
  intros Hb Hv. pose proof (boxed_valid_bounds _ Hv) as (Hl0 & Hl1 & Hl2 & Hl3).
  pose proof Hv as (_ & Hv1 & Hv2 & Hv3 & Hv4).
  pose proof (to_size_range size) as Hsize.
  unfold Boxed.string_reserve.
  rewrite (bind_eq _ _ _ _ _ (get_meta_eq _ _ _ Hb)). intros Hk.
  destruct (to_size size <=? meta_capacity b) eqn:Hcmp.
  { apply Z.leb_le in Hcmp. apply ret_Done in Hk as [<- ->]. auto. }
  apply Z.leb_gt in Hcmp. right.
  apply boxed_set_string_capacity_Done in Hk as (b0 & Hb0 & Hcases); [|lia].
  rewrite Hb in Hb0. injection Hb0 as <-.
  destruct Hcases as [(-> & Hh)|(-> & d' & [Hsz Hkeep] & Hrep)]; [now left|right].
  split; [reflexivity|]. split; [exact Hcmp|].
  exists (Block (meta_len b) (to_size size) d').
  split; [exact Hrep|].
  assert (length d' = Z.to_nat (to_size size)) as Hd' by (unfold size_of in Hsz; lia).
  split.
  - apply boxed_valid_intro; try lia.
    rewrite (resized_lookup (chars b) d' (to_size size)); auto;
      [split; auto|unfold size_of in *; lia..].
  - repeat split. unfold content. simpl. apply Hkeep; unfold size_of in *; lia.
Qed.

Lemma boxed_string_fit_Done s st res st' b :
  heap st !! s = Some b -> Boxed.valid b ->
  Boxed.string_fit (Some s) st = Done res st' ->
  (res = - ENOMEM /\ heap st' = heap st) \/
  (res = 0 /\ exists b',
     replaced st st' s s b' /\ Boxed.valid b' /\
     meta_len b' = meta_len b /\ meta_capacity b' = meta_len b + 1 /\
     content b' = content b).
Proof.
  intros Hb Hv. pose proof (boxed_valid_bounds _ Hv) as (Hl0 & Hl1 & Hl2 & Hl3).
  pose proof Hv as (_ & Hv1 & Hv2 & Hv3 & Hv4).
  unfold Boxed.string_fit.
  rewrite (bind_eq _ _ _ _ _ (get_meta_eq _ _ _ Hb)). intros Hk.
  assert (to_size (meta_len b + 1) = meta_len b + 1) as Hsum
    by (apply to_size_small; lia).
  rewrite Hsum in Hk.
  apply boxed_set_string_capacity_Done in Hk as (b0 & Hb0 & Hcases); [|lia].
  rewrite Hb in Hb0. injection Hb0 as <-.
  destruct Hcases as [(-> & Hh)|(-> & d' & [Hsz Hkeep] & Hrep)]; [now left|right].
  split; [reflexivity|].
  exists (Block (meta_len b) (meta_len b + 1) d').
  split; [exact Hrep|].
  split.
  - apply boxed_valid_intro; try lia.
    rewrite (resized_lookup (chars b) d' (meta_len b + 1)); auto;
      [split; auto|unfold size_of in *; lia..].
  - repeat split. unfold content. simpl. apply Hkeep; unfold size_of in *; lia.
Qed.

Lemma boxed_string_printf_Done s f st res st' b :
  heap st !! s = Some b -> Boxed.valid b ->
  Boxed.string_printf (Some s) (Some f) st = Done res st' ->
  (res = -1 /\ exists b', replaced st st' s s b') \/
  (exists out, f = FmtOutput out /\ size_of out <= INT_MAX /\ res = size_of out /\
   exists b', replaced st st' s s b' /\ Boxed.valid b' /\
     meta_capacity b' = meta_capacity b /\
     meta_len b' = Z.min (size_of out) (meta_capacity b - 1) /\
     content b' = take (Z.to_nat (meta_capacity b - 1)) out).
Proof.
  intros Hb Hv. pose proof (boxed_valid_bounds _ Hv) as (Hl0 & Hl1 & Hl2 & Hl3).
  pose proof Hv as (_ & Hv1 & Hv2 & Hv3 & Hv4).
  unfold Boxed.string_printf.
  rewrite (bind_eq _ _ _ _ _ (get_meta_eq _ _ _ Hb)).
  intros (res1 & st1 & Hpr & Hk)%bind_Done.
  apply bind_Done in Hk as (u2 & st2 & (b2 & Hb2 & Hrep2)%put_len_replaced & [-> ->]%ret_Done).
  unfold vsnprintf in Hpr.
  destruct f as [|out].
  { apply ret_Done in Hpr as [-> ->]. left. split; [reflexivity|]. eauto. }
  destruct (INT_MAX <? size_of out) eqn:Hbig.
  { apply ret_Done in Hpr as [-> ->]. left. split; [reflexivity|]. eauto. }
  apply Z.ltb_ge in Hbig.
  destruct (meta_capacity b =? 0) eqn:Hz; [apply Z.eqb_eq in Hz; lia|].
  apply bind_Done in Hpr as (u1 & st3 & (b1 & d1 & Hb1 & Hw & Hrep1)%modify_chars_replaced & [-> ->]%ret_Done).
  rewrite Hb in Hb1. injection Hb1 as <-.
  rewrite (replaced_lookup _ _ _ _ _ Hrep1) in Hb2. injection Hb2 as <-. simpl in *.
  set (w := take (Z.to_nat (meta_capacity b - 1)) out ++ [NUL]) in *.
  destruct (in_range (chars b) 0 (size_of w)) eqn:Hin; [|discriminate].
  injection Hw as <-.
  pose proof (overwrite_size _ _ _ Hin) as Hsz.
  pose proof (size_of_nonneg out) as Hout.
  assert (length (take (Z.to_nat (meta_capacity b - 1)) out)
          = Z.to_nat (Z.min (size_of out) (meta_capacity b - 1))) as Hk
    by (rewrite length_take; unfold size_of; lia).
  assert ((if to_size (size_of out) <? meta_capacity b then to_size (size_of out)
           else to_size (meta_capacity b - 1))
          = Z.min (size_of out) (meta_capacity b - 1)) as Hlen.
  { rewrite !to_size_small by (unfold INT_MAX, SIZE_MAX in *; lia).
    destruct (size_of out <? meta_capacity b) eqn:E;
      [apply Z.ltb_lt in E|apply Z.ltb_ge in E]; lia. }
  rewrite Hlen in *.
  right. exists out. split; [reflexivity|]. split; [exact Hbig|]. split; [reflexivity|].
  eexists. split; [eauto using replaced_trans|].
  split.
  - apply boxed_valid_intro; try lia.
    rewrite <- Hk.
    replace (length (take (Z.to_nat (meta_capacity b - 1)) out))
      with (Z.to_nat 0 + length (take (Z.to_nat (meta_capacity b - 1)) out))%nat by lia.
    rewrite lookup_overwrite_inside by (auto; unfold w; rewrite length_app; simpl; lia).
    unfold w. rewrite lookup_app_r by lia. now rewrite Nat.sub_diag.
  - split; [reflexivity|]. split; [reflexivity|].
    unfold content. simpl. rewrite overwrite_at_0. unfold w. rewrite <- Hk.
    rewrite <- app_assoc. apply take_app_length.
Qed.

Ltac boxed_success b' :=
  right; right;
  split; [first [lia | apply size_of_nonneg]|];
  exists b';
  split; [assumption|];
  split; [assumption|];
  intros ?; first [lia | congruence].

Ltac boxed_failure :=
  left; unfold ENOMEM, ERANGE;
  split; [lia|]; split; [lia|]; first [assumption | reflexivity].

(** What a public mutating operation of this variant does to a valid string:
    it fails and leaves the heap as it was; or the formatted write fails; or
    it succeeds and the string, at the same address, is valid again, with a
    capacity that did not shrink unless the operation is [string_fit]. *)
Lemma mutate_boxed_cases m s st res st' b :
  heap st !! s = Some b -> Boxed.valid b ->
  mutate_boxed m s st = Done res st' ->
  (res < 0 /\ res <> -1 /\ heap st' = heap st) \/
  (res = -1 /\ (exists f, m = Printf f) /\ exists b', replaced st st' s s b') \/
  (0 <= res /\ exists b',
     replaced st st' s s b' /\ Boxed.valid b' /\
     (m <> Fit -> meta_capacity b <= meta_capacity b')).
Proof.
  intros Hb Hv Hrun. pose proof (boxed_valid_describes _ Hv) as Hdesc.
  pose proof (replaced_refl st s b Hb) as Hsame.
  destruct m as [src len|src len|src len|start len| |f|size|]; simpl in Hrun.
  - eapply boxed_copy_string_Done in Hrun as
        [(-> & Hh)|(-> & b' & bs & Hrep & Hv' & _ & Hc & _)]; eauto;
      [boxed_failure|boxed_success b'].
  - eapply boxed_append_string_Done in Hrun as
        [(-> & Hh)|(-> & b' & bs & Hrep & Hv' & _ & Hc & _)]; eauto;
      [boxed_failure|boxed_success b'].
  - eapply boxed_prepend_string_Done in Hrun as
        [(-> & Hh)|(-> & b' & bs & Hrep & Hv' & _ & Hc & _)]; eauto;
      [boxed_failure|boxed_success b'].
  - eapply boxed_string_cut_Done in Hrun as
        [(-> & -> & _)|(-> & _ & b' & Hrep & Hv' & _ & Hc & _)]; eauto;
      [boxed_failure|boxed_success b'].
  - eapply boxed_string_clear_Done in Hrun as (-> & b' & Hrep & Hv' & _ & Hc & _); eauto.
    boxed_success b'.
  - eapply boxed_string_printf_Done in Hrun as
        [(-> & Hrep)|(out & -> & _ & -> & b' & Hrep & Hv' & Hc & _)]; eauto.
    + right; left. eauto.
    + boxed_success b'.
  - eapply boxed_string_reserve_Done in Hrun as
        [(-> & -> & _)|[(-> & Hh)|(-> & Hlt & b' & Hrep & Hv' & _ & Hc & _)]]; eauto;
      [boxed_success b|boxed_failure|boxed_success b'].
  - eapply boxed_string_fit_Done in Hrun as
        [(-> & Hh)|(-> & b' & Hrep & Hv' & _)]; eauto;
      [boxed_failure|boxed_success b'].
Qed.

(** ** Creation *)

Lemma boxed_create_string_Done len st r st' :
  Boxed.create_string len st = Done r st' ->
  (r = None /\ heap st' = heap st) \/
  (exists p, r = Some p /\ heap st !! p = None /\
     heap st' = <[p := Block len (to_size (len + 1))
                          (replicate (Z.to_nat (to_size (len + 1))) NUL)]> (heap st)).
Proof.
  unfold Boxed.create_string.
  intros (m & st1 & Hm & Hk)%bind_Done.
  unfold Boxed.malloc_header in Hm.
  destruct (next_reply st) as [[|moved junk] st0] eqn:Hr;
    pose proof (next_reply_heap _ _ _ Hr) as Hh; injection Hm as <- <-.
  { apply ret_Done in Hk as [-> ->]. now left. }
  pose proof (fresh_addr_fresh (heap st0)) as Hfresh.
  set (p := fresh_addr (heap st0)) in *.
  apply bind_Done in Hk as (ok & st2 & Hc & Hk).
  unfold Boxed.calloc_value in Hc. simpl in Hc.
  rewrite lookup_insert_eq in Hc.
  match type of Hc with
  | context [next_reply ?s] =>
      destruct (next_reply s) as [[|moved' junk'] st3] eqn:Hr2;
        pose proof (next_reply_heap _ _ _ Hr2) as Hh2; simpl in Hh2
  end; injection Hc as <- <-.
  - apply bind_Done in Hk as (u & st4 & Hfree & [-> ->]%ret_Done).
    unfold free in Hfree. rewrite Hh2, lookup_insert_eq in Hfree.
    injection Hfree as Hst4. subst st4. left. split; [reflexivity|]. simpl.
    rewrite delete_insert_eq, <- Hh. apply delete_id. exact Hfresh.
  - apply bind_Done in Hk as (u1 & st4 & (b1 & Hb1 & ->)%put_len_Done & Hk).
    apply bind_Done in Hk as (u2 & st5 & (b2 & Hb2 & ->)%put_capacity_Done & [-> ->]%ret_Done).
    simpl in *. rewrite lookup_insert_eq in Hb1. injection Hb1 as <-.
    rewrite lookup_insert_eq in Hb2. injection Hb2 as <-. simpl.
    right. exists p. split; [reflexivity|]. rewrite <- Hh. split; [exact Hfresh|].
    rewrite Hh2, !insert_insert_eq. reflexivity.
Qed.

Lemma boxed_sub_string_Done src start len st r st' :
  Boxed.sub_string src start len st = Done r st' ->
  (r = None /\ heap st' = heap st) \/
  (exists p b' from,
     r = Some p /\ heap st !! p = None /\ heap st' = <[p := b']> (heap st) /\
     Boxed.valid b' /\ meta_len b' = len /\ meta_capacity b' = len + 1 /\
     advance src start = Some from /\
     strncpy_bytes from (Z.to_nat len) = Some (content b')).
Proof.
  unfold Boxed.sub_string.
  intros (m & st1 & [[-> Hh]|(p & -> & Hp & Hh)]%boxed_create_string_Done & Hk)%bind_Done.
  { apply ret_Done in Hk as [-> ->]. now left. }
  destruct (advance src start) as [from|] eqn:Hadv; [|discriminate].
  apply bind_Done in Hk as (u & st2 & (b1 & d & Hb1 & Hcpy & ->)%modify_chars_Done & [-> ->]%ret_Done).
  rewrite Hh, lookup_insert_eq in Hb1. injection Hb1 as <-. simpl in *.
  apply strncpy_Some in Hcpy as (bs & Hbs & Hbl & Hn & Hin & ->).
  pose proof (to_size_range (len + 1)) as Hrange.
  pose proof Hin as Hin'. apply in_range_spec in Hin'.
  unfold size_of in Hin'. rewrite length_replicate in Hin'.
  assert (to_size (len + 1) = len + 1) as Hcap.
  { destruct (Z_le_gt_dec (len + 1) SIZE_MAX) as [Hok|Hbig];
      [apply to_size_small; lia|].
    assert (to_size (len + 1) = len + 1 - 2 ^ 64) as Hw
      by (apply to_size_wrapped; unfold SIZE_MAX in *; lia).
    unfold SIZE_MAX in *. lia. }
  rewrite Hcap in *.
  right. eexists p, _, from. split; [reflexivity|]. split; [exact Hp|].
  split; [rewrite Hh, insert_insert_eq; reflexivity|].
  assert (size_of (overwrite (replicate (Z.to_nat (len + 1)) NUL) 0 bs) = len + 1) as Hsz.
  { rewrite overwrite_size by exact Hin. unfold size_of. rewrite length_replicate. lia. }
  split.
  - apply boxed_valid_intro; try lia.
    rewrite overwrite_at_0, lookup_app_r by lia.
    rewrite lookup_drop. apply lookup_replicate_2. lia.
  - split; [reflexivity|]. split; [reflexivity|]. split; [reflexivity|].
    rewrite Hbs. f_equal. unfold content. simpl.
    rewrite overwrite_at_0. rewrite <- Hbl. symmetry. apply take_app_length.
Qed.

(** X20. In the variant with a [struct string], [string_sub_v] on a non-NULL
    array either returns NULL and leaves the heap as it was, also when the
    header was allocated and the characters were not (the header is freed
    again), or returns a new valid string of length [len] and capacity
    [len + 1] that holds what [strncpy] copies from [src + start]; the
    terminator is the zero that [calloc] left. *)
Theorem boxed_string_sub_v_result arr start len st r st' :
  0 <= start <= UINT_MAX -> 0 <= len <= SIZE_MAX ->
  Boxed.string_sub_v (Some arr) start len st = Done r st' ->
  (r = None /\ heap st' = heap st) \/
  (exists p b', r = Some p /\ heap st !! p = None /\
     heap st' = <[p := b']> (heap st) /\ Boxed.valid b' /\
     meta_len b' = len /\ meta_capacity b' = len + 1 /\
     strncpy_bytes (drop (Z.to_nat start) arr) (Z.to_nat len) = Some (content b')).
Proof.
  intros Hstart Hlen. unfold Boxed.string_sub_v.
  rewrite to_uint_small, to_size_small by assumption.
  intros [H|(p & b' & from & -> & Hp & Hh & Hv & Hl & Hc & Hadv & Hbs)]%boxed_sub_string_Done;
    [now left|right].
  unfold advance in Hadv.
  destruct ((0 <=? start) && (start <=? size_of arr)); [|discriminate].
  injection Hadv as <-. exists p, b'. auto 10.
Qed.

(** The characters cannot be allocated: the header is released again. *)
Lemma boxed_string_sub_v_result_witness :
  (@None positive = None /\
   heap (state_after (Boxed.string_sub_v (Some (bytes_of "ello world")) 1 8
                        (State (heap hello_state) [AllocOk false []; AllocFail])))
   = heap (State (heap hello_state) [AllocOk false []; AllocFail])) \/
  (exists p b', @None positive = Some p /\
     heap (State (heap hello_state) [AllocOk false []; AllocFail]) !! p = None /\
     heap (state_after (Boxed.string_sub_v (Some (bytes_of "ello world")) 1 8
                          (State (heap hello_state) [AllocOk false []; AllocFail])))
     = <[p := b']> (heap (State (heap hello_state) [AllocOk false []; AllocFail])) /\
     Boxed.valid b' /\ meta_len b' = 8 /\ meta_capacity b' = 8 + 1 /\
     strncpy_bytes (drop (Z.to_nat 1) (bytes_of "ello world")) (Z.to_nat 8)
     = Some (content b')).
Proof.
  apply (boxed_string_sub_v_result (bytes_of "ello world") 1 8
           (State (heap hello_state) [AllocOk false []; AllocFail])).
  - unfold UINT_MAX. lia.
  - unfold SIZE_MAX. lia.
  - vm_compute. reflexivity.
Defined.

Example boxed_string_sub_v_readme :
  Boxed.string_sub_v (Some (bytes_of "ello world")) 1 8 empty_state
  = Done (Some 2%positive)
         (State {[ 2%positive := Block 8 9 (bytes_of "llo worl" ++ [NUL]) ]} []).
Proof. vm_compute. reflexivity. Qed.

(** ** Invariants *)

(** X21. In the variant with a [struct string], a public mutating operation
    on a valid string, whether it succeeds or fails, touches no other
    string; when it succeeds, the string is at the same address and is valid
    again, with a capacity that did not shrink unless the operation is
    [string_fit]. *)
Theorem boxed_mutation_keeps_invariants m s st res st' b :
  heap st !! s = Some b -> Boxed.valid b ->
  mutate_boxed m s st = Done res st' ->
  (forall q, q <> s -> heap st' !! q = heap st !! q) /\
  (0 <= res -> exists b', heap st' !! s = Some b' /\ Boxed.valid b' /\
     (m <> Fit -> meta_capacity b <= meta_capacity b')).
Proof.
  intros Hb Hv Hrun.
  assert (forall b', replaced st st' s s b' ->
                     forall q, q <> s -> heap st' !! q = heap st !! q) as Hframe.
  { intros b' [_ Hh] q Hq. now rewrite Hh, lookup_insert_ne, lookup_delete_ne. }
  apply (mutate_boxed_cases m s st res st' b Hb Hv) in Hrun as
      [(Hneg & _ & Hh)|[(-> & _ & b' & Hrep)|(_ & b' & Hrep & Hv' & Hcap)]].
  - split; [intros q _; now rewrite Hh|lia].
  - split; [eauto|lia].
  - split; [eauto|]. intros _. exists b'. eauto using replaced_lookup.
Qed.

Lemma boxed_mutation_keeps_invariants_witness :
  (forall q, q <> 1%positive ->
     heap (state_after (mutate_boxed (Prepend (bytes_of "oh, ") 4) 1%positive
                          two_strings)) !! q = heap two_strings !! q) /\
  (0 <= 0 -> exists b',
     heap (state_after (mutate_boxed (Prepend (bytes_of "oh, ") 4) 1%positive
                          two_strings)) !! 1%positive = Some b' /\
     Boxed.valid b' /\
     (Prepend (bytes_of "oh, ") 4 <> Fit -> meta_capacity hello <= meta_capacity b')).
Proof.
  apply (boxed_mutation_keeps_invariants (Prepend (bytes_of "oh, ") 4) 1%positive
           two_strings 0 _ hello).
  - vm_compute. reflexivity.
  - check_valid.
  - vm_compute. reflexivity.
Defined.

(** X22. What the three joining operations of the variant with a
    [struct string] leave in a valid string of content [C] when they
    succeed: [string_copy_v] what [strncpy] copies from the source,
    [string_append_v] the same after [C], [string_prepend_v] the same before
    [C]; the new length is the length asked for, added to the old one for the
    last two. *)
Theorem boxed_joined_content m s st st' b :
  heap st !! s = Some b -> Boxed.valid b -> resizes m ->
  mutate_boxed m s st = Done 0 st' ->
  exists b', heap st' !! s = Some b' /\
    match m with
    | Copy src len =>
        meta_len b' = to_size len /\
        strncpy_bytes src (Z.to_nat (to_size len)) = Some (content b')
    | Append src len =>
        meta_len b' = meta_len b + to_size len /\
        exists P, strncpy_bytes src (Z.to_nat (to_size len)) = Some P /\
                  content b' = content b ++ P
    | Prepend src len =>
        meta_len b' = meta_len b + to_size len /\
        exists P, strncpy_bytes src (Z.to_nat (to_size len)) = Some P /\
                  content b' = P ++ content b
    | _ => True
    end.
Proof.
  intros Hb Hv Hm Hrun. pose proof (boxed_valid_describes _ Hv) as Hdesc.
  destruct m as [src len|src len|src len| | | | |]; try contradiction;
    simpl in Hrun.
  - eapply boxed_copy_string_Done in Hrun as
        [([=] & _)|(_ & b' & bs & Hrep & _ & Hl & _ & Hbs & Hcont)]; eauto.
    exists b'. split; [eauto using replaced_lookup|]. split; congruence.
  - eapply boxed_append_string_Done in Hrun as
        [([=] & _)|(_ & b' & bs & Hrep & _ & Hl & _ & Hbs & Hcont)]; eauto.
    exists b'. split; [eauto using replaced_lookup|]. eauto.
  - eapply boxed_prepend_string_Done in Hrun as
        [([=] & _)|(_ & b' & bs & Hrep & _ & Hl & _ & Hbs & Hcont)]; eauto.
    exists b'. split; [eauto using replaced_lookup|]. eauto.
Qed.

Lemma boxed_joined_content_witness :
  exists b',
    heap (state_after (mutate_boxed (Append (bytes_of ", world") 7) 1%positive
                         hello_state)) !! 1%positive = Some b' /\
    (meta_len b' = meta_len hello + to_size 7 /\
     exists P, strncpy_bytes (bytes_of ", world") (Z.to_nat (to_size 7)) = Some P /\
               content b' = content hello ++ P).
Proof.
  apply (boxed_joined_content (Append (bytes_of ", world") 7) 1%positive
           hello_state _ hello).
  - vm_compute. reflexivity.
  - check_valid.
  - exact I.
  - vm_compute. reflexivity.
Defined.

(** * Creation of the empty string and queries, main variant *)

(** X23. [string_empty] of the main variant either returns NULL and leaves
    the heap as it was, or returns a new valid string at an address that was
    free, next to the strings already there, with length 0, capacity 1 and
    no content. *)
Theorem string_empty_result st r st' :
  string_empty st = Done r st' ->
  (r = None /\ heap st' = heap st) \/
  (exists p b', r = Some p /\ heap st !! p = None /\
     heap st' = <[p := b']> (heap st) /\ valid b' /\
     meta_len b' = 0 /\ meta_capacity b' = 1 /\ content b' = [] /\
     forall q c, heap st !! q = Some c -> heap st' !! q = Some c).
Proof.
  intros [H|(p & b' & -> & Hp & Hh & Hv & Hl & Hc & Hcont)]%string_empty_Done;
    [now left|right].
  exists p, b'. repeat (split; [assumption || reflexivity|]).
  intros q c Hq. rewrite Hh, lookup_insert_ne; [exact Hq|congruence].
Qed.

Lemma string_empty_result_witness :
  (Some 3%positive = None /\
   heap (state_after (string_empty two_strings)) = heap two_strings) \/
  (exists p b', Some 3%positive = Some p /\ heap two_strings !! p = None /\
     heap (state_after (string_empty two_strings)) = <[p := b']> (heap two_strings) /\
     valid b' /\ meta_len b' = 0 /\ meta_capacity b' = 1 /\ content b' = [] /\
     forall q c, heap two_strings !! q = Some c ->
                 heap (state_after (string_empty two_strings)) !! q = Some c).
Proof.
  apply (string_empty_result two_strings). vm_compute. reflexivity.
Defined.

Lemma to_ssize_cases z :
  0 <= z <= SIZE_MAX ->
  (z < 2 ^ 63 -> to_ssize z = z) /\ (2 ^ 63 <= z -> to_ssize z = z - 2 ^ 64).
Proof.
  intros Hz. unfold to_ssize, SIZE_MAX in *. split; intros H.
  - rewrite Z.mod_small; lia.
  - replace (z + 2 ^ 63) with (z - 2 ^ 63 + 1 * 2 ^ 64) by lia.
    rewrite Z.mod_add by lia. rewrite Z.mod_small; lia.
Qed.

(** X24. [string_len] and [string_capacity] on a valid string change nothing
    and report the recorded length and capacity as long as these are below
    [2 ^ 63]; from [2 ^ 63] on the result is negative, as an error code
    is. *)
Theorem queries_report s st b :
  heap st !! s = Some b -> valid b ->
  exists n c,
    string_len (Some s) st = Done n st /\
    string_capacity (Some s) st = Done c st /\
    (meta_len b < 2 ^ 63 -> n = meta_len b) /\
    (2 ^ 63 <= meta_len b -> n < 0) /\
    (meta_capacity b < 2 ^ 63 -> c = meta_capacity b) /\
    (2 ^ 63 <= meta_capacity b -> c < 0).
Proof.
  intros Hb (H0 & H1 & H2 & H3 & _).
  assert (0 <= meta_len b <= SIZE_MAX) as Hl by (unfold META_SIZE in *; lia).
  assert (0 <= meta_capacity b <= SIZE_MAX) as Hc by (unfold META_SIZE in *; lia).
  destruct (to_ssize_cases _ Hl) as [Hl1 Hl2].
  destruct (to_ssize_cases _ Hc) as [Hc1 Hc2].
  exists (to_ssize (meta_len b)), (to_ssize (meta_capacity b)).
  unfold string_len, string_capacity.
  rewrite !(bind_eq _ _ _ _ _ (get_meta_eq _ _ _ Hb)).
  split; [reflexivity|]. split; [reflexivity|].
  unfold SIZE_MAX in *.
  repeat split; intros H; rewrite ?Hl1, ?Hl2, ?Hc1, ?Hc2 by exact H; lia.
Qed.

Lemma queries_report_witness :
  exists n c,
    string_len (Some 1%positive) hello_state = Done n hello_state /\
    string_capacity (Some 1%positive) hello_state = Done c hello_state /\
    (meta_len hello < 2 ^ 63 -> n = meta_len hello) /\
    (2 ^ 63 <= meta_len hello -> n < 0) /\
    (meta_capacity hello < 2 ^ 63 -> c = meta_capacity hello) /\
    (2 ^ 63 <= meta_capacity hello -> c < 0).
Proof.
  apply (queries_report 1%positive hello_state hello).
  - vm_compute. reflexivity.
  - check_valid.
Defined.

(** * A walk through the variant with a [struct string] *)

(** The string is created, filled from literals, queried and destroyed; it
    stays at address 2 throughout, and the heap is empty again at the end. *)
Example boxed_walk_through :
  (let! s := Boxed.string_empty in
   let! r1 := Boxed.string_copy_c s (Some (bytes_of "world" ++ [NUL])) in
   let! r2 := Boxed.string_append_c s (Some (bytes_of "!" ++ [NUL])) in
   let! r3 := Boxed.string_prepend_c s (Some (bytes_of "Hello " ++ [NUL])) in
   let! n := Boxed.string_len s in
   let! c := Boxed.string_capacity s in
   let! d := Boxed.string_dup_c (Some (bytes_of "x" ++ [NUL])) in
   let! _ := Boxed.string_destroy d in
   let! _ := Boxed.string_destroy s in
   ret (s, [r1; r2; r3; n; c])) empty_state
  = Done (Some 2%positive, [0; 0; 0; 12; 25]) empty_state.
Proof. vm_compute. reflexivity. Qed.

Example boxed_null_arguments :
  Boxed.string_printf (Some 1%positive) None hello_state = Done (- EINVAL) hello_state /\
  Boxed.string_copy_v None (Some []) 0 hello_state = Done (- EINVAL) hello_state /\
  Boxed.string_dup_v None 3 hello_state = Done None hello_state /\
  Boxed.string_dup_v (Some (bytes_of "hello")) 3 empty_state
  = Done (Some 2%positive)
         (State {[ 2%positive := Block 3 4 (bytes_of "hel" ++ [NUL]) ]} []).
Proof. vm_compute. repeat split; reflexivity. Qed.
